(** * The relational query compiler of the API (apply-query)

    A shallow embedding of [applyQuery], [applySort], [applyFilter],
    [applySearch], [applyAggregate] and their helpers, and of the
    subscription registry of the websocket handler ([SubscribeHandler]),
    followed by the properties the specification states about the
    compiler and further properties of both.

    Conventions of the embedding.
    - The Knex query builder is a mutable object that records the calls
      made on it; it is modelled as the chronological list of those calls
      ([qop]).  How the backend renders the calls is outside the program.
    - [await] is sequential composition: an asynchronous callee is run to
      completion where it is awaited.  A callback that is handed over and
      not awaited (the subquery callback of a to-many filter) is not run:
      the call that takes it records it.  The [map] of the async library
      starts all its items before it awaits any; it is modelled where the
      outcome does not hang on the order in which the items are resumed
      (see [applySort]).
    - An exception leaves the builder as it was when it was thrown, so
      the outcome of a computation carries the state in both cases.
    - Functions of the repository and of its libraries that the compiler
      imports from other modules and libraries (the
      schema accessors, [getRelationInfo], [getColumnPath], [getColumn],
      [stripFunction], [getFilterOperatorsForType], the date and geometry
      helpers) and the ECMAScript primitives on numbers and letter case
      are fields of the records [SchemaOverview] and [Host]. *)

From Stdlib Require Import String Ascii List ZArith Bool Lia DecimalString.
Import ListNotations.
Local Open Scope string_scope.
Local Open Scope list_scope.

Set Implicit Arguments.

(** ** Strings as the code uses them *)

Module Str.

(** Strings are sequences of bytes; on ASCII text [String.length] is the
    [length] of the ECMAScript string, and the separators the compiler
    splits on are ASCII. *)

(** [s.split(c)] for a one-character separator; never empty. *)
Fixpoint split (c : ascii) (s : string) : list string :=
  match s with
  | EmptyString => [EmptyString]
  | String a r =>
      if Ascii.eqb a c then EmptyString :: split c r
      else match split c r with
           | h :: t => String a h :: t
           | [] => [String a EmptyString]
           end
  end.

(** [s.startsWith(p)] *)
Definition startsWith (p s : string) : bool := String.prefix p s.

(** [s.substring(1)], [s.slice(1)] *)
Definition drop1 (s : string) : string :=
  match s with
  | EmptyString => EmptyString
  | String _ r => r
  end.

(** [s.includes(c)] for a one-character needle *)
Fixpoint includes_char (c : ascii) (s : string) : bool :=
  match s with
  | EmptyString => false
  | String a r => Ascii.eqb a c || includes_char c r
  end.

(** [s.includes(p)] *)
Fixpoint includes (p s : string) : bool :=
  String.prefix p s ||
  match s with
  | EmptyString => false
  | String _ r => includes p r
  end.

(** The characters of a string, each as a string of length one. *)
Fixpoint chars (s : string) : list string :=
  match s with
  | EmptyString => []
  | String a r => String a EmptyString :: chars r
  end.

(** Decimal numeral of an array index. *)
Definition of_nat (n : nat) : string := NilZero.string_of_uint (Nat.to_uint n).

(** A string is truthy when it is not empty. *)
Definition truthy (s : string) : bool :=
  match s with EmptyString => false | _ => true end.

(** [xs[i]] on a list of strings, [undefined] as [None]. *)
Definition nth (i : nat) (xs : list string) : option string := List.nth_error xs i.

Definition is_in (s : string) (xs : list string) : bool :=
  existsb (String.eqb s) xs.

End Str.

(** ** ECMAScript values *)

(** Numbers: the integers and NaN.  Query parameters and the literals
    the compiler compares with ([-1], [2]) are integers; the arithmetic of
    the doubles and every conversion from another value go through
    [Host]. *)
Inductive jsnum : Type :=
| NaN
| Num (z : Z).

Module JsNum.

Definition eqb (a b : jsnum) : bool :=
  match a, b with
  | Num x, Num y => Z.eqb x y
  | _, _ => false
  end.

Definition truthy (a : jsnum) : bool :=
  match a with
  | NaN => false
  | Num z => negb (Z.eqb z 0)
  end.

Definition isNaN (a : jsnum) : bool :=
  match a with NaN => true | Num _ => false end.

End JsNum.

(** A JSON-shaped value.  An object is the list of its own enumerable
    entries in the order [Object.entries] yields them. *)
#[warnings="-register-all"]
Inductive value : Type :=
| VUndef
| VNull
| VBool (b : bool)
| VNum (n : jsnum)
| VStr (s : string)
| VArr (items : list value)
| VObj (entries : list (string * value)).

(** Exceptions the compiler can end with.  [OutOfFuel] and [Interleaved]
    are not exceptions of the program.  [OutOfFuel] marks a run of the
    model that was given too small a recursion budget.  [Interleaved]
    marks a run the embedding does not determine: one in which
    computations started together and left pending share the builder and
    the alias map, so that what they make of them depends on the order in
    which their promises resolve. *)
Inductive exn : Type :=
| InvalidQueryException (message : string)
| TypeError
| OutOfFuel
| Interleaved.

(** The result of a helper that changes nothing: a value, or the
    TypeError of a property read on [null] or [undefined]. *)
Inductive result (A : Type) : Type :=
| ROk (a : A)
| RTypeError.
Arguments RTypeError {A}.

Module Js.

Definition isPlainObject (v : value) : bool :=
  match v with VObj _ => true | _ => false end.

Definition isArray (v : value) : bool :=
  match v with VArr _ => true | _ => false end.

Definition truthy (v : value) : bool :=
  match v with
  | VUndef | VNull => false
  | VBool b => b
  | VNum n => JsNum.truthy n
  | VStr s => Str.truthy s
  | VArr _ | VObj _ => true
  end.

Definition indices {A : Type} (l : list A) : list string :=
  map Str.of_nat (seq 0 (length l)).

(** [Object.entries(v)] *)
Definition entries (v : value) : result (list (string * value)) :=
  match v with
  | VUndef | VNull => RTypeError
  | VBool _ | VNum _ => ROk []
  | VStr s => ROk (combine (indices (Str.chars s)) (map VStr (Str.chars s)))
  | VArr items => ROk (combine (indices items) items)
  | VObj es => ROk es
  end.

(** [Object.keys(v)] *)
Definition keys (v : value) : result (list string) :=
  match entries v with
  | ROk es => ROk (map fst es)
  | RTypeError => RTypeError
  end.

(** [Object.keys(v)[0]], [undefined] as [None] *)
Definition firstKey (v : value) : result (option string) :=
  match keys v with
  | ROk ks => ROk (hd_error ks)
  | RTypeError => RTypeError
  end.

(** [Object.values(v)[0]] *)
Definition firstValue (v : value) : result value :=
  match entries v with
  | ROk es => ROk (match es with (_, x) :: _ => x | [] => VUndef end)
  | RTypeError => RTypeError
  end.

(** The items [for (const x of v)] visits. *)
Definition iterate (v : value) : result (list value) :=
  match v with
  | VArr items => ROk items
  | VStr s => ROk (map VStr (Str.chars s))
  | _ => RTypeError
  end.

End Js.

(** ** The schema and the imported helpers *)

Record CollectionInfo : Type := { primary : string }.

Record FieldInfo : Type := { type : string; special : list string }.

Record RelationMeta : Type := { one_collection_field : option string }.

(** A relation definition; [relation_collection] and [relation_field] are
    its [collection] and [field] properties. *)
Record Relation : Type := {
  relation_collection : string;
  relation_field : string;
  related_collection : option string;
  meta : option RelationMeta
}.

(** The [relationType] string of [getRelationInfo]. *)
Inductive RelationType : Type := m2o | o2m | a2o | o2a.

Definition RelationType_eqb (a b : RelationType) : bool :=
  match a, b with
  | m2o, m2o | o2m, o2m | a2o, a2o | o2a, o2a => true
  | _, _ => false
  end.

(** [relationType === t], where [relationType] may be [null]. *)
Definition is_type (rt : option RelationType) (t : RelationType) : bool :=
  match rt with
  | Some r => RelationType_eqb r t
  | None => false
  end.

(** The schema accessors the compiler awaits. *)
Record SchemaOverview : Type := {
  getCollection : string -> option CollectionInfo;
  getField : string -> string -> option FieldInfo;
  getFields : string -> list (string * FieldInfo);
  getRelations : list Relation
}.

(** A raw backend expression, [knex.raw(sql, bindings)]. *)
Inductive rawexp : Type := KnexRaw (sql : string) (bindings : list string).

(** The alias map: a nested object whose leaves are aliases. *)
#[warnings="-register-all"]
Inductive amap : Type :=
| AStr (alias : string)
| AObj (entries : list (string * amap)).

Definition AliasMap : Type := list (string * amap).

(** Imported functions and primitives the compiler calls. *)
Record Host : Type := {
  (** the alias the generator returns at its n-th call *)
  generateAlias : nat -> string;
  getRelationInfo :
    list Relation -> string -> string -> option Relation * option RelationType;
  (** [getColumnPath({path, collection, aliasMap, relations})], giving
      [columnPath] and [targetCollection] *)
  getColumnPath :
    list string -> string -> AliasMap -> list Relation -> string * string;
  (** [getColumn(knex, table, column, false, schema)] *)
  getColumn : string -> option string -> rawexp;
  stripFunction : string -> string;
  getFilterOperatorsForType : string -> list string;
  getOutputTypeForFunction : string -> string;
  (** [helpers.date.parse] *)
  date_parse : value -> value;
  (** [helpers.st.intersects] and its three siblings *)
  st_intersects : string -> value -> rawexp;
  st_nintersects : string -> value -> rawexp;
  st_intersects_bbox : string -> value -> rawexp;
  st_nintersects_bbox : string -> value -> rawexp;
  (** [Number(v)] *)
  toNumber : value -> jsnum;
  (** [a - b] and [a * b] on doubles *)
  minus : jsnum -> jsnum -> jsnum;
  times : jsnum -> jsnum -> jsnum;
  (** [s.toLowerCase()] *)
  toLowerCase : string -> string;
  (** the string a template literal makes of a value *)
  toString : value -> string;
  (** [validate] of uuid-validate *)
  validate : string -> bool
}.

(** ** The query builder *)

Inductive logical : Type := LAnd | LOr.

Inductive order : Type := asc | desc.

Inductive colref : Type :=
| Col (name : string)
| RawCol (r : rawexp).

Inductive binding : Type :=
| BRaw (r : rawexp)
| BStr (s : string).

(** The callback [subQueryBuilder(filter)] of a to-many filter: an
    asynchronous closure over the relation and the sub-filter.  The
    compiler hands it to [whereIn] or [whereNotIn] and does not call or
    await it; [subQueryCallback] below is what it does when it is called
    with a builder. *)
Record SubQuery : Type := {
  sub_relation : Relation;
  sub_filter : value
}.

(** One call on a builder.  A where-method reached through
    [dbQuery[logical]] carries that [logical]; a where-method called on the
    builder itself carries [LAnd]. *)
#[warnings="-register-all"]
Inductive qop : Type :=
| LeftJoin (alias table lhs rhs : string)
| LeftJoinOn (alias table : string)
    (onVal_column : option string) (onVal_value : string)
    (andOn_lhs : string) (andOn_rhs : rawexp)
| Limit (n : jsnum)
| Offset (n : jsnum)
| OrderBy (columns : list (order * rawexp))
| GroupBy (columns : list rawexp)
| Aggregate (fn column as_ : string)
| Select (as_ column : string)
| From (table : string)
| WhereNull (l : logical) (c : colref)
| WhereNotNull (l : logical) (c : colref)
| AndWhere (l : logical) (group : list qop)
| Where (l : logical) (c : colref) (op : string) (v : value)
| WhereNot (l : logical) (c : colref) (op : option string) (v : value)
| WhereRaw (l : logical) (sql : string) (bindings : list binding)
| WhereRawExp (l : logical) (r : rawexp)
| WhereIn (l : logical) (c : colref) (v : value)
| WhereNotIn (l : logical) (c : colref) (v : value)
| WhereInSub (l : logical) (c : colref) (callback : SubQuery)
| WhereNotInSub (l : logical) (c : colref) (callback : SubQuery)
| WhereBetween (l : logical) (c : colref) (v : value)
| WhereNotBetween (l : logical) (c : colref) (v : value)
| OrWhereRaw (sql : string) (bindings : list binding)
| OrWhere (column : string) (v : value).

(** ** State and control *)

Record state : Type := {
  query : list qop;        (* the calls made so far on the current builder *)
  aliasMap : AliasMap;     (* the alias map of the running applyFilter/applySort *)
  drawn : nat              (* how many aliases generateAlias has handed out *)
}.

Inductive outcome (A : Type) : Type :=
| Ok (a : A) (s : state)
| Throw (e : exn) (s : state).
Arguments Throw {A} e s.

Definition M (A : Type) : Type := state -> outcome A.

Definition ret {A : Type} (a : A) : M A := fun s => Ok a s.

Definition throw {A : Type} (e : exn) : M A := fun s => Throw e s.

Definition bind {A B : Type} (m : M A) (f : A -> M B) : M B :=
  fun s =>
    match m s with
    | Ok a s' => f a s'
    | Throw e s' => Throw e s'
    end.

Declare Scope js_scope.
Delimit Scope js_scope with js.
Notation "x <- m ;; k" := (bind m (fun x => k))
  (at level 61, m at next level, right associativity) : js_scope.
Notation "m ;; k" := (bind m (fun _ => k))
  (at level 61, right associativity) : js_scope.
Local Open Scope js_scope.

Definition lift {A : Type} (r : result A) : M A :=
  match r with
  | ROk a => ret a
  | RTypeError => throw TypeError
  end.

(** [x!.p] on a value that may be [undefined]. *)
Definition deref {A : Type} (o : option A) : M A :=
  match o with
  | Some a => ret a
  | None => throw TypeError
  end.

Definition when (b : bool) (m : M unit) : M unit :=
  if b then m else ret tt.

(** A call on the current builder. *)
Definition emit (op : qop) : M unit :=
  fun s => Ok tt {| query := query s ++ [op]; aliasMap := aliasMap s; drawn := drawn s |}.

Definition getAliasMap : M AliasMap := fun s => Ok (aliasMap s) s.

Definition putAliasMap (m : AliasMap) : M unit :=
  fun s => Ok tt {| query := query s; aliasMap := m; drawn := drawn s |}.

(** [for (const x of xs) body(x)] *)
Fixpoint forEach {A : Type} (body : A -> M unit) (xs : list A) : M unit :=
  match xs with
  | [] => ret tt
  | x :: rest => body x ;; forEach body rest
  end.

(** [map] of the async library on items whose computations share no
    state that more than one of them touches: the outcome is that of
    visiting the items in order. *)
Fixpoint mapM {A B : Type} (f : A -> M B) (xs : list A) : M (list B) :=
  match xs with
  | [] => ret []
  | x :: rest => y <- f x ;; ys <- mapM f rest ;; ret (y :: ys)
  end.

(** ** lodash [set] on the alias map *)

Module Lodash.

Fixpoint lookup (k : string) (es : list (string * amap)) : option amap :=
  match es with
  | [] => None
  | (k', v) :: rest => if String.eqb k k' then Some v else lookup k rest
  end.

(** [object[k] = v]: an existing key keeps its place, a new one goes last. *)
Fixpoint assign (k : string) (v : amap) (es : list (string * amap)) : list (string * amap) :=
  match es with
  | [] => [(k, v)]
  | (k', v') :: rest =>
      if String.eqb k k' then (k', v) :: rest else (k', v') :: assign k v rest
  end.

(** [set(object, path, alias)] for an array path: intermediate values that
    are not objects are replaced by new objects. *)
Fixpoint set (es : AliasMap) (path : list string) (alias : string) : AliasMap :=
  match path with
  | [] => es
  | k :: rest =>
      match rest with
      | [] => assign k (AStr alias) es
      | _ :: _ =>
          let child := match lookup k es with
                       | Some (AObj c) => c
                       | _ => []
                       end in
          assign k (AObj (set child rest alias)) es
      end
  end.

End Lodash.

(** ** The query *)

(** [Aggregate]: operation name to field names; a missing field list is [None]. *)
Definition AggregateSpec : Type := list (string * option (list string)).

(** [Query], each optional property as an option. *)
Record Query : Type := {
  sort : option (list string);
  limit : option jsnum;
  offset : option jsnum;
  page : option jsnum;
  search : option string;
  group : option (list string);
  aggregate : option AggregateSpec;
  filter : option value
}.

(** The object literal [{ filter }]. *)
Definition filterOnly (f : value) : Query :=
  {| sort := None; limit := None; offset := None; page := None; search := None;
     group := None; aggregate := None; filter := Some f |}.

(** Truthiness of an optional number. *)
Definition numTruthy (n : option jsnum) : bool :=
  match n with
  | Some x => JsNum.truthy x
  | None => false
  end.

(** [n !== -1] on an optional number. *)
Definition isNotMinus1 (n : option jsnum) : bool :=
  match n with
  | Some x => negb (JsNum.eqb x (Num (-1)))
  | None => true
  end.

(** ** The compiler *)

(** [`${a}.${b}`] *)
Definition dotted (a b : string) : string := (a ++ "." ++ b)%string.

Section Compiler.

Variable schema : SchemaOverview.
Variable host : Host.

(** [generateAlias()] *)
Definition newAlias : M string :=
  fun s => Ok (generateAlias host (drawn s))
              {| query := query s; aliasMap := aliasMap s; drawn := S (drawn s) |}.

(** [a || b] on a string that may be [undefined]. *)
Definition orElse (a : option string) (b : string) : string :=
  match a with
  | Some x => if Str.truthy x then x else b
  | None => b
  end.

Definition isDefined {A : Type} (a : option A) : bool :=
  match a with Some _ => true | None => false end.

(** [await schema.getCollection(name)] where [name] may be [null]: the
    schema holds no collection for [null]. *)
Definition collectionInfoOf (name : option string) : option CollectionInfo :=
  match name with
  | Some c => getCollection schema c
  | None => None
  end.

Definition scopeMessage : string :=
  "You have to provide a collection scope when sorting or filtering on a many-to-any item".

(** [pathParts[0].split(':')[1]], checked for truthiness. *)
Definition pathScope (segment : string) : M string :=
  match Str.nth 1 (Str.split ":" segment) with
  | Some scope =>
      if Str.truthy scope then ret scope
      else throw (InvalidQueryException scopeMessage)
  | None => throw (InvalidQueryException scopeMessage)
  end.

Definition castChar : string := "CAST(?? AS CHAR(255))".

(** The inner function of [addJoin].  [pathParts] is consumed one segment
    per call ([pathParts.shift()]).  A related collection that is [null]
    has no collection info, so the m2o join fails on the info before the
    collection name is used. *)
Fixpoint followRelation (relations : list Relation) (subQuery : bool)
    (pathParts : list string) (parentCollection : string)
    (parentAlias : option string) {struct pathParts} : M unit :=
  match pathParts with
  | [] => throw TypeError
  | segment :: rest =>
      let pathRoot := hd EmptyString (Str.split ":" segment) in
      let (relation', relationType) :=
        getRelationInfo host relations parentCollection pathRoot in
      match relation' with
      | None => ret tt
      | Some relation =>
          alias <- newAlias ;;
          let relatedCollectionInfo := collectionInfoOf (related_collection relation) in
          am <- getAliasMap ;;
          putAliasMap
            (Lodash.set am
               (match parentAlias with
                | Some pa => if Str.truthy pa then pa :: pathParts else pathParts
                | None => pathParts
                end) alias) ;;
          when (is_type relationType m2o)
            (info <- deref relatedCollectionInfo ;;
             related <- deref (related_collection relation) ;;
             emit (LeftJoin alias related
                     (dotted (orElse parentAlias parentCollection) (relation_field relation))
                     (dotted alias (primary info)))) ;;
          when (is_type relationType a2o)
            (scope <- pathScope segment ;;
             let collectionInfo := getCollection schema scope in
             m <- deref (meta relation) ;;
             info <- deref collectionInfo ;;
             emit (LeftJoinOn alias scope
                     (one_collection_field m) scope
                     (dotted (orElse parentAlias parentCollection) (relation_field relation))
                     (KnexRaw castChar [dotted alias (primary info)]))) ;;
          when (is_type relationType o2a)
            (let collectionInfo := getCollection schema parentCollection in
             m <- deref (meta relation) ;;
             info <- deref collectionInfo ;;
             emit (LeftJoinOn alias (relation_collection relation)
                     (one_collection_field m) parentCollection
                     (dotted alias (relation_field relation))
                     (KnexRaw castChar
                        [dotted (orElse parentAlias parentCollection) (primary info)]))) ;;
          when (is_type relationType o2m && (subQuery || isDefined parentAlias))
            (info <- deref relatedCollectionInfo ;;
             emit (LeftJoin alias (relation_collection relation)
                     (dotted (orElse parentAlias parentCollection) (primary info))
                     (dotted alias (relation_field relation)))) ;;
          if is_type relationType m2o || subQuery
             || (is_type relationType o2m && isDefined parentAlias)
          then
            parent <-
              (if is_type relationType m2o then deref (related_collection relation)
               else if is_type relationType a2o then pathScope segment
               else ret (relation_collection relation)) ;;
            match rest with
            | [] => ret tt
            | _ :: _ => followRelation relations subQuery rest parent (Some alias)
            end
          else ret tt
      end
  end.

(** [addJoin({path, collection, aliasMap, rootQuery, subQuery, ...})] *)
Definition addJoin (relations : list Relation) (subQuery : bool)
    (path : list string) (collection : string) : M unit :=
  followRelation relations subQuery path collection None.

(** A sort field that names a column of a related collection. *)
Definition relational (sortField : string) : bool :=
  (1 <? length (Str.split "." sortField))%nat.

(** [applySort]; the alias map is its own.  [map] of the async library
    starts every sort field before it awaits any, and the fields share
    the alias map, the builder and the alias generator.  A field of the
    collection itself touches none of them, so with at most one
    relational field the outcome is that of visiting the fields in order.
    With two or more, which alias a field reads and in which order the
    joins are made depends on the order in which the awaited promises
    resolve: such a run ends in [Interleaved]. *)
Definition applySort (rootSort : list string) (collection : string)
    (subQuery : bool) : M unit :=
  let relations := getRelations schema in
  putAliasMap [] ;;
  when (1 <? length (List.filter relational rootSort))%nat (throw Interleaved) ;;
  mapped <-
    mapM (fun sortField : string =>
      let column := Str.split "." sortField in
      if (1 <? length column)%nat then
        let order := if Str.startsWith "-" sortField then desc else asc in
        let column :=
          match column with
          | c0 :: cs => (if Str.startsWith "-" c0 then Str.drop1 c0 else c0) :: cs
          | [] => []
          end in
        addJoin relations subQuery column collection ;;
        am <- getAliasMap ;;
        let columnPath := fst (getColumnPath host column collection am relations) in
        let parts := Str.split "." columnPath in
        ret (order, getColumn host (hd EmptyString parts) (Str.nth 1 parts))
      else
        let c0 := hd EmptyString column in
        if Str.startsWith "-" sortField
        then ret (desc, getColumn host collection (Some (Str.drop1 c0)))
        else ret (asc, getColumn host collection (Some c0)))
      rootSort ;;
  emit (OrderBy mapped).

(** [getFilterPath(key, value)].  On an empty object the source recurses
    with an [undefined] key and value and [Object.keys(undefined)] throws. *)
Fixpoint getFilterPath (key : string) (v : value) : result (list string) :=
  match Js.firstKey v with
  | RTypeError => RTypeError
  | ROk k0 =>
      if match k0 with Some k => Str.startsWith "_" k | None => false end
      then ROk [key]
      else
        match v with
        | VObj ((k, x) :: _) =>
            match getFilterPath k x with
            | ROk path => ROk (key :: path)
            | RTypeError => RTypeError
            end
        | VObj [] => RTypeError
        | _ => ROk [key]
        end
  end.

(** [getOperation(key, value)].  On an empty object the source recurses
    with an [undefined] key and [undefined.startsWith] throws. *)
Fixpoint getOperation (key : string) (v : value) : result (string * value) :=
  if Str.startsWith "_" key && negb (key =? "_and")%string && negb (key =? "_or")%string
  then ROk (key, v)
  else if negb (Js.isPlainObject v) then ROk ("_eq", v)
  else
    match v with
    | VObj ((k, x) :: _) => getOperation k x
    | _ => RTypeError
    end.

Definition dq : string := String "034"%char EmptyString.

Definition typeMessage (type' op : string) : string :=
  (dq ++ type' ++ dq ++ " field type does not contain the " ++ dq ++ "_" ++ op ++ dq
   ++ " filter operator")%string.

Definition concealMessage (op : string) : string :=
  ("Field with " ++ dq ++ "conceal" ++ dq ++ " special does not allow the " ++ dq ++ "_"
   ++ op ++ dq ++ " filter operator")%string.

(** [validateFilterOperator(type, filterOperator, special)] *)
Definition validateFilterOperator (type' filterOperator : string)
    (special' : list string) : M unit :=
  let filterOperator :=
    if Str.startsWith "_" filterOperator then Str.drop1 filterOperator
    else filterOperator in
  if negb (Str.is_in filterOperator (getFilterOperatorsForType host type'))
  then throw (InvalidQueryException (typeMessage type' filterOperator))
  else if Str.is_in "conceal" special'
          && negb (Str.is_in filterOperator (getFilterOperatorsForType host "hash"))
  then throw (InvalidQueryException (concealMessage filterOperator))
  else ret tt.

Definition numericTypes : list string := ["bigInteger"; "integer"; "float"; "decimal"].

Definition dateTypes : list string := ["date"; "dateTime"; "time"; "timestamp"].

(** [compareValue === false] *)
Definition isFalse (v : value) : bool :=
  match v with VBool false => true | _ => false end.

Definition isUndefined (v : value) : bool :=
  match v with VUndef => true | _ => false end.

(** [`${v}`] *)
Definition template (v : value) : string :=
  match v with
  | VStr s => s
  | _ => toString host v
  end.

(** [compareValue.toLowerCase()] *)
Definition lowerCased (v : value) : M string :=
  match v with
  | VStr s => ret (toLowerCase host s)
  | _ => throw TypeError
  end.

(** [compareValue.length !== 2] *)
Definition lengthIsNot2 (v : value) : M bool :=
  match v with
  | VUndef | VNull => throw TypeError
  | VStr s => ret (negb (String.length s =? 2)%nat)
  | VArr items => ret (negb (length items =? 2)%nat)
  | VObj es =>
      ret (match find (fun e => (fst e =? "length")%string) es with
           | Some (_, VNum (Num 2)) => false
           | _ => true
           end)
  | VBool _ | VNum _ => ret true
  end.

(** [if (typeof value === 'string') value = value.split(',')] *)
Definition splitIfString (v : value) : value :=
  match v with
  | VStr s => VArr (map VStr (Str.split "," s))
  | _ => v
  end.

(** [Array.isArray(v) ? v.map(f) : f(v)] *)
Definition mapOrApply (f : value -> value) (v : value) : value :=
  match v with
  | VArr items => VArr (map f items)
  | _ => f v
  end.

(** The inner function [applyFilterToQuery] of [addWhereClauses]; the
    builder it writes to is the current one. *)
Definition applyFilterToQuery (key operator : string) (compareValue : value)
    (logical' : logical) (originalCollectionName : option string) : M unit :=
  let op (name : string) : bool := (operator =? name)%string in
  let parts := Str.split "." key in
  let table := hd EmptyString parts in
  let column := Str.nth 1 parts in
  let selectionRaw := getColumn host table column in
  when (op "_null" || (op "_nnull" && isFalse compareValue))
    (emit (WhereNull logical' (RawCol selectionRaw))) ;;
  when (op "_nnull" || (op "_null" && isFalse compareValue))
    (emit (WhereNotNull logical' (RawCol selectionRaw))) ;;
  when (op "_empty" || (op "_nempty" && isFalse compareValue))
    (emit (AndWhere logical' [Where LAnd (Col key) "=" (VStr EmptyString)])) ;;
  when (op "_nempty" || (op "_empty" && isFalse compareValue))
    (emit (AndWhere logical' [Where LAnd (Col key) "!=" (VStr EmptyString)])) ;;
  if isUndefined compareValue then ret tt
  else
    let compareValue :=
      match compareValue with
      | VArr items => VArr (List.filter (fun x => negb (isUndefined x)) items)
      | _ => compareValue
      end in
    column <- deref column ;;
    let compareValue :=
      if Str.includes_char "(" column && Str.includes_char ")" column
      then
        let functionName := hd EmptyString (Str.split "(" column) in
        if Str.is_in (getOutputTypeForFunction host functionName) numericTypes
        then VNum (toNumber host compareValue)
        else compareValue
      else compareValue in
    let collection := table in
    let field := column in
    let mappedCollection := orElse originalCollectionName collection in
    let fieldInfo := getField schema mappedCollection field in
    let compareValue :=
      match fieldInfo with
      | Some info =>
          let compareValue :=
            if Str.is_in (type info) dateTypes
            then mapOrApply (date_parse host) compareValue
            else compareValue in
          if Str.is_in (type info) numericTypes
          then mapOrApply (fun x => VNum (toNumber host x)) compareValue
          else compareValue
      | None => compareValue
      end in
    let sel := RawCol selectionRaw in
    let lowerRaw (sql before after : string) : M unit :=
      lower <- lowerCased compareValue ;;
      emit (WhereRaw logical' sql [BRaw selectionRaw; BStr (before ++ lower ++ after)%string]) in
    let like (before after : string) : value :=
      VStr (before ++ template compareValue ++ after)%string in
    when (op "_eq") (emit (Where logical' sel "=" compareValue)) ;;
    when (op "_neq") (emit (WhereNot logical' sel None compareValue)) ;;
    when (op "_ieq") (lowerRaw "LOWER(??) = ?" "" "") ;;
    when (op "_nieq") (lowerRaw "LOWER(??) <> ?" "" "") ;;
    when (op "_contains") (emit (Where logical' sel "like" (like "%" "%"))) ;;
    when (op "_ncontains") (emit (WhereNot logical' sel (Some "like") (like "%" "%"))) ;;
    when (op "_icontains") (lowerRaw "LOWER(??) LIKE ?" "%" "%") ;;
    when (op "_nicontains") (lowerRaw "LOWER(??) NOT LIKE ?" "%" "%") ;;
    when (op "_starts_with") (emit (Where logical' (Col key) "like" (like "" "%"))) ;;
    when (op "_nstarts_with") (emit (WhereNot logical' (Col key) (Some "like") (like "" "%"))) ;;
    when (op "_istarts_with") (lowerRaw "LOWER(??) LIKE ?" "" "%") ;;
    when (op "_nistarts_with") (lowerRaw "LOWER(??) NOT LIKE ?" "" "%") ;;
    when (op "_ends_with") (emit (Where logical' (Col key) "like" (like "%" ""))) ;;
    when (op "_nends_with") (emit (WhereNot logical' (Col key) (Some "like") (like "%" ""))) ;;
    when (op "_iends_with") (lowerRaw "LOWER(??) LIKE ?" "%" "") ;;
    when (op "_niends_with") (lowerRaw "LOWER(??) NOT LIKE ?" "%" "") ;;
    when (op "_gt") (emit (Where logical' sel ">" compareValue)) ;;
    when (op "_gte") (emit (Where logical' sel ">=" compareValue)) ;;
    when (op "_lt") (emit (Where logical' sel "<" compareValue)) ;;
    when (op "_lte") (emit (Where logical' sel "<=" compareValue)) ;;
    when (op "_in") (emit (WhereIn logical' sel (splitIfString compareValue))) ;;
    when (op "_nin") (emit (WhereNotIn logical' sel (splitIfString compareValue))) ;;
    let spatial : M unit :=
      when (op "_intersects")
        (emit (WhereRawExp logical' (st_intersects host key compareValue))) ;;
      when (op "_nintersects")
        (emit (WhereRawExp logical' (st_nintersects host key compareValue))) ;;
      when (op "_intersects_bbox")
        (emit (WhereRawExp logical' (st_intersects_bbox host key compareValue))) ;;
      when (op "_nintersects_bbox")
        (emit (WhereRawExp logical' (st_nintersects_bbox host key compareValue))) in
    let nbetween : M unit :=
      if op "_nbetween" then
        stop <- lengthIsNot2 compareValue ;;
        if stop then ret tt
        else emit (WhereNotBetween logical' sel (splitIfString compareValue)) ;; spatial
      else spatial in
    if op "_between" then
      stop <- lengthIsNot2 compareValue ;;
      if stop then ret tt
      else emit (WhereBetween logical' sel (splitIfString compareValue)) ;; nbetween
    else nbetween.

(** [applySearch(schema, dbQuery, searchQuery, collection)] *)
Definition applySearch (searchQuery collection : string) : M unit :=
  let fields := getFields schema collection in
  emit (AndWhere LAnd
    (flat_map (fun nf : string * FieldInfo =>
       let (name, field) := nf in
       if Str.is_in (type field) ["text"; "string"] then
         [OrWhereRaw "LOWER(??) LIKE ?"
            [BStr (dotted collection name);
             BStr ("%" ++ toLowerCase host searchQuery ++ "%")%string]]
       else if Str.is_in (type field) ["bigInteger"; "integer"; "decimal"; "float"] then
         let number := toNumber host (VStr searchQuery) in
         if negb (JsNum.isNaN number)
         then [OrWhere (dotted collection name) (VNum number)]
         else []
       else if (type field =? "uuid")%string && validate host searchQuery then
         [OrWhere (dotted collection name) (VStr searchQuery)]
       else []) fields)).

(** [`${operation}->${field}`] *)
Definition arrow (operation field : string) : string :=
  (operation ++ "->" ++ field)%string.

(** The body of the inner loop of [applyAggregate]. *)
Definition aggregateField (collection operation field : string) : M unit :=
  let op (name : string) : bool := (operation =? name)%string in
  let column := dotted collection field in
  when (op "avg") (emit (Aggregate "avg" column (arrow "avg" field))) ;;
  when (op "avgDistinct")
    (emit (Aggregate "avgDistinct" column (arrow "avgDistinct" field))) ;;
  when (op "countAll") (emit (Aggregate "count" "*" "countAll")) ;;
  when (op "count")
    (if (field =? "*")%string then emit (Aggregate "count" "*" "count")
     else emit (Aggregate "count" column (arrow "count" field))) ;;
  when (op "countDistinct")
    (emit (Aggregate "countDistinct" column (arrow "countDistinct" field))) ;;
  when (op "sum") (emit (Aggregate "sum" column (arrow "sum" field))) ;;
  when (op "sumDistinct")
    (emit (Aggregate "sumDistinct" column (arrow "sumDistinct" field))) ;;
  when (op "min") (emit (Aggregate "min" column (arrow "min" field))) ;;
  when (op "max") (emit (Aggregate "max" column (arrow "max" field))).

(** [applyAggregate(dbQuery, aggregate, collection)] *)
Definition applyAggregate (aggregate' : AggregateSpec) (collection : string) : M unit :=
  forEach (fun entry : string * option (list string) =>
    let (operation, fields) := entry in
    match fields with
    | None => ret tt
    | Some fields => forEach (aggregateField collection operation) fields
    end) aggregate'.

(** [value.some((subFilter) => Object.keys(subFilter).length === 0)] *)
Fixpoint someEmptyIn (items : list value) : result bool :=
  match items with
  | [] => ROk false
  | x :: rest =>
      match Js.keys x with
      | RTypeError => RTypeError
      | ROk [] => ROk true
      | ROk (_ :: _) => someEmptyIn rest
      end
  end.

Definition someEmpty (v : value) : result bool :=
  match v with
  | VArr items => someEmptyIn items
  | _ => RTypeError
  end.

Definition isLogicalKey (key : string) : bool :=
  ((key =? "_or") || (key =? "_and"))%string.

(** [key === '_or' && value.some(...)] *)
Definition shortCircuits (key : string) (v : value) : result bool :=
  if (key =? "_or")%string then someEmpty v else ROk false.

(** The inner function [addJoins] of [applyFilter]. *)
Fixpoint addJoins (fuel : nat) (relations : list Relation) (subQuery : bool)
    (filter' : value) (collection : string) {struct fuel} : M unit :=
  match fuel with
  | O => throw OutOfFuel
  | S fuel' =>
      es <- lift (Js.entries filter') ;;
      forEach (fun e : string * value =>
        let (key, v) := e in
        if isLogicalKey key then
          skip <- lift (shortCircuits key v) ;;
          if skip then ret tt
          else
            subFilters <- lift (Js.iterate v) ;;
            forEach (fun subFilter =>
              addJoins fuel' relations subQuery subFilter collection) subFilters
        else
          filterPath <- lift (getFilterPath key v) ;;
          when (1 <? length filterPath)%nat
            (addJoin relations subQuery filterPath collection)) es
  end.

(** [pkField] of the to-many branch. *)
Definition pkFieldOf (relationType : option RelationType) (collection primary' : string)
    : colref :=
  if is_type relationType o2a
  then RawCol (KnexRaw castChar [dotted collection primary'])
  else Col (dotted collection primary').

(** [addWhereClauses].  A to-many filter hands [whereIn] or [whereNotIn]
    the callback [subQueryBuilder(filter)] and goes on without awaiting
    it: the clause holds the callback, and what the callback does, or
    throws, is no part of the call.  [fuel] bounds the nesting of [_and]
    and [_or]. *)
Fixpoint addWhereClauses (fuel : nat) (relations : list Relation) (subQuery : bool)
    (filter' : value) (collection : string) (logical' : logical) {struct fuel}
    : M unit :=
  match fuel with
  | O => throw OutOfFuel
  | S fuel' =>
      es <- lift (Js.entries filter') ;;
      forEach (fun e : string * value =>
        let (key, v) := e in
        if isLogicalKey key then
          skip <- lift (shortCircuits key v) ;;
          if skip then ret tt
          else
            subFilters <- lift (Js.iterate v) ;;
            forEach (fun subFilter =>
              addWhereClauses fuel' relations subQuery subFilter collection
                (if (key =? "_and")%string then LAnd else LOr)) subFilters
        else
          filterPath <- lift (getFilterPath key v) ;;
          let pathRoot :=
            hd EmptyString (Str.split ":" (hd EmptyString filterPath)) in
          let (relation', relationType) :=
            getRelationInfo host relations collection pathRoot in
          operation <- lift (getOperation key v) ;;
          let (filterOperator, filterValue) := operation in
          if is_type relationType m2o || is_type relationType a2o
             || negb (isDefined relationType)
          then
            if (1 <? length filterPath)%nat then
              am <- getAliasMap ;;
              let (columnPath, targetCollection) :=
                getColumnPath host filterPath collection am relations in
              if negb (Str.truthy columnPath) then ret tt
              else
                field <- deref (getField schema targetCollection
                                  (stripFunction host (last filterPath EmptyString))) ;;
                validateFilterOperator (type field) filterOperator (special field) ;;
                applyFilterToQuery columnPath filterOperator filterValue logical'
                  (Some targetCollection)
            else
              field <- deref (getField schema collection
                                (stripFunction host (hd EmptyString filterPath))) ;;
              validateFilterOperator (type field) filterOperator (special field) ;;
              applyFilterToQuery (dotted collection (hd EmptyString filterPath))
                filterOperator filterValue logical' None
          else if negb subQuery || (1 <? length filterPath)%nat then
            match relation' with
            | None => ret tt
            | Some relation =>
                collectionInfo <- deref (collectionInfoOf (related_collection relation)) ;;
                let pkField := pkFieldOf relationType collection (primary collectionInfo) in
                let subQueryBuilder (f : value) : SubQuery :=
                  {| sub_relation := relation; sub_filter := f |} in
                k0 <- lift (Js.firstKey v) ;;
                if match k0 with Some k => (k =? "_none")%string | None => false end then
                  f <- lift (Js.firstValue v) ;;
                  emit (WhereNotInSub logical' pkField (subQueryBuilder f))
                else if match k0 with Some k => (k =? "_some")%string | None => false end then
                  f <- lift (Js.firstValue v) ;;
                  emit (WhereInSub logical' pkField (subQueryBuilder f))
                else
                  emit (WhereInSub logical' pkField (subQueryBuilder v))
            end
          else ret tt) es
  end.

(** [applyFilter]; the alias map is its own. *)
Definition applyFilter (fuel : nat) (rootFilter : value) (collection : string)
    (subQuery : bool) : M unit :=
  let relations := getRelations schema in
  putAliasMap [] ;;
  addJoins fuel relations subQuery rootFilter collection ;;
  addWhereClauses fuel relations subQuery rootFilter collection LAnd.

(** [applyQuery(knex, collection, dbQuery, query, schema, subQuery)] *)
Definition applyQuery (fuel : nat) (collection : string) (query' : Query)
    (subQuery : bool) : M unit :=
  match sort query' with
  | Some rootSort => applySort rootSort collection subQuery
  | None => ret tt
  end ;;
  match limit query' with
  | Some n => when (negb (JsNum.eqb n (Num (-1)))) (emit (Limit n))
  | None => ret tt
  end ;;
  match offset query' with
  | Some n => when (JsNum.truthy n) (emit (Offset n))
  | None => ret tt
  end ;;
  match page query', limit query' with
  | Some p, Some n =>
      when (JsNum.truthy p && JsNum.truthy n && negb (JsNum.eqb n (Num (-1))))
        (emit (Offset (times host n (minus host p (Num 1)))))
  | _, _ => ret tt
  end ;;
  match search query' with
  | Some searchQuery => when (Str.truthy searchQuery) (applySearch searchQuery collection)
  | None => ret tt
  end ;;
  match group query' with
  | Some columns =>
      emit (GroupBy (map (fun column => getColumn host collection (Some column)) columns))
  | None => ret tt
  end ;;
  match aggregate query' with
  | Some spec => applyAggregate spec collection
  | None => ret tt
  end ;;
  match filter query' with
  | Some rootFilter =>
      when (Js.truthy rootFilter) (applyFilter fuel rootFilter collection subQuery)
  | None => ret tt
  end.

(** The body of the callback [subQueryBuilder(filter)] returns: what it
    does with the builder it is called with, run to its end. *)
Definition subQueryCallback (fuel : nat) (callback : SubQuery) : M unit :=
  let relation := sub_relation callback in
  let field := relation_field relation in
  let collection := relation_collection relation in
  let column := dotted collection field in
  emit (Select field column) ;;
  emit (From collection) ;;
  emit (WhereNotNull LAnd (Col column)) ;;
  applyQuery fuel (relation_collection relation) (filterOnly (sub_filter callback)) true.

End Compiler.

(** ** The last offset and limit a builder holds

    The builder keeps one offset and one limit: a later call replaces the
    value an earlier call set. *)

Fixpoint effectiveOffset (ops : list qop) : option jsnum :=
  match ops with
  | [] => None
  | op :: rest =>
      match effectiveOffset rest with
      | Some n => Some n
      | None => match op with Offset n => Some n | _ => None end
      end
  end.

Fixpoint effectiveLimit (ops : list qop) : option jsnum :=
  match ops with
  | [] => None
  | op :: rest =>
      match effectiveLimit rest with
      | Some n => Some n
      | None => match op with Limit n => Some n | _ => None end
      end
  end.

Definition isPaging (op : qop) : bool :=
  match op with
  | Limit _ | Offset _ => true
  | _ => false
  end.

Definition isJoin (op : qop) : bool :=
  match op with
  | LeftJoin _ _ _ _ | LeftJoinOn _ _ _ _ _ _ => true
  | _ => false
  end.

(** The state an outcome ends in. *)
Definition final {A : Type} (o : outcome A) : state :=
  match o with
  | Ok _ s => s
  | Throw _ s => s
  end.

(** The state of a compile invocation that has done nothing yet. *)
Definition start : state := {| query := []; aliasMap := []; drawn := 0 |}.

(** ** A sample schema and host

    A blog: [articles] with an author (many-to-one to [authors], seen from
    [authors] as the one-to-many [articles]) and [blocks] whose [item] is
    polymorphic, with the discriminator column [collection]. *)

Module Sample.

Definition articles_author : Relation :=
  {| relation_collection := "articles"; relation_field := "author";
     related_collection := Some "authors"; meta := None |}.

Definition blocks_item : Relation :=
  {| relation_collection := "blocks"; relation_field := "item";
     related_collection := None;
     meta := Some {| one_collection_field := Some "collection" |} |}.

Definition relations : list Relation := [articles_author; blocks_item].

Definition field (t : string) : FieldInfo := {| type := t; special := [] |}.

Definition fieldsOf (collection : string) : list (string * FieldInfo) :=
  if (collection =? "articles")%string then
    [("id", field "integer"); ("title", field "string"); ("views", field "integer");
     ("author", field "integer");
     ("token", {| type := "string"; special := ["conceal"] |})]
  else if (collection =? "authors")%string then
    [("id", field "uuid"); ("name", field "string"); ("bio", field "text");
     ("avatar", field "json")]
  else if (collection =? "blocks")%string then
    [("id", field "integer"); ("item", field "string"); ("collection", field "string")]
  else [].

Definition schema : SchemaOverview :=
  {| getCollection := fun name =>
       match fieldsOf name with
       | [] => None
       | _ :: _ => Some {| primary := "id" |}
       end;
     getField := fun collection name =>
       option_map snd (find (fun nf => (fst nf =? name)%string) (fieldsOf collection));
     getFields := fieldsOf;
     getRelations := relations |}.

Definition relationInfo (rs : list Relation) (collection field' : string)
    : option Relation * option RelationType :=
  if ((collection =? "articles") && (field' =? "author"))%string
  then (Some articles_author, Some m2o)
  else if ((collection =? "authors") && (field' =? "articles"))%string
  then (Some articles_author, Some o2m)
  else if ((collection =? "blocks") && (field' =? "item"))%string
  then (Some blocks_item, Some a2o)
  else (None, None).

(** Aliases are five lower-case letters; the n-th is n written in base 26. *)
Definition letter (n : nat) : ascii := ascii_of_nat (97 + n mod 26).

Definition alias (n : nat) : string :=
  String (letter (n / 26 / 26 / 26 / 26))
    (String (letter (n / 26 / 26 / 26))
       (String (letter (n / 26 / 26))
          (String (letter (n / 26)) (String (letter n) EmptyString)))).

(** The column a path ends in: the alias recorded for the first hop, or
    the related collection, then the field. *)
Definition columnPath (path : list string) (collection : string) (am : AliasMap)
    (rs : list Relation) : string * string :=
  match path with
  | [first; field'] =>
      match relationInfo rs collection (hd EmptyString (Str.split ":" first)) with
      | (Some r, Some m2o) =>
          let parent := match related_collection r with Some c => c | None => EmptyString end in
          match Lodash.lookup first am with
          | Some (AObj inner) =>
              match Lodash.lookup field' inner with
              | Some (AStr a) => (dotted a field', parent)
              | _ => (dotted parent field', parent)
              end
          | _ => (dotted parent field', parent)
          end
      | _ => (EmptyString, EmptyString)
      end
  | _ => (EmptyString, EmptyString)
  end.

Definition operatorsFor (t : string) : list string :=
  if Str.is_in t ["string"; "text"] then
    ["contains"; "ncontains"; "icontains"; "starts_with"; "nstarts_with"; "ends_with";
     "nends_with"; "eq"; "neq"; "empty"; "nempty"; "null"; "nnull"; "in"; "nin";
     "between"; "nbetween"]
  else if Str.is_in t ["bigInteger"; "integer"; "float"; "decimal"] then
    ["eq"; "neq"; "lt"; "lte"; "gt"; "gte"; "between"; "nbetween"; "null"; "nnull";
     "in"; "nin"]
  else if (t =? "hash")%string then ["null"; "nnull"; "empty"; "nempty"]
  else if (t =? "uuid")%string then ["eq"; "neq"; "null"; "nnull"; "in"; "nin"]
  else ["null"; "nnull"].

Definition digit (a : ascii) : option Z :=
  let n := nat_of_ascii a in
  if ((48 <=? n) && (n <=? 57))%nat then Some (Z.of_nat (n - 48)) else None.

Fixpoint digits (acc : Z) (s : string) : jsnum :=
  match s with
  | EmptyString => Num acc
  | String a r =>
      match digit a with
      | Some d => digits (10 * acc + d) r
      | None => NaN
      end
  end.

(** [Number] on the values the examples use: numbers, and strings of
    decimal digits. *)
Definition number (v : value) : jsnum :=
  match v with
  | VNum n => n
  | VStr EmptyString => Num 0
  | VStr s => digits 0 s
  | _ => NaN
  end.

(** The double nearest to an integer, ties to the even significand; the
    examples stay below the largest double. *)
Definition double (z : Z) : Z :=
  let a := Z.abs z in
  if (a <? 2 ^ 53)%Z then z
  else
    let e := (Z.log2 a - 52)%Z in
    let q := (a / 2 ^ e)%Z in
    let r := (a mod 2 ^ e)%Z in
    let half := (2 ^ (e - 1))%Z in
    let q := if (half <? r)%Z || ((r =? half)%Z && Z.odd q) then (q + 1)%Z else q in
    (Z.sgn z * (q * 2 ^ e))%Z.

Definition subtract (a b : jsnum) : jsnum :=
  match a, b with
  | Num x, Num y => Num (double (x - y))
  | _, _ => NaN
  end.

Definition multiply (a b : jsnum) : jsnum :=
  match a, b with
  | Num x, Num y => Num (double (x * y))
  | _, _ => NaN
  end.

Definition lowerChar (a : ascii) : ascii :=
  let n := nat_of_ascii a in
  if ((65 <=? n) && (n <=? 90))%nat then ascii_of_nat (n + 32) else a.

Fixpoint lower (s : string) : string :=
  match s with
  | EmptyString => EmptyString
  | String a r => String (lowerChar a) (lower r)
  end.

Definition isHex (a : ascii) : bool :=
  let n := nat_of_ascii a in
  (((48 <=? n) && (n <=? 57)) || ((97 <=? n) && (n <=? 102)) || ((65 <=? n) && (n <=? 70)))%nat.

Fixpoint hexRun (s : string) : bool :=
  match s with
  | EmptyString => true
  | String a r => isHex a && hexRun r
  end.

(** Five groups of hexadecimal digits of lengths 8, 4, 4, 4 and 12. *)
Definition uuid (s : string) : bool :=
  let groups := Str.split "-" s in
  forallb hexRun groups
  && match map String.length groups with
     | [8; 4; 4; 4; 12] => true
     | _ => false
     end%nat.

Definition host : Host :=
  {| generateAlias := alias;
     getRelationInfo := relationInfo;
     getColumnPath := columnPath;
     getColumn := fun table column =>
       KnexRaw "??" [dotted table (match column with Some c => c | None => EmptyString end)];
     stripFunction := fun s => s;
     getFilterOperatorsForType := operatorsFor;
     getOutputTypeForFunction := fun _ => "integer";
     date_parse := fun v => v;
     st_intersects := fun key _ => KnexRaw "ST_Intersects(??, ?)" [key];
     st_nintersects := fun key _ => KnexRaw "NOT ST_Intersects(??, ?)" [key];
     st_intersects_bbox := fun key _ => KnexRaw "ST_Intersects(??, ?)" [key];
     st_nintersects_bbox := fun key _ => KnexRaw "NOT ST_Intersects(??, ?)" [key];
     toNumber := number;
     minus := subtract;
     times := multiply;
     toLowerCase := lower;
     toString := fun v =>
       match v with
       | VStr s => s
       | VNum (Num z) => NilZero.string_of_int (Z.to_int z)
       | _ => EmptyString
       end;
     validate := uuid |}.

End Sample.

(** ** Notions the properties are stated with *)

(** The state after one hop of the resolver: the alias drawn, the entry
    written in the alias map, and the join emitted, if any. *)
Definition afterHop (host : Host) (s : state) (key : list string) (joins : list qop)
    : state :=
  {| query := query s ++ joins;
     aliasMap := Lodash.set (aliasMap s) key (generateAlias host (drawn s));
     drawn := S (drawn s) |}.

(** The key [followRelation] writes in the alias map. *)
Definition aliasKey (parentAlias : option string) (pathParts : list string) : list string :=
  match parentAlias with
  | Some pa => if Str.truthy pa then pa :: pathParts else pathParts
  | None => pathParts
  end.

(** The resolver as the specification words it: a second call with the
    same path adds no join and keeps the alias the first call recorded. *)
Definition resolverIdempotent (schema : SchemaOverview) (host : Host) : Prop :=
  forall relations subQuery path collection s s1 s2,
    addJoin schema host relations subQuery path collection s = Ok tt s1 ->
    addJoin schema host relations subQuery path collection s1 = Ok tt s2 ->
    query s2 = query s1 /\ aliasMap s2 = aliasMap s1.

(** The operator [validateFilterOperator] looks up: the requested one
    without its leading underscore. *)
Definition bareOperator (operator : string) : string :=
  if Str.startsWith "_" operator then Str.drop1 operator else operator.

(** The field whose type decides a leaf on a scalar, m2o or a2o path: on
    the root collection for a path of one segment, on the collection the
    column path ends in otherwise; none when the column path is empty. *)
Definition targetField (schema : SchemaOverview) (host : Host)
    (relations : list Relation) (collection : string) (am : AliasMap)
    (path : list string) : option FieldInfo :=
  if (1 <? length path)%nat then
    let (columnPath, targetCollection) := getColumnPath host path collection am relations in
    if Str.truthy columnPath
    then getField schema targetCollection (stripFunction host (last path EmptyString))
    else None
  else getField schema collection (stripFunction host (hd EmptyString path)).

(** [Object.keys(value)?.[0] === name] *)
Definition firstKeyIs (name : string) (k0 : option string) : bool :=
  match k0 with
  | Some k => (k =? name)%string
  | None => false
  end.

(** The calls that open the subquery of a to-many filter: select the
    foreign key of the relation from its collection where it is not null. *)
Definition subqueryOpening (relation : Relation) : list qop :=
  let column := dotted (relation_collection relation) (relation_field relation) in
  [Select (relation_field relation) column;
   From (relation_collection relation);
   WhereNotNull LAnd (Col column)].

(** The state after some more calls on the builder. *)
Definition emitted (s : state) (ops : list qop) : state :=
  {| query := query s ++ ops; aliasMap := aliasMap s; drawn := drawn s |}.

(** The nine operations [applyAggregate] knows. *)
Definition aggregateOperations : list string :=
  ["avg"; "avgDistinct"; "count"; "countAll"; "countDistinct"; "sum"; "sumDistinct";
   "min"; "max"].

(** The output column name as the specification words it. *)
Definition dottedArrowName (operation field : string) : string :=
  (operation ++ "->." ++ field)%string.

(** The output column name of an (operation, field) pair. *)
Definition outputName (operation field : string) : string :=
  if (operation =? "countAll")%string then "countAll"
  else if ((operation =? "count") && (field =? "*"))%string then "count"
  else arrow operation field.

(** The one projection of an (operation, field) pair: [count] on [*] and
    [countAll] count all rows, every other pair applies the operation to
    the field's column. *)
Definition projection (collection operation field : string) : qop :=
  if (operation =? "countAll")%string then Aggregate "count" "*" (outputName operation field)
  else if ((operation =? "count") && (field =? "*"))%string
  then Aggregate "count" "*" (outputName operation field)
  else Aggregate operation (dotted collection field) (outputName operation field).

Definition projections (collection : string) (spec : AggregateSpec) : list qop :=
  flat_map (fun entry : string * option (list string) =>
              match snd entry with
              | Some fields => map (projection collection (fst entry)) fields
              | None => []
              end) spec.

Definition textTypes : list string := ["text"; "string"].

Definition searchNumericTypes : list string := ["bigInteger"; "integer"; "decimal"; "float"].

Definition isOrPredicate (op : qop) : bool :=
  match op with
  | OrWhereRaw _ _ | OrWhere _ _ => true
  | _ => false
  end.

(** The offset [applyQuery] derives from [page] and [limit]:
    [limit * (page - 1)] in the arithmetic of the doubles. *)
Definition pageOffset (host : Host) (n p : jsnum) : jsnum :=
  times host n (minus host p (Num 1)).

(** The paging calls [applyQuery] makes for a query, in order: the limit,
    the explicit offset, the offset derived from the page. *)
Definition pagingCalls (host : Host) (q : Query) : list qop :=
  match limit q with
  | Some n => if negb (JsNum.eqb n (Num (-1))) then [Limit n] else []
  | None => []
  end
  ++ match offset q with
     | Some n => if JsNum.truthy n then [Offset n] else []
     | None => []
     end
  ++ match page q, limit q with
     | Some p, Some n =>
         if JsNum.truthy p && JsNum.truthy n && negb (JsNum.eqb n (Num (-1)))
         then [Offset (pageOffset host n p)]
         else []
     | _, _ => []
     end.

(** The nesting depth of a value; a string counts as one level, for the
    characters [Object.entries] finds in it. *)
Fixpoint depth (v : value) : nat :=
  match v with
  | VArr items => S (fold_right (fun x acc => Nat.max (depth x) acc) 0 items)
  | VObj es => S (fold_right (fun e acc => Nat.max (depth (snd e)) acc) 0 es)
  | VStr _ => 1
  | _ => 0
  end.

(** [safe m]: [m] never ends for want of fuel. *)
Definition safe {A : Type} (m : M A) : Prop :=
  forall s s', m s <> Throw OutOfFuel s'.

(** [determined m]: no run of [m] is one the embedding leaves open. *)
Definition determined {A : Type} (m : M A) : Prop :=
  forall s s', m s <> Throw Interleaved s'.

(** ** What a computation adds to the builder *)

(** [appends P m]: from every state, whether it returns or throws, [m]
    leaves the earlier calls on the builder in place and adds only calls
    that satisfy [P]. *)
Definition appends (P : qop -> Prop) {A : Type} (m : M A) : Prop :=
  forall s, exists ops, query (final (m s)) = query s ++ ops /\ Forall P ops.

(** ** Further notions *)

(** The filter value [{k1: {k2: ... inner}}] that nests [inner] under a
    chain of keys. *)
Fixpoint nest (keys : list string) (inner : value) : value :=
  match keys with
  | [] => inner
  | k :: rest => VObj [(k, nest rest inner)]
  end.

(** A value under which a key has a path of one segment: an object whose
    first key starts with an underscore, or a value that is neither an
    object nor [null] nor [undefined]. *)
Definition oneSegment (v : value) : bool :=
  match v with
  | VObj ((k, _) :: _) => Str.startsWith "_" k
  | VObj [] | VNull | VUndef => false
  | _ => true
  end.

(** The where-methods of the builder. *)
Definition isWhereCall (op : qop) : bool :=
  match op with
  | WhereNull _ _ | WhereNotNull _ _ | AndWhere _ _ | Where _ _ _ _
  | WhereNot _ _ _ _ | WhereRaw _ _ _ | WhereRawExp _ _ | WhereIn _ _ _
  | WhereNotIn _ _ _ | WhereInSub _ _ _ | WhereNotInSub _ _ _
  | WhereBetween _ _ _ | WhereNotBetween _ _ _ => true
  | _ => false
  end.

(** The combinator a where-call was made under. *)
Definition logicalOf (op : qop) : option logical :=
  match op with
  | WhereNull l _ | WhereNotNull l _ | AndWhere l _ | Where l _ _ _
  | WhereNot l _ _ _ | WhereRaw l _ _ | WhereRawExp l _ | WhereIn l _ _
  | WhereNotIn l _ _ | WhereInSub l _ _ | WhereNotInSub l _ _
  | WhereBetween l _ _ | WhereNotBetween l _ _ => Some l
  | _ => None
  end.

(** The operators [applyFilterToQuery] emits without looking at the value. *)
Definition valueFreeOperators : list string :=
  ["_null"; "_nnull"; "_empty"; "_nempty"].

(** The operators [applyFilterToQuery] knows. *)
Definition knownOperators : list string :=
  valueFreeOperators ++
  ["_eq"; "_neq"; "_ieq"; "_nieq"; "_contains"; "_ncontains"; "_icontains";
   "_nicontains"; "_starts_with"; "_nstarts_with"; "_istarts_with"; "_nistarts_with";
   "_ends_with"; "_nends_with"; "_iends_with"; "_niends_with"; "_gt"; "_gte"; "_lt";
   "_lte"; "_in"; "_nin"; "_between"; "_nbetween"; "_intersects"; "_nintersects";
   "_intersects_bbox"; "_nintersects_bbox"].

(** The order a sort field asks for. *)
Definition direction (sortField : string) : order :=
  if Str.startsWith "-" sortField then desc else asc.

(** A sort field without its leading minus. *)
Definition unsigned (sortField : string) : string :=
  if Str.startsWith "-" sortField then Str.drop1 sortField else sortField.

(** The alias recorded at a path of the alias map. *)
Fixpoint readAlias (am : AliasMap) (path : list string) : option string :=
  match path with
  | [] => None
  | k :: rest =>
      match rest with
      | [] => match Lodash.lookup k am with
              | Some (AStr a) => Some a
              | _ => None
              end
      | _ :: _ => match Lodash.lookup k am with
                  | Some (AObj inner) => readAlias inner rest
                  | _ => None
                  end
      end
  end.

(** The entries of an aggregate specification whose operation is one of
    the nine. *)
Definition knownAggregates (spec : AggregateSpec) : AggregateSpec :=
  List.filter (fun entry => Str.is_in (fst entry) aggregateOperations) spec.

(** The offset [applyQuery] derives from [page], when it derives one. *)
Definition derivedOffset (host : Host) (q : Query) : option jsnum :=
  match page q, limit q with
  | Some p, Some n =>
      if JsNum.truthy p && JsNum.truthy n && negb (JsNum.eqb n (Num (-1)))
      then Some (pageOffset host n p)
      else None
  | _, _ => None
  end.

(** The explicit offset of a query, when [applyQuery] applies it. *)
Definition explicitOffset (q : Query) : option jsnum :=
  match offset q with
  | Some n => if JsNum.truthy n then Some n else None
  | None => None
  end.

(** The limit of a query, when [applyQuery] applies it. *)
Definition explicitLimit (q : Query) : option jsnum :=
  match limit q with
  | Some n => if JsNum.eqb n (Num (-1)) then None else Some n
  | None => None
  end.

(** A filter object without [_and] and [_or] among its keys. *)
Definition flatFilter (v : value) : bool :=
  match v with
  | VObj es => forallb (fun e : string * value => negb (isLogicalKey (fst e))) es
  | _ => false
  end.

(** The alias a join call introduces. *)
Definition joinAlias (op : qop) : option string :=
  match op with
  | LeftJoin a _ _ _ | LeftJoinOn a _ _ _ _ _ => Some a
  | _ => None
  end.

(** [drawsFrom host lo hi m]: started with at least [hi] aliases handed
    out, [m] only adds joins, each under an alias handed out at [lo] or
    later and before [m] ends, and takes no alias back. *)
Definition drawsFrom (host : Host) (lo hi : nat) {A : Type} (m : M A) : Prop :=
  forall s,
    hi <= drawn s ->
    exists ops,
      query (final (m s)) = query s ++ ops
      /\ drawn s <= drawn (final (m s))
      /\ Forall (fun op => exists n,
                   lo <= n < drawn (final (m s))
                   /\ joinAlias op = Some (generateAlias host n)) ops.

(** ** The sample schema seen from the other side

    As [Sample], with the blocks of an article: seen from [articles], the
    polymorphic [item] of [blocks] is the one-to-any field [blocks]. *)

Module Site.

Definition relationInfo (rs : list Relation) (collection field' : string)
    : option Relation * option RelationType :=
  if ((collection =? "articles") && (field' =? "blocks"))%string
  then (Some Sample.blocks_item, Some o2a)
  else Sample.relationInfo rs collection field'.

Definition host : Host :=
  {| generateAlias := generateAlias Sample.host;
     getRelationInfo := relationInfo;
     getColumnPath := getColumnPath Sample.host;
     getColumn := getColumn Sample.host;
     stripFunction := stripFunction Sample.host;
     getFilterOperatorsForType := getFilterOperatorsForType Sample.host;
     getOutputTypeForFunction := getOutputTypeForFunction Sample.host;
     date_parse := date_parse Sample.host;
     st_intersects := st_intersects Sample.host;
     st_nintersects := st_nintersects Sample.host;
     st_intersects_bbox := st_intersects_bbox Sample.host;
     st_nintersects_bbox := st_nintersects_bbox Sample.host;
     toNumber := toNumber Sample.host;
     minus := minus Sample.host;
     times := times Sample.host;
     toLowerCase := toLowerCase Sample.host;
     toString := toString Sample.host;
     validate := validate Sample.host |}.

End Site.

(** ** The subscription registry of the websocket handler

    [SubscribeHandler] keeps [subscriptions], an object from collection
    names to [Set]s of subscription objects.  An object is modelled with
    its identity: [ref] is drawn from a counter when the object literal is
    evaluated, so two objects are the same object exactly when the records
    are equal; no code of the handler changes a subscription once it is
    in a set.  A [Set] is the list of its members in insertion order.
    The object [subscriptions] is the list of its own keys and their sets
    in the order [Object.keys] gives them: array indices first, ascending,
    then the other keys in the order they were created.  What [dispatch],
    [client.send] and [handleWebsocketException] do lies outside the
    handler's own state; the calls are recorded in order.  [uid] and
    [collection] are strings, as the signatures declare them. *)

Module Subscribe.

Record Subscription : Type := {
  ref : nat;
  client : nat;
  collection : string;
  query : option string;
  item : option string;
  uid : option string;
  status : bool
}.

(** [a === b] on subscription objects. *)
Definition Subscription_eq_dec (a b : Subscription) : {a = b} + {a <> b}.
Proof.
  decide equality; try apply Bool.bool_dec; try apply Nat.eq_dec;
    try apply string_dec; decide equality; apply string_dec.
Defined.

Definition same (a b : Subscription) : bool :=
  if Subscription_eq_dec a b then true else false.

(** [set.add(x)] *)
Definition add (set : list Subscription) (x : Subscription) : list Subscription :=
  if existsb (same x) set then set else set ++ [x].

(** [set.delete(x)] *)
Definition delete (set : list Subscription) (x : Subscription) : list Subscription :=
  List.filter (fun y => negb (same x y)) set.

(** The properties every object literal inherits. *)
Definition prototypeKeys : list string :=
  ["constructor"; "__defineGetter__"; "__defineSetter__"; "hasOwnProperty";
   "__lookupGetter__"; "__lookupSetter__"; "isPrototypeOf"; "propertyIsEnumerable";
   "toString"; "valueOf"; "__proto__"; "toLocaleString"].

Fixpoint digitsN (acc : N) (s : string) : option N :=
  match s with
  | EmptyString => Some acc
  | String a r =>
      let n := nat_of_ascii a in
      if ((48 <=? n) && (n <=? 57))%nat
      then digitsN (10 * acc + N.of_nat (n - 48))%N r
      else None
  end.

(** The array index a key is the canonical numeral of, if any. *)
Definition arrayIndex (k : string) : option N :=
  match k with
  | EmptyString => None
  | String "0" EmptyString => Some 0%N
  | String "0" _ => None
  | _ =>
      match digitsN 0 k with
      | Some n => if (n <? 4294967295)%N then Some n else None
      | None => None
      end
  end.

Definition Registry : Type := list (string * list Subscription).

(** What [subscriptions[key]] evaluates to. *)
Inductive slot : Type :=
| Own (set : list Subscription)
| Inherited
| Absent.

Fixpoint own (key : string) (es : Registry) : option (list Subscription) :=
  match es with
  | [] => None
  | (k, set) :: rest => if (k =? key)%string then Some set else own key rest
  end.

Definition get (es : Registry) (key : string) : slot :=
  match own key es with
  | Some set => Own set
  | None => if Str.is_in key prototypeKeys then Inherited else Absent
  end.

(** [subscriptions[key] = set] for a key the object does not own. *)
Fixpoint define (key : string) (set : list Subscription) (es : Registry) : Registry :=
  match es with
  | [] => [(key, set)]
  | (k, set') :: rest =>
      match arrayIndex key, arrayIndex k with
      | Some n, Some n' =>
          if (n <? n')%N then (key, set) :: es else (k, set') :: define key set rest
      | Some _, None => (key, set) :: es
      | None, _ => (k, set') :: define key set rest
      end
  end.

(** The set under an own key after a call that changed it in place. *)
Fixpoint replace (key : string) (set : list Subscription) (es : Registry) : Registry :=
  match es with
  | [] => []
  | (k, set') :: rest =>
      if (k =? key)%string then (k, set) :: rest else (k, set') :: replace key set rest
  end.

Inductive event : Type :=
| Dispatch (collection action : string)
| Send (client : nat) (uid : option string)
| Failure (client : nat).

Record Handler : Type := {
  subscriptions : Registry;
  events : list event;
  allocated : nat
}.

Definition withSubscriptions (h : Handler) (es : Registry) : Handler :=
  {| subscriptions := es; events := events h; allocated := allocated h |}.

Definition record (e : event) (h : Handler) : Handler :=
  {| subscriptions := subscriptions h; events := events h ++ [e];
     allocated := allocated h |}.

(** [this.dispatch(collection, { action })]: the call is asynchronous and
    is not awaited. *)
Definition dispatch (collection action : string) (h : Handler) : Handler :=
  record (Dispatch collection action) h.

(** [subscribe(subscription)] *)
Definition subscribe (subscription : Subscription) (h : Handler) : result Handler :=
  let collection := collection subscription in
  match get (subscriptions h) collection with
  | Absent =>
      ROk (withSubscriptions h
             (define collection (add [] subscription) (subscriptions h)))
  | Own set =>
      ROk (withSubscriptions h
             (replace collection (add set subscription) (subscriptions h)))
  | Inherited => RTypeError
  end.

Definition hasUid (u : string) (subscription : Subscription) : bool :=
  match uid subscription with
  | Some u' => (u' =? u)%string
  | None => false
  end.

(** [getSubscription(uid)] *)
Fixpoint getSubscription (u : string) (es : Registry) : option Subscription :=
  match es with
  | [] => None
  | (_, userSubscriptions) :: rest =>
      match find (hasUid u) userSubscriptions with
      | Some subscription => Some subscription
      | None => getSubscription u rest
      end
  end.

(** [this.subscriptions[key]?.delete(subscription)] *)
Definition deleteAt (key : string) (subscription : Subscription) (h : Handler)
    : result Handler :=
  match get (subscriptions h) key with
  | Own set => ROk (withSubscriptions h (replace key (delete set subscription)
                                           (subscriptions h)))
  | Absent => ROk h
  | Inherited => RTypeError
  end.

(** The inner loop of [unsubscribe], over the copy of one set, from its
    last member to its first.  The loop runs when [uid] is [undefined],
    so [!uid] holds and the test is the one on the client. *)
Fixpoint release (client' : nat) (key : string) (reversed : list Subscription)
    (h : Handler) : result Handler :=
  match reversed with
  | [] => ROk h
  | subscription :: rest =>
      if (client subscription =? client')%nat then
        match deleteAt key subscription h with
        | ROk h' => release client' key rest (dispatch (collection subscription) "focus" h')
        | RTypeError => RTypeError
        end
      else release client' key rest h
  end.

(** The outer loop of [unsubscribe], over the keys the object had when
    the loop began. *)
Fixpoint releaseAll (client' : nat) (keys : list string) (h : Handler)
    : result Handler :=
  match keys with
  | [] => ROk h
  | key :: rest =>
      let subscriptions :=
        match get (subscriptions h) key with
        | Own set => set
        | _ => []
        end in
      match release client' key (rev subscriptions) h with
      | ROk h' => releaseAll client' rest h'
      | RTypeError => RTypeError
      end
  end.

(** [unsubscribe(client, uid)] *)
Definition unsubscribe (client' : nat) (uid' : option string) (h : Handler)
    : result Handler :=
  match uid' with
  | Some u =>
      match getSubscription u (subscriptions h) with
      | Some subscription =>
          if (client subscription =? client')%nat then
            match deleteAt (collection subscription) subscription h with
            | ROk h' => ROk (dispatch (collection subscription) "focus" h')
            | RTypeError => RTypeError
            end
          else ROk h
      | None => ROk h
      end
  | None => releaseAll client' (map fst (subscriptions h)) h
  end.

Record Message : Type := {
  mtype : string;
  mcollection : string;
  mquery : option string;
  mitem : option string;
  muid : option string
}.

(** What [onMessage] awaits from outside the handler, per client:
    whether [getSchema] resolves, [accountability?.admin],
    [schema.hasCollection], [sanitizeQuery] ([None] when it throws), and
    whether the first payload of a subscription can be read. *)
Record World : Type := {
  getSchema : nat -> bool;
  admin : nat -> bool;
  hasCollection : nat -> string -> bool;
  sanitizeQuery : string -> nat -> option string;
  getSinglePayload : Subscription -> bool;
  getMultiPayload : Subscription -> bool
}.

Definition isSome {A : Type} (o : option A) : bool :=
  match o with Some _ => true | None => false end.

(** How a [try] block ends: at its end, or in its [catch]. *)
Inductive attempt : Type :=
| Completed (h : Handler)
| Caught (h : Handler).

(** [const subscription = { client, collection }]: the object takes the
    next identity. *)
Definition allocate (h : Handler) : Handler :=
  {| subscriptions := subscriptions h; events := events h;
     allocated := S (allocated h) |}.

(** The subscription object [onMessage] builds for a message. *)
Definition subscriptionOf (client' : nat) (message : Message) (query' : option string)
    (h : Handler) : Subscription :=
  {| ref := allocated h; client := client'; collection := mcollection message;
     query := query'; item := mitem message; uid := muid message; status := false |}.

(** The [try] block of [onMessage] for a [SUBSCRIBE] message. *)
Definition trySubscribe (w : World) (client' : nat) (message : Message) (h : Handler)
    : attempt :=
  let collection' := mcollection message in
  if negb (getSchema w client') then Caught h
  else if negb (admin w client') && negb (hasCollection w client' collection')
  then Caught h
  else
    match match mquery message with
          | Some q =>
              match sanitizeQuery w q client' with
              | Some q' => Some (Some q')
              | None => None
              end
          | None => Some None
          end with
    | None => Caught (allocate h)
    | Some query' =>
        let subscription := subscriptionOf client' message query' h in
        let h := allocate h in
        match unsubscribe client' (uid subscription) h with
        | RTypeError => Caught h
        | ROk h =>
            if negb (if isSome (item subscription)
                     then getSinglePayload w subscription
                     else getMultiPayload w subscription)
            then Caught h
            else
              match subscribe subscription h with
              | RTypeError => Caught h
              | ROk h =>
                  let h := dispatch (collection subscription) "focus" h in
                  if negb (status subscription) || negb (isSome (item subscription))
                     || negb (collection subscription =? "directus_users")%string
                  then Completed (record (Send client' (uid subscription)) h)
                  else Completed h
              end
        end
    end.

(** [onMessage(client, message)]; [RTypeError] when the promise is
    rejected. *)
Definition onMessage (w : World) (client' : nat) (message : Message) (h : Handler)
    : result Handler :=
  let h :=
    if (mtype message =? "SUBSCRIBE")%string then
      match trySubscribe w client' message h with
      | Completed h' => h'
      | Caught h' => record (Failure client') h'
      end
    else h in
  if (mtype message =? "UNSUBSCRIBE")%string
  then unsubscribe client' (muid message) h
  else ROk h.

(** The registry after [unsubscribe(client)]: every set without the
    client's subscriptions. *)
Definition without (client' : nat) (es : Registry) : Registry :=
  map (fun entry : string * list Subscription =>
         (fst entry,
          List.filter (fun subscription => negb (client subscription =? client')%nat)
            (snd entry))) es.

(** The focus calls of [unsubscribe(client)]: key by key, and within a
    key from the last subscription of the client to the first. *)
Definition focusCalls (client' : nat) (es : Registry) : list event :=
  flat_map (fun entry : string * list Subscription =>
              map (fun subscription => Dispatch (collection subscription) "focus")
                (rev (List.filter (fun subscription =>
                                     (client subscription =? client')%nat) (snd entry))))
    es.

(** The subscriptions of a registry, set by set. *)
Definition members (es : Registry) : list Subscription := flat_map snd es.

(** A sample: client 1 watches [articles] and the collection [9], client
    2 the collection [10]; the keys [9] and [10] are array indices and
    come first.  In the sample world every check passes. *)

Definition plain (ref' client' : nat) (collection' : string) (uid' : option string)
    : Subscription :=
  {| ref := ref'; client := client'; collection := collection'; query := None;
     item := None; uid := uid'; status := false |}.

Definition idle : Handler := {| subscriptions := []; events := []; allocated := 0 |}.

Definition desk : Handler :=
  {| subscriptions :=
       [("9", [plain 2 1 "9" (Some "b")]);
        ("10", [plain 1 2 "10" (Some "a")]);
        ("articles", [plain 0 1 "articles" (Some "a")])];
     events := [];
     allocated := 3 |}.

Definition open : World :=
  {| getSchema := fun _ => true;
     admin := fun _ => false;
     hasCollection := fun _ _ => true;
     sanitizeQuery := fun q _ => Some q;
     getSinglePayload := fun _ => true;
     getMultiPayload := fun _ => true |}.

End Subscribe.

(** * Properties *)

(** ** Laws of the control structure *)

Lemma bind_ok {A B : Type} (m : M A) (f : A -> M B) (s s' : state) (a : A) :
  m s = Ok a s' -> bind m f s = f a s'.
Proof. intros H; unfold bind; rewrite H; reflexivity. Qed.

Lemma bind_throw {A B : Type} (m : M A) (f : A -> M B) (s s' : state) (e : exn) :
  m s = Throw e s' -> bind m f s = Throw e s'.
Proof. intros H; unfold bind; rewrite H; reflexivity. Qed.

Lemma bind_assoc {A B C : Type} (m : M A) (f : A -> M B) (g : B -> M C) (s : state) :
  bind (bind m f) g s = bind m (fun a => bind (f a) g) s.
Proof. unfold bind; destruct (m s); reflexivity. Qed.

Lemma forEach_app {A : Type} (body : A -> M unit) (xs ys : list A) (s : state) :
  forEach body (xs ++ ys) s = bind (forEach body xs) (fun _ => forEach body ys) s.
Proof.
  revert s; induction xs as [|x xs IH]; intros s; simpl.
  - reflexivity.
  - unfold bind. destruct (body x s) as [[] s'|e s']; [|reflexivity].
    rewrite IH. reflexivity.
Qed.

Lemma forEach_skip {A : Type} (body : A -> M unit) (xs ys : list A) (x : A) :
  (forall s, body x s = Ok tt s) ->
  forall s, forEach body (xs ++ x :: ys) s = forEach body (xs ++ ys) s.
Proof.
  intros Hx s. rewrite !forEach_app. unfold bind.
  destruct (forEach body xs s) as [[] s'|e s']; [|reflexivity].
  simpl. unfold bind. rewrite Hx. reflexivity.
Qed.

(** ** Rules for [appends] *)

Section Appends.

Variable P : qop -> Prop.

Lemma appends_ret {A : Type} (a : A) : appends P (ret a).
Proof. intros s; exists []; simpl; rewrite app_nil_r; auto. Qed.

Lemma appends_throw {A : Type} (e : exn) : appends P (@throw A e).
Proof. intros s; exists []; simpl; rewrite app_nil_r; auto. Qed.

Lemma appends_bind {A B : Type} (m : M A) (f : A -> M B) :
  appends P m -> (forall a, appends P (f a)) -> appends P (bind m f).
Proof.
  intros Hm Hf s. destruct (Hm s) as [ops1 [E1 F1]]. unfold bind.
  destruct (m s) as [a s1|e s1]; simpl in *.
  - destruct (Hf a s1) as [ops2 [E2 F2]]. exists (ops1 ++ ops2).
    rewrite E2, E1, app_assoc. split; [reflexivity|]. apply Forall_app; auto.
  - exists ops1; auto.
Qed.

Lemma appends_emit (op : qop) : P op -> appends P (emit op).
Proof. intros H s; exists [op]; simpl; auto. Qed.

Lemma appends_lift {A : Type} (r : result A) : appends P (lift r).
Proof. destruct r; [apply appends_ret | apply appends_throw]. Qed.

Lemma appends_deref {A : Type} (o : option A) : appends P (deref o).
Proof. destruct o; [apply appends_ret | apply appends_throw]. Qed.

Lemma appends_when (b : bool) (m : M unit) : appends P m -> appends P (when b m).
Proof. intros H; destruct b; [exact H | apply appends_ret]. Qed.

Lemma appends_getAliasMap : appends P getAliasMap.
Proof. intros s; exists []; simpl; rewrite app_nil_r; auto. Qed.

Lemma appends_putAliasMap (m : AliasMap) : appends P (putAliasMap m).
Proof. intros s; exists []; simpl; rewrite app_nil_r; auto. Qed.

Lemma appends_newAlias (host : Host) : appends P (newAlias host).
Proof. intros s; exists []; simpl; rewrite app_nil_r; auto. Qed.

Lemma appends_forEach {A : Type} (body : A -> M unit) (xs : list A) :
  (forall x, appends P (body x)) -> appends P (forEach body xs).
Proof.
  intros H; induction xs as [|x xs IH]; simpl.
  - apply appends_ret.
  - apply appends_bind; auto.
Qed.

Lemma appends_mapM {A B : Type} (f : A -> M B) (xs : list A) :
  (forall x, appends P (f x)) -> appends P (mapM f xs).
Proof.
  intros H; induction xs as [|x xs IH]; simpl.
  - apply appends_ret.
  - apply appends_bind; [apply H|]. intros y.
    apply appends_bind; [exact IH|]. intros ys. apply appends_ret.
Qed.

End Appends.

Lemma appends_weaken (P Q : qop -> Prop) {A : Type} (m : M A) :
  (forall op, P op -> Q op) -> appends P m -> appends Q m.
Proof.
  intros H Hm s. destruct (Hm s) as [ops [E F]]. exists ops. split; [exact E|].
  eapply Forall_impl; eauto.
Qed.

(** ** The sub-compilers add no paging calls *)

Section AppendsCompiler.

Variable schema : SchemaOverview.
Variable host : Host.
Variable P : qop -> Prop.
Hypothesis P_other : forall op, isPaging op = false -> P op.

Ltac appends_step :=
  match goal with
  | |- appends _ (bind _ _) => apply appends_bind; [|intros]
  | |- appends _ (ret _) => apply appends_ret
  | |- appends _ (throw _) => apply appends_throw
  | |- appends _ (emit _) => apply appends_emit; apply P_other; reflexivity
  | |- appends _ (when _ _) => apply appends_when
  | |- appends _ (lift _) => apply appends_lift
  | |- appends _ (deref _) => apply appends_deref
  | |- appends _ getAliasMap => apply appends_getAliasMap
  | |- appends _ (putAliasMap _) => apply appends_putAliasMap
  | |- appends _ (newAlias _) => apply appends_newAlias
  | |- appends _ (forEach _ _) => apply appends_forEach; intros
  | |- appends _ (mapM _ _) => apply appends_mapM; intros
  | |- appends _ (if ?b then _ else _) => destruct b
  | |- appends _ (match ?x with _ => _ end) => destruct x
  | |- appends _ _ => progress cbv beta zeta
  end.

Ltac appends_auto := repeat (appends_step; try assumption).

Lemma appends_pathScope (segment : string) : appends P (pathScope segment).
Proof. unfold pathScope. appends_auto. Qed.

Lemma appends_followRelation relations subQuery pathParts :
  forall parentCollection parentAlias,
    appends P (followRelation schema host relations subQuery pathParts
                 parentCollection parentAlias).
Proof.
  induction pathParts as [|segment rest IH]; intros parentCollection parentAlias;
    simpl.
  - apply appends_throw.
  - appends_auto; try apply appends_pathScope; apply IH.
Qed.

Lemma appends_addJoin relations subQuery path collection :
  appends P (addJoin schema host relations subQuery path collection).
Proof. apply appends_followRelation. Qed.

Lemma appends_applySort rootSort collection subQuery :
  appends P (applySort schema host rootSort collection subQuery).
Proof.
  unfold applySort. appends_auto; apply appends_addJoin.
Qed.

Lemma appends_validateFilterOperator t o sp :
  appends P (validateFilterOperator host t o sp).
Proof. unfold validateFilterOperator. appends_auto. Qed.

Lemma appends_lowerCased v : appends P (lowerCased host v).
Proof. unfold lowerCased. appends_auto. Qed.

Lemma appends_lengthIsNot2 v : appends P (lengthIsNot2 v).
Proof. unfold lengthIsNot2. appends_auto. Qed.

Lemma appends_applyFilterToQuery key operator compareValue logical' original :
  appends P (applyFilterToQuery schema host key operator compareValue logical' original).
Proof.
  unfold applyFilterToQuery.
  appends_auto; try apply appends_lowerCased; try apply appends_lengthIsNot2.
Qed.

Lemma appends_applySearch searchQuery collection :
  appends P (applySearch schema host searchQuery collection).
Proof. unfold applySearch. appends_auto. Qed.

Lemma appends_aggregateField collection operation field :
  appends P (aggregateField collection operation field).
Proof. unfold aggregateField. appends_auto. Qed.

Lemma appends_applyAggregate spec collection :
  appends P (applyAggregate spec collection).
Proof. unfold applyAggregate. appends_auto. apply appends_aggregateField. Qed.

Lemma appends_addJoins fuel relations subQuery :
  forall filter' collection,
    appends P (addJoins schema host fuel relations subQuery filter' collection).
Proof.
  induction fuel as [|fuel IH]; intros filter' collection; simpl.
  - apply appends_throw.
  - appends_auto; try apply appends_addJoin; apply IH.
Qed.

Lemma appends_compile fuel :
  (forall relations subQuery filter' collection logical',
      appends P (addWhereClauses schema host fuel relations subQuery filter'
                   collection logical'))
  /\ (forall rootFilter collection subQuery,
         appends P (applyFilter schema host fuel rootFilter collection subQuery))
  /\ (forall collection rootFilter subQuery,
         appends P (applyQuery schema host fuel collection (filterOnly rootFilter) subQuery)).
Proof.
  assert (Hw : forall relations subQuery filter' collection logical',
             appends P (addWhereClauses schema host fuel relations subQuery filter'
                          collection logical')).
  { induction fuel as [|fuel IHw]; intros; simpl; [apply appends_throw|].
    appends_auto; try apply appends_validateFilterOperator;
      try apply appends_applyFilterToQuery; apply IHw. }
  assert (Hf : forall rootFilter collection subQuery,
             appends P (applyFilter schema host fuel rootFilter collection subQuery)).
  { intros. unfold applyFilter. appends_auto; [apply appends_addJoins | apply Hw]. }
  repeat split; intros; [apply Hw | apply Hf |].
  unfold applyQuery. simpl. appends_auto. apply Hf.
Qed.

Lemma appends_applyFilter fuel rootFilter collection subQuery :
  appends P (applyFilter schema host fuel rootFilter collection subQuery).
Proof. apply appends_compile. Qed.

End AppendsCompiler.

(** ** The relation path resolver *)

Section Resolver.

Variable schema : SchemaOverview.
Variable host : Host.

Lemma followRelation_no_relation relations subQuery segment rest parentCollection
    parentAlias relationType s :
  getRelationInfo host relations parentCollection
    (hd EmptyString (Str.split ":" segment)) = (None, relationType) ->
  followRelation schema host relations subQuery (segment :: rest) parentCollection
    parentAlias s = Ok tt s.
Proof. intros H. simpl. rewrite H. reflexivity. Qed.

Lemma followRelation_m2o relations subQuery segment rest parentCollection parentAlias
    relation related info s :
  getRelationInfo host relations parentCollection
    (hd EmptyString (Str.split ":" segment)) = (Some relation, Some m2o) ->
  related_collection relation = Some related ->
  getCollection schema related = Some info ->
  followRelation schema host relations subQuery (segment :: rest) parentCollection
    parentAlias s
  = match rest with
    | [] => ret tt
    | _ :: _ =>
        followRelation schema host relations subQuery rest related
          (Some (generateAlias host (drawn s)))
    end
      (afterHop host s (aliasKey parentAlias (segment :: rest))
         [LeftJoin (generateAlias host (drawn s)) related
            (dotted (orElse parentAlias parentCollection) (relation_field relation))
            (dotted (generateAlias host (drawn s)) (primary info))]).
Proof.
  intros Hinfo Hrel Hcol. simpl. rewrite Hinfo. unfold collectionInfoOf.
  rewrite Hrel, Hcol. unfold afterHop, aliasKey.
  destruct s as [q am n]; simpl.
  unfold bind; simpl.
  destruct rest; reflexivity.
Qed.

Lemma pathScope_absent segment s :
  (forall scope, Str.nth 1 (Str.split ":" segment) = Some scope ->
                 Str.truthy scope = false) ->
  pathScope segment s = Throw (InvalidQueryException scopeMessage) s.
Proof.
  intros H. unfold pathScope.
  destruct (Str.nth 1 (Str.split ":" segment)) as [scope|]; [|reflexivity].
  rewrite (H scope eq_refl). reflexivity.
Qed.

Lemma pathScope_present segment s scope :
  Str.nth 1 (Str.split ":" segment) = Some scope ->
  Str.truthy scope = true ->
  pathScope segment s = Ok scope s.
Proof. intros H1 H2. unfold pathScope. rewrite H1, H2. reflexivity. Qed.

End Resolver.

(** ** C2: repeated resolution of one path *)

(** C2, counterexample.  On the sample schema the path [author.name] of
    [articles], resolved twice, is joined twice, under two aliases, and
    the alias map ends with the second alias: the resolver is not
    idempotent. *)
Lemma addJoin_not_idempotent : ~ resolverIdempotent Sample.schema Sample.host.
Proof.
  intros H.
  destruct (H Sample.relations false ["author"; "name"] "articles" start
              {| query := [LeftJoin "aaaaa" "authors" "articles.author" "aaaaa.id"];
                 aliasMap := [("author", AObj [("name", AStr "aaaaa")])];
                 drawn := 1 |}
              {| query := [LeftJoin "aaaaa" "authors" "articles.author" "aaaaa.id";
                           LeftJoin "aaaab" "authors" "articles.author" "aaaab.id"];
                 aliasMap := [("author", AObj [("name", AStr "aaaab")])];
                 drawn := 2 |} eq_refl eq_refl) as [Hq _].
  discriminate Hq.
Qed.

(** C2, amended.  The resolver never consults the alias map.  For a path
    of a many-to-one relation followed by a field, every call draws a new
    alias, emits the LEFT JOIN under it and overwrites the alias recorded
    for the path; a second call with the same path therefore adds a second
    join under a second alias. *)
Theorem addJoin_repeated_joins_again :
  forall schema host relations subQuery segment field collection relation related
         info relationType s,
    getRelationInfo host relations collection
      (hd EmptyString (Str.split ":" segment)) = (Some relation, Some m2o) ->
    related_collection relation = Some related ->
    getCollection schema related = Some info ->
    getRelationInfo host relations related
      (hd EmptyString (Str.split ":" field)) = (None, relationType) ->
    let path := [segment; field] in
    let join n :=
      LeftJoin (generateAlias host n) related
        (dotted collection (relation_field relation))
        (dotted (generateAlias host n) (primary info)) in
    let s1 :=
      {| query := query s ++ [join (drawn s)];
         aliasMap := Lodash.set (aliasMap s) path (generateAlias host (drawn s));
         drawn := S (drawn s) |} in
    addJoin schema host relations subQuery path collection s = Ok tt s1
    /\ addJoin schema host relations subQuery path collection s1
       = Ok tt {| query := query s ++ [join (drawn s); join (S (drawn s))];
                  aliasMap := Lodash.set (aliasMap s1) path
                                (generateAlias host (S (drawn s)));
                  drawn := S (S (drawn s)) |}.
Proof.
  intros schema host relations subQuery segment field collection relation related
    info relationType s Hinfo Hrel Hcol Hfield path join s1.
  unfold addJoin, path. split.
  - rewrite (followRelation_m2o schema host relations subQuery segment [field]
               collection None s Hinfo Hrel Hcol).
    rewrite (followRelation_no_relation schema host relations subQuery field []
               related _ _ Hfield).
    reflexivity.
  - rewrite (followRelation_m2o schema host relations subQuery segment [field]
               collection None s1 Hinfo Hrel Hcol).
    rewrite (followRelation_no_relation schema host relations subQuery field []
               related _ _ Hfield).
    unfold afterHop, s1; simpl. rewrite <- app_assoc. reflexivity.
Qed.

Lemma addJoin_repeated_joins_again_witness :
  addJoin Sample.schema Sample.host Sample.relations false ["author"; "name"] "articles"
    start
  = Ok tt {| query := [LeftJoin "aaaaa" "authors" "articles.author" "aaaaa.id"];
             aliasMap := [("author", AObj [("name", AStr "aaaaa")])];
             drawn := 1 |}
  /\ addJoin Sample.schema Sample.host Sample.relations false ["author"; "name"]
       "articles"
       {| query := [LeftJoin "aaaaa" "authors" "articles.author" "aaaaa.id"];
          aliasMap := [("author", AObj [("name", AStr "aaaaa")])];
          drawn := 1 |}
     = Ok tt {| query := [LeftJoin "aaaaa" "authors" "articles.author" "aaaaa.id";
                          LeftJoin "aaaab" "authors" "articles.author" "aaaab.id"];
                aliasMap := [("author", AObj [("name", AStr "aaaab")])];
                drawn := 2 |}.
Proof.
  exact (addJoin_repeated_joins_again Sample.schema Sample.host Sample.relations false
           "author" "name" "articles" (relation := Sample.articles_author)
           (related := "authors") (info := {| primary := "id" |})
           (relationType := None) start eq_refl eq_refl eq_refl eq_refl).
Defined.

(** ** C4: the polymorphic hop *)

(** C4.  At a segment that resolves to an any-to-one relation:
    without a scope after [:] (none, or an empty one) the hop throws the
    invalid-query error and the builder has no new call; with a scope
    that names a collection of the schema, the hop emits one LEFT JOIN of
    the scoped collection whose condition compounds the discriminator
    column set equal to the scope with the parent's field set equal to
    the CAST of the alias's primary key, and goes on with the rest of the
    path only inside a subquery. *)
Theorem a2o_hop_needs_scope :
  forall schema host relations subQuery segment rest parentCollection parentAlias
         relation s,
    getRelationInfo host relations parentCollection
      (hd EmptyString (Str.split ":" segment)) = (Some relation, Some a2o) ->
    ((forall scope, Str.nth 1 (Str.split ":" segment) = Some scope ->
                    Str.truthy scope = false) ->
     followRelation schema host relations subQuery (segment :: rest) parentCollection
       parentAlias s
     = Throw (InvalidQueryException scopeMessage)
         (afterHop host s (aliasKey parentAlias (segment :: rest)) []))
    /\ (forall scope m info,
          Str.nth 1 (Str.split ":" segment) = Some scope ->
          Str.truthy scope = true ->
          meta relation = Some m ->
          getCollection schema scope = Some info ->
          followRelation schema host relations subQuery (segment :: rest)
            parentCollection parentAlias s
          = (if subQuery then
               match rest with
               | [] => ret tt
               | _ :: _ =>
                   followRelation schema host relations subQuery rest scope
                     (Some (generateAlias host (drawn s)))
               end
             else ret tt)
              (afterHop host s (aliasKey parentAlias (segment :: rest))
                 [LeftJoinOn (generateAlias host (drawn s)) scope
                    (one_collection_field m) scope
                    (dotted (orElse parentAlias parentCollection)
                       (relation_field relation))
                    (KnexRaw castChar
                       [dotted (generateAlias host (drawn s)) (primary info)])])).
Proof.
  intros schema host relations subQuery segment rest parentCollection parentAlias
    relation s Hinfo.
  split.
  - intros Hscope. cbn -[pathScope Lodash.set]. rewrite Hinfo.
    unfold bind, afterHop, aliasKey; cbn -[pathScope Lodash.set].
    rewrite pathScope_absent by exact Hscope. rewrite app_nil_r. reflexivity.
  - intros scope m info Hnth Htruthy Hmeta Hcol.
    cbn -[pathScope Lodash.set]. rewrite Hinfo.
    unfold bind, afterHop, aliasKey; cbn -[pathScope Lodash.set].
    rewrite (pathScope_present segment _ Hnth Htruthy), Hmeta.
    cbn -[pathScope Lodash.set]. rewrite Hcol. cbn -[pathScope Lodash.set].
    destruct subQuery; cbn -[pathScope Lodash.set]; [|reflexivity].
    rewrite (pathScope_present segment _ Hnth Htruthy).
    destruct rest; reflexivity.
Qed.

Lemma a2o_hop_needs_scope_witness :
  followRelation Sample.schema Sample.host Sample.relations false ["item"; "title"]
    "blocks" None start
  = Throw (InvalidQueryException scopeMessage)
      {| query := [];
         aliasMap := [("item", AObj [("title", AStr "aaaaa")])];
         drawn := 1 |}
  /\ followRelation Sample.schema Sample.host Sample.relations false
       ["item:articles"; "title"] "blocks" None start
     = Ok tt
         {| query := [LeftJoinOn "aaaaa" "articles" (Some "collection") "articles"
                        "blocks.item" (KnexRaw "CAST(?? AS CHAR(255))" ["aaaaa.id"])];
            aliasMap := [("item:articles", AObj [("title", AStr "aaaaa")])];
            drawn := 1 |}.
Proof.
  split.
  - apply (proj1 (a2o_hop_needs_scope Sample.schema Sample.host Sample.relations false
                    "item" ["title"] "blocks" None (relation := Sample.blocks_item)
                    start eq_refl)).
    intros scope H; discriminate H.
  - exact (proj2 (a2o_hop_needs_scope Sample.schema Sample.host Sample.relations false
                    "item:articles" ["title"] "blocks" None
                    (relation := Sample.blocks_item) start eq_refl)
             "articles" {| one_collection_field := Some "collection" |}
             {| primary := "id" |} eq_refl eq_refl eq_refl eq_refl).
Defined.

(** ** C3: an [_or] node with an empty object *)

Lemma someEmptyIn_true (children : list value) :
  In (VObj []) children ->
  Forall (fun c => c <> VNull /\ c <> VUndef) children ->
  someEmptyIn children = ROk true.
Proof.
  induction children as [|c rest IH]; intros Hin Hall; [destruct Hin|].
  inversion Hall as [|? ? [Hnull Hundef] Hrest]; subst.
  simpl. destruct (Js.keys c) as [[|k ks]|] eqn:E.
  - reflexivity.
  - apply IH; [|exact Hrest].
    destruct Hin as [Hc|Hin]; [|exact Hin]. subst c. discriminate E.
  - destruct c; try discriminate E; congruence.
Qed.

(** C3.  An [_or] entry whose array holds an empty object (and no [null]
    or [undefined] child) is passed over by the join pass and by the
    predicate pass: the filter compiles as the same filter without that
    entry, whatever its other children are; a filter that consists of
    such an entry alone leaves the builder without any new call. *)
Theorem or_with_empty_object_is_skipped :
  forall schema host fuel relations subQuery collection logical' before after
         children s,
    In (VObj []) children ->
    Forall (fun c => c <> VNull /\ c <> VUndef) children ->
    addJoins schema host fuel relations subQuery
      (VObj (before ++ ("_or", VArr children) :: after)) collection s
    = addJoins schema host fuel relations subQuery (VObj (before ++ after)) collection s
    /\ addWhereClauses schema host fuel relations subQuery
         (VObj (before ++ ("_or", VArr children) :: after)) collection logical' s
       = addWhereClauses schema host fuel relations subQuery (VObj (before ++ after))
           collection logical' s
    /\ applyFilter schema host (S (S fuel)) (VObj [("_or", VArr children)]) collection
         subQuery s
       = Ok tt {| query := query s; aliasMap := []; drawn := drawn s |}.
Proof.
  intros schema host fuel relations subQuery collection logical' before after
    children s Hin Hall.
  pose proof (someEmptyIn_true Hin Hall) as Hsome.
  split; [|split].
  - destruct fuel as [|fuel]; [reflexivity|].
    cbn -[getFilterPath addJoin someEmptyIn]. unfold bind at 1 3. cbn.
    apply forEach_skip. intros s0.
    cbn -[someEmptyIn]. unfold bind. cbn -[someEmptyIn]. rewrite Hsome. reflexivity.
  - destruct fuel as [|fuel]; [reflexivity|].
    cbn -[getFilterPath getOperation someEmptyIn validateFilterOperator
          applyFilterToQuery].
    unfold bind at 1 3. cbn -[getFilterPath getOperation someEmptyIn
                              validateFilterOperator applyFilterToQuery].
    apply forEach_skip. intros s0.
    cbn -[someEmptyIn]. unfold bind. cbn -[someEmptyIn]. rewrite Hsome. reflexivity.
  - cbn -[someEmptyIn]. unfold bind. cbn -[someEmptyIn]. rewrite Hsome.
    reflexivity.
Qed.

Lemma or_with_empty_object_is_skipped_witness :
  applyFilter Sample.schema Sample.host 2
    (VObj [("_or", VArr [VObj []; VObj [("title", VObj [("_eq", VStr "x")])]])])
    "articles" false start
  = Ok tt start.
Proof.
  refine (proj2 (proj2 (or_with_empty_object_is_skipped Sample.schema Sample.host 0
                          Sample.relations false "articles" LAnd [] []
                          (children := [VObj []; VObj [("title", VObj [("_eq", VStr "x")])]])
                          start _ _))).
  - simpl. left. reflexivity.
  - repeat constructor; discriminate.
Defined.

(** ** C5: operator validation at a leaf *)

Lemma prefix_append (p s : string) : String.prefix p (p ++ s) = true.
Proof.
  induction p as [|a p IH]; simpl.
  - destruct s; reflexivity.
  - destruct (Ascii.ascii_dec a a) as [_|n]; [exact IH|destruct n; reflexivity].
Qed.

Lemma includes_prefix (p s : string) :
  String.prefix p s = true -> Str.includes p s = true.
Proof. intros H. destruct s; cbn [Str.includes]; rewrite H; reflexivity. Qed.

Lemma includes_skip (p before s : string) :
  Str.includes p s = true -> Str.includes p (before ++ s) = true.
Proof.
  intros H. induction before as [|a before IH]; [exact H|].
  change (Str.includes p (String a (before ++ s)) = true).
  cbn [Str.includes]. rewrite IH. apply orb_true_r.
Qed.

Lemma includes_here (p after : string) : Str.includes p (p ++ after) = true.
Proof. apply includes_prefix, prefix_append. Qed.

Lemma typeMessage_names (type' op : string) :
  Str.includes type' (typeMessage type' op) = true
  /\ Str.includes op (typeMessage type' op) = true.
Proof.
  unfold typeMessage. split.
  - apply includes_skip, includes_here.
  - do 6 apply includes_skip. apply includes_here.
Qed.

Lemma concealMessage_names (op : string) :
  Str.includes op (concealMessage op) = true.
Proof. unfold concealMessage. do 7 apply includes_skip. apply includes_here. Qed.

Lemma validateFilterOperator_type host type' operator special' s :
  Str.is_in (bareOperator operator) (getFilterOperatorsForType host type') = false ->
  validateFilterOperator host type' operator special' s
  = Throw (InvalidQueryException (typeMessage type' (bareOperator operator))) s.
Proof.
  intros H. unfold validateFilterOperator. fold (bareOperator operator).
  rewrite H. reflexivity.
Qed.

Lemma validateFilterOperator_conceal host type' operator special' s :
  Str.is_in (bareOperator operator) (getFilterOperatorsForType host type') = true ->
  Str.is_in "conceal" special' = true ->
  Str.is_in (bareOperator operator) (getFilterOperatorsForType host "hash") = false ->
  validateFilterOperator host type' operator special' s
  = Throw (InvalidQueryException (concealMessage (bareOperator operator))) s.
Proof.
  intros H1 H2 H3. unfold validateFilterOperator. fold (bareOperator operator).
  rewrite H1, H2, H3. reflexivity.
Qed.

(** A leaf on a scalar, m2o or a2o path whose target field exists runs
    the validation first and the comparison only after it. *)
Lemma leaf_runs_validation schema host fuel relations subQuery key v collection
    logical' path relation' relationType operator filterValue field s :
  isLogicalKey key = false ->
  getFilterPath key v = ROk path ->
  getRelationInfo host relations collection
    (hd EmptyString (Str.split ":" (hd EmptyString path))) = (relation', relationType) ->
  is_type relationType m2o || is_type relationType a2o || negb (isDefined relationType)
  = true ->
  getOperation key v = ROk (operator, filterValue) ->
  targetField schema host relations collection (aliasMap s) path = Some field ->
  exists columnKey original,
    addWhereClauses schema host (S fuel) relations subQuery (VObj [(key, v)]) collection
      logical' s
    = bind (validateFilterOperator host (type field) operator (special field))
        (fun _ => applyFilterToQuery schema host columnKey operator filterValue logical'
                    original) s.
Proof.
  intros Hkey Hpath Hinfo Htype Hop Hfield.
  unfold targetField in Hfield.
  cbn -[getFilterPath getOperation validateFilterOperator applyFilterToQuery Str.split
        Nat.ltb last hd].
  unfold bind at 1.
  cbn -[getFilterPath getOperation validateFilterOperator applyFilterToQuery Str.split
        Nat.ltb last hd].
  rewrite Hkey. unfold bind at 2. rewrite Hpath.
  cbn -[getFilterPath getOperation validateFilterOperator applyFilterToQuery Str.split
        Nat.ltb last hd].
  rewrite Hinfo. unfold bind at 2. rewrite Hop.
  cbn -[getFilterPath getOperation validateFilterOperator applyFilterToQuery Str.split
        Nat.ltb last hd].
  rewrite Htype.
  destruct (1 <? length path)%nat.
  - unfold bind at 2.
    cbn -[validateFilterOperator applyFilterToQuery Str.split Nat.ltb last hd].
    destruct (getColumnPath host path collection (aliasMap s) relations)
      as [columnPath targetCollection].
    destruct (Str.truthy columnPath); [|discriminate Hfield].
    cbn -[validateFilterOperator applyFilterToQuery Str.split Nat.ltb last hd].
    rewrite Hfield.
    cbn -[validateFilterOperator applyFilterToQuery Str.split Nat.ltb last hd].
    exists columnPath, (Some targetCollection).
    unfold bind. destruct (validateFilterOperator _ _ _ _ s); [|reflexivity].
    destruct (applyFilterToQuery _ _ _ _ _ _ _ _) as [[] ?|? ?]; reflexivity.
  - unfold bind at 2. rewrite Hfield.
    cbn -[validateFilterOperator applyFilterToQuery Str.split Nat.ltb last hd].
    exists (dotted collection (hd EmptyString path)), None.
    unfold bind. destruct (validateFilterOperator _ _ _ _ s); [|reflexivity].
    destruct (applyFilterToQuery _ _ _ _ _ _ _ _) as [[] ?|? ?]; reflexivity.
Qed.

(** C5, counterexample.  On the sample schema the filter
    [{title: {_gt: 5}}] fails validation ([title] is a string field), and
    the message of the error names the type and the operator but not the
    field. *)
Lemma validation_error_omits_field :
  exists message s',
    addWhereClauses Sample.schema Sample.host 1 Sample.relations false
      (VObj [("title", VObj [("_gt", VNum (Num 5))])]) "articles" LAnd start
    = Throw (InvalidQueryException message) s'
    /\ Str.includes "title" message = false.
Proof.
  eexists. eexists. split.
  - vm_compute. reflexivity.
  - vm_compute. reflexivity.
Qed.

(** C5, amended.  A leaf on a scalar, m2o or a2o path whose target field
    exists is validated before any comparison is emitted.  An operator
    outside the set of the field's type ends the compilation with an
    invalid-query error whose message names the type and the operator; on
    a field marked conceal, an operator of the type's set that is outside
    the hash set ends it with an invalid-query error whose message names
    the operator.  In both cases the builder is as it was before the leaf:
    no WHERE clause is emitted for it. *)
Theorem leaf_operator_is_validated :
  forall schema host fuel relations subQuery key v collection logical' path relation'
         relationType operator filterValue field s,
    isLogicalKey key = false ->
    getFilterPath key v = ROk path ->
    getRelationInfo host relations collection
      (hd EmptyString (Str.split ":" (hd EmptyString path))) = (relation', relationType) ->
    is_type relationType m2o || is_type relationType a2o || negb (isDefined relationType)
    = true ->
    getOperation key v = ROk (operator, filterValue) ->
    targetField schema host relations collection (aliasMap s) path = Some field ->
    let op := bareOperator operator in
    let run :=
      addWhereClauses schema host (S fuel) relations subQuery (VObj [(key, v)])
        collection logical' s in
    (Str.is_in op (getFilterOperatorsForType host (type field)) = false ->
     run = Throw (InvalidQueryException (typeMessage (type field) op)) s)
    /\ (Str.is_in op (getFilterOperatorsForType host (type field)) = true ->
        Str.is_in "conceal" (special field) = true ->
        Str.is_in op (getFilterOperatorsForType host "hash") = false ->
        run = Throw (InvalidQueryException (concealMessage op)) s)
    /\ Str.includes (type field) (typeMessage (type field) op) = true
    /\ Str.includes op (typeMessage (type field) op) = true
    /\ Str.includes op (concealMessage op) = true.
Proof.
  intros schema host fuel relations subQuery key v collection logical' path relation'
    relationType operator filterValue field s Hkey Hpath Hinfo Htype Hop Hfield op run.
  destruct (@leaf_runs_validation schema host fuel relations subQuery key v collection
              logical' path relation' relationType operator filterValue field s
              Hkey Hpath Hinfo Htype Hop Hfield) as [columnKey [original Hrun]].
  fold run in Hrun. repeat split.
  - intros Hbad. rewrite Hrun.
    apply bind_throw, validateFilterOperator_type, Hbad.
  - intros Hgood Hconceal Hhash. rewrite Hrun.
    apply bind_throw, validateFilterOperator_conceal; assumption.
  - apply typeMessage_names.
  - apply typeMessage_names.
  - apply concealMessage_names.
Qed.

Lemma leaf_operator_is_validated_witness :
  addWhereClauses Sample.schema Sample.host 1 Sample.relations false
    (VObj [("title", VObj [("_gt", VNum (Num 5))])]) "articles" LAnd start
  = Throw (InvalidQueryException (typeMessage "string" "gt")) start
  /\ addWhereClauses Sample.schema Sample.host 1 Sample.relations false
       (VObj [("token", VObj [("_eq", VStr "x")])]) "articles" LAnd start
     = Throw (InvalidQueryException (concealMessage "eq")) start.
Proof.
  split.
  - exact (proj1 (@leaf_operator_is_validated Sample.schema Sample.host 0
                    Sample.relations false "title" (VObj [("_gt", VNum (Num 5))])
                    "articles" LAnd ["title"] None None "_gt" (VNum (Num 5))
                    (Sample.field "string") start
                    eq_refl eq_refl eq_refl eq_refl eq_refl eq_refl) eq_refl).
  - exact (proj1 (proj2 (@leaf_operator_is_validated Sample.schema Sample.host 0
                    Sample.relations false "token" (VObj [("_eq", VStr "x")])
                    "articles" LAnd ["token"] None None "_eq" (VStr "x")
                    {| type := "string"; special := ["conceal"] |} start
                    eq_refl eq_refl eq_refl eq_refl eq_refl eq_refl))
             eq_refl eq_refl eq_refl).
Defined.

(** ** C1: filters on to-many relations *)

(** One unfolding of [addWhereClauses], with the recursive calls folded. *)
Lemma addWhereClauses_unfold schema host fuel relations subQuery filter' collection
    logical' :
  addWhereClauses schema host (S fuel) relations subQuery filter' collection logical'
  = ltac:(let body :=
            eval simpl in
              (addWhereClauses schema host (S fuel) relations subQuery filter'
                 collection logical') in
          exact body).
Proof. reflexivity. Qed.

Ltac quiet :=
  cbn -[getFilterPath getOperation validateFilterOperator applyFilterToQuery Str.split
        Nat.ltb last hd applyQuery Js.firstKey Js.firstValue is_type isDefined pkFieldOf
        dotted filterOnly].

Lemma applyFilter_unfold schema host fuel rootFilter collection subQuery :
  applyFilter schema host fuel rootFilter collection subQuery
  = ltac:(let body :=
            eval cbv delta [applyFilter] beta zeta in
              (applyFilter schema host fuel rootFilter collection subQuery) in
          exact body).
Proof. reflexivity. Qed.

Lemma addJoins_unfold schema host fuel relations subQuery filter' collection :
  addJoins schema host (S fuel) relations subQuery filter' collection
  = ltac:(let body :=
            eval simpl in
              (addJoins schema host (S fuel) relations subQuery filter' collection) in
          exact body).
Proof. reflexivity. Qed.

(** The calls of the join pass and of the predicate pass. *)

Ltac appends_with emits :=
  repeat (match goal with
          | |- appends _ (bind _ _) => apply appends_bind; [|intros]
          | |- appends _ (ret _) => apply appends_ret
          | |- appends _ (throw _) => apply appends_throw
          | |- appends _ (emit _) => apply appends_emit; emits
          | |- appends _ (when _ _) => apply appends_when
          | |- appends _ (lift _) => apply appends_lift
          | |- appends _ (deref _) => apply appends_deref
          | |- appends _ getAliasMap => apply appends_getAliasMap
          | |- appends _ (putAliasMap _) => apply appends_putAliasMap
          | |- appends _ (newAlias _) => apply appends_newAlias
          | |- appends _ (pathScope _) => apply appends_pathScope
          | |- appends _ (forEach _ _) => apply appends_forEach; intros
          | |- appends _ (mapM _ _) => apply appends_mapM; intros
          | |- appends _ (if ?b then _ else _) => destruct b
          | |- appends _ (match ?x with _ => _ end) => destruct x
          | |- appends _ _ => progress cbv beta zeta
          end; try assumption).

Section JoinsOnly.

Variable schema : SchemaOverview.
Variable host : Host.

Lemma joins_followRelation relations subQuery pathParts :
  forall parentCollection parentAlias,
    appends (fun op => isJoin op = true)
      (followRelation schema host relations subQuery pathParts parentCollection
         parentAlias).
Proof.
  induction pathParts as [|segment rest IH]; intros parentCollection parentAlias;
    simpl.
  - apply appends_throw.
  - appends_with reflexivity; apply IH.
Qed.

Lemma joins_addJoins fuel relations subQuery :
  forall filter' collection,
    appends (fun op => isJoin op = true)
      (addJoins schema host fuel relations subQuery filter' collection).
Proof.
  induction fuel as [|fuel IH]; intros filter' collection.
  - apply appends_throw.
  - rewrite addJoins_unfold.
    appends_with reflexivity; try apply joins_followRelation; apply IH.
Qed.

End JoinsOnly.

Section WheresOnly.

Variable schema : SchemaOverview.
Variable host : Host.

Lemma wheres_lowerCased v : appends (fun op => isWhereCall op = true) (lowerCased host v).
Proof. unfold lowerCased. appends_with reflexivity. Qed.

Lemma wheres_lengthIsNot2 v : appends (fun op => isWhereCall op = true) (lengthIsNot2 v).
Proof. unfold lengthIsNot2. appends_with reflexivity. Qed.

Lemma wheres_validateFilterOperator t o sp :
  appends (fun op => isWhereCall op = true) (validateFilterOperator host t o sp).
Proof. unfold validateFilterOperator. appends_with reflexivity. Qed.

Lemma wheres_applyFilterToQuery key operator compareValue logical' original :
  appends (fun op => isWhereCall op = true)
    (applyFilterToQuery schema host key operator compareValue logical' original).
Proof.
  unfold applyFilterToQuery.
  appends_with reflexivity; try apply wheres_lowerCased; try apply wheres_lengthIsNot2.
Qed.

Lemma wheres_addWhereClauses fuel :
  forall relations subQuery filter' collection logical',
    appends (fun op => isWhereCall op = true)
      (addWhereClauses schema host fuel relations subQuery filter' collection logical').
Proof.
  induction fuel as [|fuel IH]; intros relations subQuery filter' collection logical'.
  - apply appends_throw.
  - rewrite addWhereClauses_unfold.
    appends_with reflexivity; try apply wheres_validateFilterOperator;
      try apply wheres_applyFilterToQuery; apply IH.
Qed.

End WheresOnly.

Lemma appends_then (P Q : qop -> Prop) (m1 m2 : M unit) (s : state) :
  appends P m1 -> appends Q m2 ->
  exists first second,
    query (final (bind m1 (fun _ => m2) s)) = query s ++ first ++ second
    /\ Forall P first /\ Forall Q second.
Proof.
  intros H1 H2. destruct (H1 s) as [first [E1 F1]]. unfold bind.
  destruct (m1 s) as [[] s1|e s1]; simpl in E1.
  - destruct (H2 s1) as [second [E2 F2]]. exists first, second.
    rewrite E2, E1, app_assoc. auto.
  - exists first, []. simpl. rewrite app_nil_r. auto.
Qed.

Lemma applyFilter_passes schema host fuel rootFilter collection subQuery s :
  exists joins wheres,
    query (final (applyFilter schema host fuel rootFilter collection subQuery s))
    = query s ++ joins ++ wheres
    /\ forallb isJoin joins = true
    /\ forallb isWhereCall wheres = true.
Proof.
  rewrite applyFilter_unfold. unfold bind at 1. cbn -[addJoins addWhereClauses].
  destruct (@appends_then (fun op => isJoin op = true)
              (fun op => isWhereCall op = true)
              (addJoins schema host fuel (getRelations schema) subQuery rootFilter
                 collection)
              (addWhereClauses schema host fuel (getRelations schema) subQuery
                 rootFilter collection LAnd)
              {| query := query s; aliasMap := []; drawn := drawn s |}
              (@joins_addJoins schema host fuel (getRelations schema) subQuery
                 rootFilter collection)
              (@wheres_addWhereClauses schema host fuel (getRelations schema)
                 subQuery rootFilter collection LAnd))
    as [joins [wheres [E [F1 F2]]]].
  exists joins, wheres. split; [exact E|].
  split; apply forallb_forall; [rewrite Forall_forall in F1; exact F1
                               |rewrite Forall_forall in F2; exact F2].
Qed.

(** A query that is a filter and nothing else is compiled by the filter
    passes alone. *)
Lemma applyQuery_filterOnly schema host fuel collection f subQuery :
  applyQuery schema host fuel collection (filterOnly f) subQuery
  = when (Js.truthy f) (applyFilter schema host fuel f collection subQuery).
Proof. reflexivity. Qed.



(** ** C6: names of the aggregate projections *)

(** C6, counterexample.  [{sum: ["amount"]}] on [orders] yields one
    projection, named [sum->amount]: the name has no dot after the arrow. *)
Lemma aggregate_name_has_no_dot :
  applyAggregate [("sum", Some ["amount"])] "orders" start
  = Ok tt (emitted start [Aggregate "sum" "orders.amount" "sum->amount"])
  /\ "sum->amount" <> dottedArrowName "sum" "amount".
Proof. split; [reflexivity | discriminate]. Qed.

Lemma is_in_In (x : string) (xs : list string) : Str.is_in x xs = true -> In x xs.
Proof.
  unfold Str.is_in. rewrite existsb_exists. intros [y [Hy E]].
  apply String.eqb_eq in E. subst y. exact Hy.
Qed.

Lemma aggregateField_projection collection operation field s :
  In operation aggregateOperations ->
  aggregateField collection operation field s
  = Ok tt (emitted s [projection collection operation field]).
Proof.
  intros Hin. unfold aggregateOperations in Hin. simpl in Hin.
  destruct s as [q am n]. unfold emitted; simpl.
  repeat (destruct Hin as [Hop|Hin]; [subst operation|]); try destruct Hin;
    unfold aggregateField, projection, outputName; cbn -[dotted arrow String.eqb];
    try reflexivity.
  destruct (field =? "*")%string; reflexivity.
Qed.

Lemma forEach_emitted {A : Type} (body : A -> M unit) (f : A -> list qop)
    (xs : list A) :
  (forall x s, In x xs -> body x s = Ok tt (emitted s (f x))) ->
  forall s, forEach body xs s = Ok tt (emitted s (flat_map f xs)).
Proof.
  induction xs as [|x xs IH]; intros H s; simpl.
  - unfold emitted. rewrite app_nil_r. destruct s; reflexivity.
  - unfold bind. rewrite (H x s (or_introl eq_refl)).
    rewrite IH by (intros y s0 Hy; apply H; right; exact Hy).
    unfold emitted; simpl. rewrite <- app_assoc. reflexivity.
Qed.

(** C6, amended.  For the nine operations, every (operation, field) pair
    of an aggregate specification yields exactly one projection, in the
    order of the specification; its output name is [count] for [count]
    on [*], [countAll] for [countAll], and the operation, an arrow and the
    field ([sum->amount]) for every other pair. *)
Theorem aggregate_projections_are_named :
  forall spec collection s,
    forallb (fun entry => Str.is_in (fst entry) aggregateOperations) spec = true ->
    applyAggregate spec collection s = Ok tt (emitted s (projections collection spec))
    /\ (forall field, outputName "countAll" field = "countAll")
    /\ outputName "count" "*" = "count"
    /\ (forall operation field,
          operation <> "countAll" ->
          (operation <> "count" \/ field <> "*") ->
          outputName operation field = (operation ++ "->" ++ field)%string).
Proof.
  intros spec collection s Hall. repeat split.
  - unfold applyAggregate, projections.
    apply forEach_emitted. intros [operation [fields|]] s0 Hin; simpl.
    + rewrite forallb_forall in Hall. specialize (Hall _ Hin).
      apply is_in_In in Hall. simpl in Hall.
      rewrite (forEach_emitted (aggregateField collection operation)
                 (fun field => [projection collection operation field]))
        by (intros field s1 _; apply aggregateField_projection, Hall).
      do 2 f_equal.
    + unfold emitted. rewrite app_nil_r. destruct s0; reflexivity.
  - intros operation field Hall' Hcount. unfold outputName.
    destruct (String.eqb_spec operation "countAll") as [E|_]; [contradiction|].
    destruct (String.eqb_spec operation "count") as [E|_]; [|reflexivity].
    destruct (String.eqb_spec field "*") as [E'|_]; [|reflexivity].
    destruct Hcount; contradiction.
Qed.

Lemma aggregate_projections_are_named_witness :
  applyAggregate [("count", Some ["*"]); ("sum", Some ["amount"])] "orders" start
  = Ok tt (emitted start [Aggregate "count" "*" "count";
                          Aggregate "sum" "orders.amount" "sum->amount"]).
Proof.
  exact (proj1 (@aggregate_projections_are_named
                  [("count", Some ["*"]); ("sum", Some ["amount"])] "orders" start
                  eq_refl)).
Defined.

(** ** C7: [_in] and [_between] on a comma-joined string *)

(** C7.  The length test of [_between] runs before the string is split:
    a comma-joined string of two bounds ([a,z], [1,5]) has a length other
    than two and the comparison is dropped, on every field that is not of
    a date type (whose values the date helper rewrites first). *)
Theorem between_comma_string_emits_no_clause :
  forall schema host key column str logical' original s,
    Str.nth 1 (Str.split "." key) = Some column ->
    (forall info,
        getField schema (orElse original (hd EmptyString (Str.split "." key))) column
        = Some info ->
        Str.is_in (type info) dateTypes = false) ->
    String.length str <> 2%nat ->
    applyFilterToQuery schema host key "_between" (VStr str) logical' original s
    = Ok tt s.
Proof.
  intros schema host key column str logical' original s Hcol Hdate Hlen.
  apply Nat.eqb_neq in Hlen.
  unfold applyFilterToQuery.
  cbn -[Str.split Str.nth orElse Str.is_in Str.includes_char dateTypes numericTypes
        String.length Nat.eqb].
  unfold bind. cbn -[Str.split Str.nth orElse Str.is_in Str.includes_char dateTypes
                     numericTypes String.length Nat.eqb].
  rewrite Hcol.
  cbn -[Str.split Str.nth orElse Str.is_in Str.includes_char dateTypes numericTypes
        String.length Nat.eqb].
  destruct (getField schema (orElse original (hd EmptyString (Str.split "." key)))
              column) as [info|] eqn:Hfield.
  - rewrite (Hdate info eq_refl).
    destruct (Str.includes_char "(" column && Str.includes_char ")" column);
      [destruct (Str.is_in (getOutputTypeForFunction host _) numericTypes)|];
      destruct (Str.is_in (type info) numericTypes);
      cbn -[String.length Nat.eqb]; rewrite ?Hlen; reflexivity.
  - destruct (Str.includes_char "(" column && Str.includes_char ")" column);
      [destruct (Str.is_in (getOutputTypeForFunction host _) numericTypes)|];
      cbn -[String.length Nat.eqb]; rewrite ?Hlen; reflexivity.
Qed.

Lemma between_comma_string_emits_no_clause_witness :
  applyFilterToQuery Sample.schema Sample.host "articles.title" "_between" (VStr "a,z")
    LAnd None start
  = Ok tt start
  /\ applyFilterToQuery Sample.schema Sample.host "articles.title" "_between"
       (VArr [VStr "a"; VStr "z"]) LAnd None start
     = Ok tt (emitted start
                [WhereBetween LAnd (RawCol (KnexRaw "??" ["articles.title"]))
                   (VArr [VStr "a"; VStr "z"])]).
Proof.
  split.
  - apply (@between_comma_string_emits_no_clause Sample.schema Sample.host
             "articles.title" "title" "a,z" LAnd None start eq_refl).
    + intros info H. vm_compute in H. injection H as <-. reflexivity.
    + simpl. lia.
  - reflexivity.
Defined.

(** The same string reaches [_in] on a numeric field already converted to
    one number, so nothing is left to split; on a field that is not
    converted the string is split and the two forms agree. *)
Example in_comma_string_on_sample :
  applyFilterToQuery Sample.schema Sample.host "articles.views" "_in" (VStr "1,2")
    LAnd None start
  = Ok tt (emitted start
             [WhereIn LAnd (RawCol (KnexRaw "??" ["articles.views"])) (VNum NaN)])
  /\ applyFilterToQuery Sample.schema Sample.host "articles.views" "_in"
       (VArr [VStr "1"; VStr "2"]) LAnd None start
     = Ok tt (emitted start
                [WhereIn LAnd (RawCol (KnexRaw "??" ["articles.views"]))
                   (VArr [VNum (Num 1); VNum (Num 2)])])
  /\ applyFilterToQuery Sample.schema Sample.host "articles.title" "_in" (VStr "a,b")
       LAnd None start
     = applyFilterToQuery Sample.schema Sample.host "articles.title" "_in"
         (VArr [VStr "a"; VStr "b"]) LAnd None start.
Proof. repeat split. Qed.

(** An array of other than two bounds is dropped by [_between] and by
    [_nbetween] on a plain column, whatever its field. *)
Lemma between_needs_two_bounds schema host key column bounds logical' original s :
  Str.nth 1 (Str.split "." key) = Some column ->
  Str.includes_char "(" column && Str.includes_char ")" column = false ->
  length (List.filter (fun x => negb (isUndefined x)) bounds) <> 2%nat ->
  applyFilterToQuery schema host key "_between" (VArr bounds) logical' original s = Ok tt s
  /\ applyFilterToQuery schema host key "_nbetween" (VArr bounds) logical' original s
     = Ok tt s.
Proof.
  intros Hcol Hplain Hlen. apply Nat.eqb_neq in Hlen.
  split; unfold applyFilterToQuery;
    cbn -[Str.split Str.nth orElse Str.is_in Str.includes_char dateTypes numericTypes
          length Nat.eqb List.filter];
    unfold bind;
    cbn -[Str.split Str.nth orElse Str.is_in Str.includes_char dateTypes numericTypes
          length Nat.eqb List.filter];
    rewrite Hcol;
    cbn -[Str.split Str.nth orElse Str.is_in Str.includes_char dateTypes numericTypes
          length Nat.eqb List.filter];
    rewrite Hplain;
    destruct (getField schema _ column) as [info|];
    try destruct (Str.is_in (type info) dateTypes);
    try destruct (Str.is_in (type info) numericTypes);
    cbn -[length Nat.eqb List.filter]; rewrite ?length_map, ?Hlen; reflexivity.
Qed.

(** ** C8: free-text search *)

Lemma numeric_is_not_text (t : string) :
  Str.is_in t searchNumericTypes = true -> Str.is_in t textTypes = false.
Proof.
  intros H. apply is_in_In in H. simpl in H.
  repeat (destruct H as [<-|H]; [reflexivity|]). destruct H.
Qed.

(** C8.  [applySearch] makes one call on the builder: an AND group.  The
    group holds, field by field in the order of the collection's fields,
    what each field contributes, and every member is an OR predicate.  A
    text or string field contributes a LIKE on the lower-cased column
    against the lower-cased term between wildcards; a numeric field
    contributes an equality with the number the term converts to, and
    nothing when it converts to NaN; a uuid field contributes an equality
    with the term when the term is a valid UUID, and nothing otherwise;
    a field of any other type contributes nothing. *)
Theorem search_predicates_by_field_type :
  forall schema host searchQuery collection s,
  exists contribution : string * FieldInfo -> list qop,
    applySearch schema host searchQuery collection s
    = Ok tt (emitted s [AndWhere LAnd
                          (flat_map contribution (getFields schema collection))])
    /\ forall name field,
         let column := dotted collection name in
         forallb isOrPredicate (contribution (name, field)) = true
         /\ (Str.is_in (type field) textTypes = true ->
             contribution (name, field)
             = [OrWhereRaw "LOWER(??) LIKE ?"
                  [BStr column; BStr ("%" ++ toLowerCase host searchQuery ++ "%")%string]])
         /\ (Str.is_in (type field) searchNumericTypes = true ->
             contribution (name, field)
             = match toNumber host (VStr searchQuery) with
               | Num z => [OrWhere column (VNum (Num z))]
               | NaN => []
               end)
         /\ (type field = "uuid" ->
             contribution (name, field)
             = if validate host searchQuery then [OrWhere column (VStr searchQuery)]
               else [])
         /\ (Str.is_in (type field) textTypes = false ->
             Str.is_in (type field) searchNumericTypes = false ->
             type field <> "uuid" ->
             contribution (name, field) = []).
Proof.
  intros schema host searchQuery collection s.
  eexists. split; [reflexivity|].
  intros name field column. cbv beta iota zeta.
  fold textTypes searchNumericTypes.
  repeat split.
  - destruct (Str.is_in (type field) textTypes); [reflexivity|].
    destruct (Str.is_in (type field) searchNumericTypes).
    + destruct (toNumber host (VStr searchQuery)); reflexivity.
    + destruct ((type field =? "uuid")%string && validate host searchQuery); reflexivity.
  - intros Htext. rewrite Htext. reflexivity.
  - intros Hnum. rewrite (numeric_is_not_text _ Hnum), Hnum.
    destruct (toNumber host (VStr searchQuery)); reflexivity.
  - intros Huuid. rewrite Huuid. cbn -[validate]. reflexivity.
  - intros Htext Hnum Huuid. rewrite Htext, Hnum.
    destruct (String.eqb_spec (type field) "uuid") as [E|_]; [contradiction|reflexivity].
Qed.

(** The example of the specification: the term [42] on a text field and
    an integer field. *)
Example search_42_on_text_and_integer :
  let schema :=
    {| getCollection := fun _ => Some {| primary := "id" |};
       getField := fun _ _ => None;
       getFields := fun _ => [("title", Sample.field "text");
                              ("views", Sample.field "integer")];
       getRelations := [] |} in
  applySearch schema Sample.host "42" "articles" start
  = Ok tt (emitted start
             [AndWhere LAnd
                [OrWhereRaw "LOWER(??) LIKE ?" [BStr "articles.title"; BStr "%42%"];
                 OrWhere "articles.views" (VNum (Num 42))]]).
Proof. reflexivity. Qed.

Lemma search_predicates_by_field_type_witness :
  exists contribution : string * FieldInfo -> list qop,
    applySearch Sample.schema Sample.host "42" "authors" start
    = Ok tt (emitted start
               [AndWhere LAnd (flat_map contribution (getFields Sample.schema "authors"))])
    /\ contribution ("name", Sample.field "string")
       = [OrWhereRaw "LOWER(??) LIKE ?" [BStr "authors.name"; BStr "%42%"]]
    /\ contribution ("id", Sample.field "uuid") = []
    /\ contribution ("avatar", Sample.field "json") = [].
Proof.
  destruct (search_predicates_by_field_type Sample.schema Sample.host "42" "authors" start)
    as [contribution [Hrun Hfield]].
  exists contribution. split; [exact Hrun|]. repeat split.
  - exact (proj1 (proj2 (Hfield "name" (Sample.field "string"))) eq_refl).
  - exact (proj1 (proj2 (proj2 (proj2 (Hfield "id" (Sample.field "uuid"))))) eq_refl).
  - apply (proj2 (proj2 (proj2 (proj2 (Hfield "avatar" (Sample.field "json"))))));
      [reflexivity | reflexivity | discriminate].
Defined.

(** ** C9 and C10: limit, offset and page *)

Lemma applyQuery_unfold schema host fuel collection query' subQuery :
  applyQuery schema host fuel collection query' subQuery
  = ltac:(let body :=
            eval cbv delta [applyQuery] beta in
              (applyQuery schema host fuel collection query' subQuery) in
          exact body).
Proof. reflexivity. Qed.

Lemma bind_Ok_inv {A B : Type} (m : M A) (f : A -> M B) (s s' : state) (b : B) :
  bind m f s = Ok b s' -> exists a s1, m s = Ok a s1 /\ f a s1 = Ok b s'.
Proof.
  unfold bind. destruct (m s) as [a s1|e s1]; [|discriminate].
  intros H. exists a, s1. split; [reflexivity|exact H].
Qed.

Lemma appends_Ok (P : qop -> Prop) {A : Type} (m : M A) (s s' : state) (a : A) :
  appends P m -> m s = Ok a s' -> exists ops, query s' = query s ++ ops /\ Forall P ops.
Proof. intros Hm H. destruct (Hm s) as [ops [E F]]. rewrite H in E. exists ops. auto. Qed.

Section Paging.

Variable schema : SchemaOverview.
Variable host : Host.

(** The sort pass and everything after the paging calls add no paging
    call of their own. *)
Lemma appends_sortPart (P : qop -> Prop) q collection subQuery :
  (forall op, isPaging op = false -> P op) ->
  appends P (match sort q with
             | Some rootSort => applySort schema host rootSort collection subQuery
             | None => ret tt
             end).
Proof.
  intros HP. destruct (sort q); [apply appends_applySort; exact HP | apply appends_ret].
Qed.

Lemma appends_afterPaging (P : qop -> Prop) fuel q collection subQuery :
  (forall op, isPaging op = false -> P op) ->
  appends P
    (match search q with
     | Some searchQuery =>
         when (Str.truthy searchQuery) (applySearch schema host searchQuery collection)
     | None => ret tt
     end ;;
     match group q with
     | Some columns =>
         emit (GroupBy (map (fun column => getColumn host collection (Some column))
                          columns))
     | None => ret tt
     end ;;
     match aggregate q with
     | Some spec => applyAggregate spec collection
     | None => ret tt
     end ;;
     match filter q with
     | Some rootFilter =>
         when (Js.truthy rootFilter)
           (applyFilter schema host fuel rootFilter collection subQuery)
     | None => ret tt
     end).
Proof.
  intros HP.
  apply appends_bind; [|intros _; apply appends_bind; [|intros _; apply appends_bind]].
  - destruct (search q); [apply appends_when, appends_applySearch; exact HP
                         | apply appends_ret].
  - destruct (group q); [apply appends_emit, HP; reflexivity | apply appends_ret].
  - destruct (aggregate q); [apply appends_applyAggregate; exact HP | apply appends_ret].
  - intros _. destruct (filter q);
      [apply appends_when, appends_applyFilter; exact HP | apply appends_ret].
Qed.

Lemma appends_applyQuery (P : qop -> Prop) fuel q collection subQuery :
  (forall op, isPaging op = false -> P op) ->
  Forall P (pagingCalls host q) ->
  appends P (applyQuery schema host fuel collection q subQuery).
Proof.
  intros HP Hpaging.
  rewrite applyQuery_unfold. unfold pagingCalls in Hpaging.
  apply Forall_app in Hpaging. destruct Hpaging as [Hlimit Hrest].
  apply Forall_app in Hrest. destruct Hrest as [Hoffset Hpage].
  apply appends_bind; [apply appends_sortPart; exact HP|intros _].
  apply appends_bind; [|intros _; apply appends_bind; [|intros _; apply appends_bind]].
  - destruct (limit q) as [n|]; [|apply appends_ret].
    destruct (negb (JsNum.eqb n (Num (-1)))); [|apply appends_ret].
    apply appends_emit. inversion Hlimit; assumption.
  - destruct (offset q) as [n|]; [|apply appends_ret].
    destruct (JsNum.truthy n); [|apply appends_ret].
    apply appends_emit. inversion Hoffset; assumption.
  - destruct (page q) as [p|]; [|apply appends_ret].
    destruct (limit q) as [n|]; [|apply appends_ret].
    destruct (JsNum.truthy p && JsNum.truthy n && negb (JsNum.eqb n (Num (-1))));
      [|apply appends_ret].
    apply appends_emit. inversion Hpage; assumption.
  - intros _. apply appends_afterPaging. exact HP.
Qed.

(** The calls of a successful [applyQuery]: those of the sort pass, the
    paging calls, those of the remaining passes. *)
Lemma applyQuery_calls fuel q collection subQuery s s' :
  applyQuery schema host fuel collection q subQuery s = Ok tt s' ->
  exists sortCalls otherCalls,
    query s' = query s ++ sortCalls ++ pagingCalls host q ++ otherCalls
    /\ Forall (fun op => isPaging op = false) sortCalls
    /\ Forall (fun op => isPaging op = false) otherCalls.
Proof.
  rewrite applyQuery_unfold. intros H.
  apply bind_Ok_inv in H. destruct H as [[] [s1 [Hsort H]]].
  apply bind_Ok_inv in H. destruct H as [[] [s2 [Hlimit H]]].
  apply bind_Ok_inv in H. destruct H as [[] [s3 [Hoffset H]]].
  apply bind_Ok_inv in H. destruct H as [[] [s4 [Hpage H]]].
  destruct (@appends_Ok _ _ _ _ _ _
              (@appends_sortPart (fun op => isPaging op = false) q collection
                 subQuery (fun _ E => E)) Hsort) as [sortCalls [E1 F1]].
  destruct (@appends_Ok _ _ _ _ _ _
              (@appends_afterPaging (fun op => isPaging op = false) fuel q
                 collection subQuery (fun _ E => E)) H) as [otherCalls [E5 F5]].
  exists sortCalls, otherCalls. split; [|split; assumption].
  rewrite E5. unfold pagingCalls.
  assert (E2 : query s2 = query s1 ++
                 match limit q with
                 | Some n => if negb (JsNum.eqb n (Num (-1))) then [Limit n] else []
                 | None => []
                 end).
  { destruct (limit q) as [n|]; [destruct (negb (JsNum.eqb n (Num (-1))))|];
      inversion Hlimit; simpl; rewrite ?app_nil_r; reflexivity. }
  assert (E3 : query s3 = query s2 ++
                 match offset q with
                 | Some n => if JsNum.truthy n then [Offset n] else []
                 | None => []
                 end).
  { destruct (offset q) as [n|]; [destruct (JsNum.truthy n)|];
      inversion Hoffset; simpl; rewrite ?app_nil_r; reflexivity. }
  assert (E4 : query s4 = query s3 ++
                 match page q, limit q with
                 | Some p, Some n =>
                     if JsNum.truthy p && JsNum.truthy n && negb (JsNum.eqb n (Num (-1)))
                     then [Offset (pageOffset host n p)]
                     else []
                 | _, _ => []
                 end).
  { destruct (page q) as [p|]; [destruct (limit q) as [n|];
      [destruct (JsNum.truthy p && JsNum.truthy n && negb (JsNum.eqb n (Num (-1))))|]|];
      inversion Hpage; simpl; rewrite ?app_nil_r; reflexivity. }
  rewrite E4, E3, E2, E1. rewrite <- !app_assoc. reflexivity.
Qed.

End Paging.

Lemma effectiveOffset_app (xs ys : list qop) :
  effectiveOffset (xs ++ ys)
  = match effectiveOffset ys with
    | Some n => Some n
    | None => effectiveOffset xs
    end.
Proof.
  induction xs as [|x xs IH]; simpl.
  - destruct (effectiveOffset ys); reflexivity.
  - rewrite IH. destruct (effectiveOffset ys); reflexivity.
Qed.

Lemma effectiveOffset_none (ops : list qop) :
  Forall (fun op => isPaging op = false) ops -> effectiveOffset ops = None.
Proof.
  induction 1 as [|op ops Hop _ IH]; simpl; [reflexivity|].
  rewrite IH. destruct op; try reflexivity; discriminate Hop.
Qed.






(** ** The compiler ends on every filter

    The recursion of the filter passes follows the nesting of the filter;
    a budget of three units per level is enough. *)

Section Safe.

Lemma safe_ret {A : Type} (a : A) : safe (ret a).
Proof. intros s s'; discriminate. Qed.

Lemma safe_throw {A : Type} (e : exn) : e <> OutOfFuel -> safe (@throw A e).
Proof. intros H s s' E. injection E as E _. contradiction. Qed.

Lemma safe_bind {A B : Type} (m : M A) (f : A -> M B) :
  safe m -> (forall a, safe (f a)) -> safe (bind m f).
Proof.
  intros Hm Hf s s'. unfold bind. destruct (m s) as [a s1|e s1] eqn:E.
  - apply Hf.
  - intros E'. injection E' as -> ->. exact (Hm s s' E).
Qed.

Lemma safe_emit (op : qop) : safe (emit op).
Proof. intros s s'; discriminate. Qed.

Lemma safe_lift {A : Type} (r : result A) : safe (lift r).
Proof. destruct r; [apply safe_ret | apply safe_throw; discriminate]. Qed.

Lemma safe_deref {A : Type} (o : option A) : safe (deref o).
Proof. destruct o; [apply safe_ret | apply safe_throw; discriminate]. Qed.

Lemma safe_when (b : bool) (m : M unit) : safe m -> safe (when b m).
Proof. intros H; destruct b; [exact H | apply safe_ret]. Qed.

Lemma safe_getAliasMap : safe getAliasMap.
Proof. intros s s'; discriminate. Qed.

Lemma safe_putAliasMap (m : AliasMap) : safe (putAliasMap m).
Proof. intros s s'; discriminate. Qed.

Lemma safe_newAlias (host : Host) : safe (newAlias host).
Proof. intros s s'; discriminate. Qed.

Lemma safe_forEach {A : Type} (body : A -> M unit) (xs : list A) :
  (forall x, In x xs -> safe (body x)) -> safe (forEach body xs).
Proof.
  induction xs as [|x xs IH]; intros H; simpl.
  - apply safe_ret.
  - apply safe_bind; [apply H; left; reflexivity|].
    intros _. apply IH. intros y Hy. apply H. right. exact Hy.
Qed.

Lemma safe_mapM {A B : Type} (f : A -> M B) (xs : list A) :
  (forall x, safe (f x)) -> safe (mapM f xs).
Proof.
  intros H; induction xs as [|x xs IH]; simpl.
  - apply safe_ret.
  - apply safe_bind; [apply H|]. intros y.
    apply safe_bind; [exact IH|]. intros ys. apply safe_ret.
Qed.

End Safe.

Section SafeCompiler.

Variable schema : SchemaOverview.
Variable host : Host.

Ltac safe_step :=
  match goal with
  | |- safe (bind _ _) => apply safe_bind; [|intros]
  | |- safe (ret _) => apply safe_ret
  | |- safe (throw _) => apply safe_throw; discriminate
  | |- safe (emit _) => apply safe_emit
  | |- safe (when _ _) => apply safe_when
  | |- safe (lift _) => apply safe_lift
  | |- safe (deref _) => apply safe_deref
  | |- safe getAliasMap => apply safe_getAliasMap
  | |- safe (putAliasMap _) => apply safe_putAliasMap
  | |- safe (newAlias _) => apply safe_newAlias
  | |- safe (mapM _ _) => apply safe_mapM; intros
  | |- safe (if ?b then _ else _) => destruct b
  | |- safe (match ?x with _ => _ end) => destruct x
  | |- safe _ => progress cbv beta zeta
  end.

Ltac safe_auto := repeat (safe_step; try assumption).

Lemma safe_pathScope (segment : string) : safe (pathScope segment).
Proof. unfold pathScope. safe_auto. Qed.

Lemma safe_followRelation relations subQuery pathParts :
  forall parentCollection parentAlias,
    safe (followRelation schema host relations subQuery pathParts
            parentCollection parentAlias).
Proof.
  induction pathParts as [|segment rest IH]; intros parentCollection parentAlias;
    simpl.
  - apply safe_throw; discriminate.
  - safe_auto; try apply safe_pathScope; apply IH.
Qed.

Lemma safe_addJoin relations subQuery path collection :
  safe (addJoin schema host relations subQuery path collection).
Proof. apply safe_followRelation. Qed.

Lemma safe_applySort rootSort collection subQuery :
  safe (applySort schema host rootSort collection subQuery).
Proof. unfold applySort. safe_auto; apply safe_addJoin. Qed.

Lemma safe_validateFilterOperator t o sp :
  safe (validateFilterOperator host t o sp).
Proof. unfold validateFilterOperator. safe_auto. Qed.

Lemma safe_lowerCased v : safe (lowerCased host v).
Proof. unfold lowerCased. safe_auto. Qed.

Lemma safe_lengthIsNot2 v : safe (lengthIsNot2 v).
Proof. unfold lengthIsNot2. safe_auto. Qed.

Lemma safe_applyFilterToQuery key operator compareValue logical' original :
  safe (applyFilterToQuery schema host key operator compareValue logical' original).
Proof.
  unfold applyFilterToQuery.
  safe_auto; try apply safe_lowerCased; try apply safe_lengthIsNot2.
Qed.

Lemma safe_applySearch searchQuery collection :
  safe (applySearch schema host searchQuery collection).
Proof. unfold applySearch. safe_auto. Qed.

Lemma safe_aggregateField collection operation field :
  safe (aggregateField collection operation field).
Proof. unfold aggregateField. safe_auto. Qed.

Lemma safe_applyAggregate spec collection :
  safe (applyAggregate spec collection).
Proof.
  unfold applyAggregate. apply safe_forEach. intros [operation [fields|]] _.
  - apply safe_forEach. intros field _. apply safe_aggregateField.
  - apply safe_ret.
Qed.

End SafeCompiler.


Lemma safe_bind_lift {A B : Type} (r : result A) (f : A -> M B) :
  (forall a, r = ROk a -> safe (f a)) -> safe (bind (lift r) f).
Proof.
  intros H. destruct r as [a|]; simpl.
  - intros s s'. unfold bind; simpl. apply (H a eq_refl).
  - intros s s'. unfold bind; simpl. discriminate.
Qed.

Lemma depth_item (items : list value) (x : value) :
  In x items -> depth x < depth (VArr items).
Proof.
  intros H. simpl. apply Nat.lt_succ_r.
  induction items as [|y items IH]; [destruct H|].
  simpl. destruct H as [->|H]; [apply Nat.le_max_l|].
  etransitivity; [apply IH, H | apply Nat.le_max_r].
Qed.

Lemma depth_entry (es : list (string * value)) (k : string) (x : value) :
  In (k, x) es -> depth x < depth (VObj es).
Proof.
  intros H. simpl. apply Nat.lt_succ_r.
  induction es as [|e es IH]; [destruct H|].
  simpl. destruct H as [->|H]; [apply Nat.le_max_l|].
  etransitivity; [apply IH, H | apply Nat.le_max_r].
Qed.

Lemma chars_single (s c : string) :
  In c (Str.chars s) -> exists a, c = String a EmptyString.
Proof.
  induction s as [|a s IH]; simpl; [intros []|].
  intros [<-|H]; [exists a; reflexivity | exact (IH H)].
Qed.

Lemma index_not_logical (i : nat) : isLogicalKey (Str.of_nat i) = false.
Proof.
  unfold Str.of_nat. destruct (Nat.to_uint i); reflexivity.
Qed.

Lemma index_not_underscore (i : nat) : Str.startsWith "_" (Str.of_nat i) = false.
Proof.
  unfold Str.of_nat. destruct (Nat.to_uint i); reflexivity.
Qed.

(** The entries of a string: an index and one character each. *)
Lemma entries_of_string (s k : string) (x : value) :
  In (k, x) (combine (Js.indices (Str.chars s)) (map VStr (Str.chars s))) ->
  isLogicalKey k = false /\ exists a, x = VStr (String a EmptyString).
Proof.
  intros H. split.
  - apply in_combine_l in H. unfold Js.indices in H.
    apply in_map_iff in H. destruct H as [i [<- _]]. apply index_not_logical.
  - apply in_combine_r in H. apply in_map_iff in H. destruct H as [c [<- Hc]].
    destruct (chars_single _ _ Hc) as [a ->]. exists a. reflexivity.
Qed.

(** The entries of an object or an array lie one level deeper. *)
Lemma entries_depth (v : value) (es : list (string * value)) (k : string) (x : value) :
  Js.entries v = ROk es ->
  (forall s, v <> VStr s) ->
  In (k, x) es -> depth x < depth v.
Proof.
  intros E Hs Hin. destruct v; simpl in E; try discriminate E;
    injection E as <-; try destruct Hin.
  - exfalso. exact (Hs s eq_refl).
  - apply depth_item. exact (in_combine_r _ _ _ _ Hin).
  - exact (depth_entry _ _ _ Hin).
Qed.

Lemma iterate_depth (v : value) (subs : list value) (sub : value) :
  Js.iterate v = ROk subs -> In sub subs -> depth sub <= depth v.
Proof.
  intros E Hin. destruct v; simpl in E; try discriminate E; injection E as <-.
  - apply in_map_iff in Hin. destruct Hin as [c [<- _]]. simpl. apply Nat.le_refl.
  - apply Nat.lt_le_incl, depth_item, Hin.
Qed.

Lemma string_or_not (v : value) : (exists s, v = VStr s) \/ (forall s, v <> VStr s).
Proof. destruct v; try (right; discriminate). left. exists s. reflexivity. Qed.

Section Termination.

Variable schema : SchemaOverview.
Variable host : Host.

Lemma safe_addJoins fuel :
  forall relations subQuery v collection,
    depth v < fuel ->
    safe (addJoins schema host fuel relations subQuery v collection).
Proof.
  induction fuel as [|fuel IH]; intros relations subQuery v collection Hfuel; [lia|].
  rewrite addJoins_unfold.
  apply safe_bind_lift. intros es Ees. apply safe_forEach. intros [k x] Hin.
  cbn beta iota.
  assert (Hleaf : safe (filterPath <- lift (getFilterPath k x) ;;
                        when (1 <? length filterPath)%nat
                          (addJoin schema host relations subQuery filterPath collection))).
  { apply safe_bind; [apply safe_lift|]. intros path.
    apply safe_when, safe_addJoin. }
  destruct (string_or_not v) as [[s ->]|Hv].
  - simpl in Ees. injection Ees as <-.
    destruct (@entries_of_string _ _ _ Hin) as [Hlog _]. rewrite Hlog. exact Hleaf.
  - pose proof (@entries_depth v es k x Ees Hv Hin) as Hx.
    destruct (isLogicalKey k); [|exact Hleaf].
    apply safe_bind; [apply safe_lift|]. intros [|]; [apply safe_ret|].
    apply safe_bind_lift. intros subs Hsubs. apply safe_forEach. intros sub Hsub.
    apply IH. pose proof (@iterate_depth _ _ _ Hsubs Hsub). lia.
Qed.

Lemma safe_bind_ret {A B : Type} (a : A) (f : A -> M B) :
  safe (f a) -> safe (bind (ret a) f).
Proof. intros H s s'. unfold bind; simpl. apply H. Qed.

Ltac quietly :=
  cbn -[validateFilterOperator applyFilterToQuery applyQuery addWhereClauses addJoins
        addJoin getFilterPath getOperation Js.iterate shortCircuits depth].

Ltac safe_leaf :=
  repeat match goal with
         | |- safe (bind (ret _) _) => apply safe_bind_ret
         | |- safe (bind (lift ?r) _) =>
             let a := fresh "a" in
             let Ha := fresh "Ha" in
             apply safe_bind_lift; intros a Ha;
             try (cbn in Ha; injection Ha as <-)
         | |- safe (bind _ _) => apply safe_bind; [|intros]
         | |- safe (ret _) => apply safe_ret
         | |- safe (throw _) => apply safe_throw; discriminate
         | |- safe (emit _) => apply safe_emit
         | |- safe (when _ _) => apply safe_when
         | |- safe (lift _) => apply safe_lift
         | |- safe (deref _) => apply safe_deref
         | |- safe getAliasMap => apply safe_getAliasMap
         | |- safe (validateFilterOperator _ _ _ _) => apply safe_validateFilterOperator
         | |- safe (applyFilterToQuery _ _ _ _ _ _ _) => apply safe_applyFilterToQuery
         | |- safe (addJoin _ _ _ _ _ _) => apply safe_addJoin
         | |- safe (forEach _ _) =>
             let x := fresh "x" in
             let Hx := fresh "Hx" in
             apply safe_forEach; intros x Hx
         | |- safe _ => progress quietly
         | |- safe (if ?b then _ else _) => destruct b
         | |- safe (match ?x with _ => _ end) => destruct x
         end.

Lemma safe_addWhereClauses fuel :
  forall relations subQuery v collection logical',
    depth v < fuel ->
    safe (addWhereClauses schema host fuel relations subQuery v collection logical').
Proof.
  induction fuel as [|fuel IH]; intros relations subQuery v collection logical' Hfuel;
    [lia|].
  rewrite addWhereClauses_unfold.
  apply safe_bind_lift. intros es Ees. apply safe_forEach. intros [k x] Hin.
  cbn beta iota.
  destruct (isLogicalKey k) eqn:Hlog; [|safe_leaf].
  destruct (string_or_not v) as [[s ->]|Hv].
  - simpl in Ees. injection Ees as <-.
    destruct (@entries_of_string _ _ _ Hin) as [Hno _]. rewrite Hno in Hlog.
    discriminate Hlog.
  - pose proof (@entries_depth v es k x Ees Hv Hin) as Hx.
    apply safe_bind; [apply safe_lift|]. intros [|]; [apply safe_ret|].
    apply safe_bind_lift. intros subs Hsubs. apply safe_forEach. intros sub Hsub.
    apply IH. pose proof (@iterate_depth _ _ _ Hsubs Hsub). lia.
Qed.

Lemma safe_applyFilter fuel v collection subQuery :
  depth v < fuel ->
  safe (applyFilter schema host fuel v collection subQuery).
Proof.
  intros Hfuel. rewrite applyFilter_unfold.
  apply safe_bind; [apply safe_putAliasMap|intros _].
  apply safe_bind; [apply safe_addJoins; exact Hfuel|intros _].
  apply safe_addWhereClauses. exact Hfuel.
Qed.

End Termination.


(** X30.  With three units of fuel for each level of nesting of its
    filter, and three more, [applyQuery] does not stop for want of fuel:
    what it ends with is the builder it returns, an exception of the
    program or, for a sort on two or more relational fields, the mark of
    an interleaved run. *)
Theorem applyQuery_ends schema host fuel collection q subQuery :
  match filter q with
  | Some rootFilter => 3 * depth rootFilter + 3 <= fuel
  | None => 1 <= fuel
  end ->
  safe (applyQuery schema host fuel collection q subQuery).
Proof.
  intros Hfuel.
  rewrite applyQuery_unfold.
  apply safe_bind; [destruct (sort q); [apply safe_applySort|apply safe_ret]|intros _].
  apply safe_bind;
    [destruct (limit q); [apply safe_when, safe_emit|apply safe_ret]|intros _].
  apply safe_bind;
    [destruct (offset q); [apply safe_when, safe_emit|apply safe_ret]|intros _].
  apply safe_bind;
    [destruct (page q); [destruct (limit q); [apply safe_when, safe_emit|]|];
     apply safe_ret|intros _].
  apply safe_bind;
    [destruct (search q); [apply safe_when, safe_applySearch|apply safe_ret]|intros _].
  apply safe_bind; [destruct (group q); [apply safe_emit|apply safe_ret]|intros _].
  apply safe_bind;
    [destruct (aggregate q); [apply safe_applyAggregate|apply safe_ret]|intros _].
  destruct (filter q) as [rootFilter|]; [|apply safe_ret].
  apply safe_when. apply safe_applyFilter. lia.
Qed.

(** On the sample schema: a to-many filter two levels deep returns with
    the budget the bound gives. *)
Example sample_filter_compiles_within_budget :
  let rootFilter :=
    VObj [("articles", VObj [("_some", VObj [("title", VObj [("_eq", VStr "x")])])])] in
  3 * depth rootFilter + 3 = 18
  /\ exists s', applyQuery Sample.schema Sample.host 18 "authors" (filterOnly rootFilter)
                  false start = Ok tt s'.
Proof. split; [reflexivity|]. eexists. vm_compute. reflexivity. Qed.

Lemma applyQuery_ends_witness :
  safe (applyQuery Sample.schema Sample.host 18 "authors"
          (filterOnly
             (VObj [("articles",
                     VObj [("_some", VObj [("title", VObj [("_eq", VStr "x")])])])]))
          false).
Proof.
  apply applyQuery_ends. simpl. lia.
Defined.

(** * Further properties of the compiler *)

(** ** Paths and operations of a filter entry *)

Lemma getOperation_bounded (n : nat) :
  forall key v op x,
    depth v < n ->
    getOperation key v = ROk (op, x) ->
    Str.startsWith "_" op = true /\ isLogicalKey op = false.
Proof.
  induction n as [|n IH]; intros key v op x Hdepth H; [lia|].
  destruct v; simpl in H;
    try (destruct (Str.startsWith "_" key && negb (key =? "_and")%string
                   && negb (key =? "_or")%string) eqn:E;
         injection H as <- <-;
         [apply andb_prop in E; destruct E as [E Hor];
          apply andb_prop in E; destruct E as [Hstart Hand];
          split; [exact Hstart|];
          unfold isLogicalKey;
          apply negb_true_iff in Hor; apply negb_true_iff in Hand;
          rewrite Hor, Hand; reflexivity
         |split; reflexivity]).
  destruct (Str.startsWith "_" key && negb (key =? "_and")%string
            && negb (key =? "_or")%string) eqn:E.
  - injection H as <- <-.
    apply andb_prop in E; destruct E as [E Hor].
    apply andb_prop in E; destruct E as [Hstart Hand].
    split; [exact Hstart|]. unfold isLogicalKey.
    apply negb_true_iff in Hor; apply negb_true_iff in Hand.
    rewrite Hor, Hand; reflexivity.
  - destruct entries as [|[k y] es]; [discriminate H|].
    apply (IH k y op x); [|exact H].
    pose proof (@depth_entry ((k, y) :: es) k y (or_introl eq_refl)). lia.
Qed.

(** X1.  The operator [getOperation] finds always starts with an
    underscore and is never [_and] or [_or]: it is a key of the filter
    that starts with an underscore, or the implicit [_eq]. *)
Theorem getOperation_gives_an_operator :
  forall key v op x,
    getOperation key v = ROk (op, x) ->
    Str.startsWith "_" op = true /\ isLogicalKey op = false.
Proof.
  intros key v op x H.
  exact (@getOperation_bounded (S (depth v)) key v op x (Nat.lt_succ_diag_r _) H).
Qed.

Lemma getOperation_gives_an_operator_witness :
  getOperation "author" (VObj [("_or", VArr [VObj [("name", VStr "x")]])])
  = ROk ("_eq", VArr [VObj [("name", VStr "x")]])
  /\ Str.startsWith "_" "_eq" = true /\ isLogicalKey "_eq" = false.
Proof.
  split; [reflexivity|].
  exact (@getOperation_gives_an_operator "author"
           (VObj [("_or", VArr [VObj [("name", VStr "x")]])]) "_eq"
           (VArr [VObj [("name", VStr "x")]]) eq_refl).
Defined.

Lemma firstKey_not_underscore_bare (v : value) (k : string) :
  Js.isPlainObject v = false ->
  Js.firstKey v = ROk (Some k) ->
  Str.startsWith "_" k = false.
Proof.
  intros Hplain H. unfold Js.firstKey, Js.keys in H.
  destruct v; simpl in H; try discriminate H; try discriminate Hplain.
  - unfold Js.indices in H. destruct (Str.chars s); simpl in H; [discriminate H|].
    injection H as <-. reflexivity.
  - unfold Js.indices in H. destruct items; simpl in H; [discriminate H|].
    injection H as <-. reflexivity.
Qed.

Lemma getFilterPath_bare (key : string) (v : value) :
  Js.isPlainObject v = false -> v <> VNull -> v <> VUndef ->
  getFilterPath key v = ROk [key].
Proof.
  intros Hplain Hnull Hundef.
  destruct v; try congruence; try discriminate Hplain; try reflexivity.
  - unfold getFilterPath.
    destruct (Js.firstKey (VStr s)) as [[k|]|] eqn:E; try reflexivity.
    + rewrite (firstKey_not_underscore_bare (VStr s) eq_refl E). reflexivity.
    + discriminate E.
  - unfold getFilterPath.
    destruct (Js.firstKey (VArr items)) as [[k|]|] eqn:E; try reflexivity.
    + rewrite (firstKey_not_underscore_bare (VArr items) eq_refl E). reflexivity.
    + discriminate E.
Qed.

Lemma getFilterPath_step (key k : string) (x : value) (es : list (string * value)) :
  Str.startsWith "_" k = false ->
  getFilterPath key (VObj ((k, x) :: es))
  = match getFilterPath k x with
    | ROk path => ROk (key :: path)
    | RTypeError => RTypeError
    end.
Proof. intros H. simpl. rewrite H. reflexivity. Qed.

Lemma getOperation_step (key k : string) (x : value) (es : list (string * value)) :
  Str.startsWith "_" key = false ->
  getOperation key (VObj ((k, x) :: es)) = getOperation k x.
Proof. intros H. simpl. rewrite H. reflexivity. Qed.

Lemma getOperation_here (op : string) (v : value) :
  Str.startsWith "_" op = true -> isLogicalKey op = false ->
  getOperation op v = ROk (op, v).
Proof.
  intros Hstart Hlog. unfold isLogicalKey in Hlog.
  apply orb_false_elim in Hlog. destruct Hlog as [Hor Hand].
  destruct v; simpl; rewrite Hstart, Hor, Hand; reflexivity.
Qed.

Lemma getOperation_bare (key : string) (v : value) :
  Str.startsWith "_" key = false -> Js.isPlainObject v = false ->
  getOperation key v = ROk ("_eq", v).
Proof.
  intros Hkey Hplain.
  destruct v; simpl; rewrite Hkey; try reflexivity. discriminate Hplain.
Qed.

(** X2.  Path and operation of a nested leaf.  For a key and nested keys
    that do not start with an underscore, the entry
    [key: {k1: {... {op: v}}}] with an operator [op] has the path
    [key, k1, ...] and the operation [(op, v)]; the same entry ending in
    a bare value [v] (not an object, [null] or [undefined]) has the same
    path and the operation [(_eq, v)]. *)
Theorem nested_leaf_path_and_operation :
  forall keys key,
    Str.startsWith "_" key = false ->
    forallb (fun k => negb (Str.startsWith "_" k)) keys = true ->
    (forall op v,
        Str.startsWith "_" op = true -> isLogicalKey op = false ->
        getFilterPath key (nest keys (VObj [(op, v)])) = ROk (key :: keys)
        /\ getOperation key (nest keys (VObj [(op, v)])) = ROk (op, v))
    /\ (forall v,
          Js.isPlainObject v = false -> v <> VNull -> v <> VUndef ->
          getFilterPath key (nest keys v) = ROk (key :: keys)
          /\ getOperation key (nest keys v) = ROk ("_eq", v)).
Proof.
  induction keys as [|k keys IH]; intros key Hkey Hkeys.
  - split.
    + intros op v Hstart Hlog. split.
      * simpl. rewrite Hstart. reflexivity.
      * simpl nest. rewrite (getOperation_step key op v [] Hkey).
        apply getOperation_here; assumption.
    + intros v Hplain Hnull Hundef. split.
      * apply getFilterPath_bare; assumption.
      * apply getOperation_bare; assumption.
  - simpl in Hkeys. apply andb_prop in Hkeys. destruct Hkeys as [Hk Hkeys].
    apply negb_true_iff in Hk.
    destruct (IH k Hk Hkeys) as [IHop IHbare]. split.
    + intros op v Hstart Hlog. destruct (IHop op v Hstart Hlog) as [Hp Ho].
      simpl nest. rewrite (getFilterPath_step key k _ [] Hk), Hp.
      rewrite (getOperation_step key k _ [] Hkey), Ho. split; reflexivity.
    + intros v Hplain Hnull Hundef.
      destruct (IHbare v Hplain Hnull Hundef) as [Hp Ho].
      simpl nest. rewrite (getFilterPath_step key k _ [] Hk), Hp.
      rewrite (getOperation_step key k _ [] Hkey), Ho. split; reflexivity.
Qed.

Lemma nested_leaf_path_and_operation_witness :
  getFilterPath "author" (VObj [("name", VObj [("_eq", VStr "Rijk")])])
  = ROk ["author"; "name"]
  /\ getOperation "author" (VObj [("name", VObj [("_eq", VStr "Rijk")])])
     = ROk ("_eq", VStr "Rijk").
Proof.
  exact (proj1 (@nested_leaf_path_and_operation ["name"] "author" eq_refl eq_refl)
           "_eq" (VStr "Rijk") eq_refl eq_refl).
Defined.

Lemma getFilterPath_no_value (key : string) (keys : list string) (inner : value) :
  forallb (fun k => negb (Str.startsWith "_" k)) keys = true ->
  inner = VNull \/ inner = VUndef \/ inner = VObj [] ->
  getFilterPath key (nest keys inner) = RTypeError.
Proof.
  revert key. induction keys as [|k keys IH]; intros key Hkeys Hinner.
  - destruct Hinner as [->|[->| ->]]; reflexivity.
  - simpl in Hkeys. apply andb_prop in Hkeys. destruct Hkeys as [Hk Hkeys].
    apply negb_true_iff in Hk.
    simpl nest. rewrite (getFilterPath_step key k _ [] Hk), (IH k Hkeys Hinner).
    reflexivity.
Qed.

(** X3.  An entry whose chain of keys ends in [null], [undefined] or an
    empty object stops both passes of the filter compiler with a
    TypeError, before anything is added to the builder for it: a bare
    [null] is not compared with. *)
Theorem entry_without_value_throws :
  forall schema host fuel relations subQuery collection logical' key keys inner rest s,
    isLogicalKey key = false ->
    forallb (fun k => negb (Str.startsWith "_" k)) keys = true ->
    inner = VNull \/ inner = VUndef \/ inner = VObj [] ->
    addJoins schema host (S fuel) relations subQuery
      (VObj ((key, nest keys inner) :: rest)) collection s
    = Throw TypeError s
    /\ addWhereClauses schema host (S fuel) relations subQuery
         (VObj ((key, nest keys inner) :: rest)) collection logical' s
       = Throw TypeError s.
Proof.
  intros schema host fuel relations subQuery collection logical' key keys inner rest s
    Hkey Hkeys Hinner.
  pose proof (@getFilterPath_no_value key keys inner Hkeys Hinner) as Hpath.
  split.
  - rewrite addJoins_unfold.
    cbn -[getFilterPath addJoin nest]. unfold bind.
    cbn -[getFilterPath addJoin nest]. rewrite Hkey, Hpath. reflexivity.
  - rewrite addWhereClauses_unfold.
    cbn -[getFilterPath getOperation validateFilterOperator applyFilterToQuery
          applyQuery nest].
    unfold bind.
    cbn -[getFilterPath getOperation validateFilterOperator applyFilterToQuery
          applyQuery nest].
    rewrite Hkey, Hpath. reflexivity.
Qed.

Lemma entry_without_value_throws_witness :
  addWhereClauses Sample.schema Sample.host 1 Sample.relations false
    (VObj [("title", VNull)]) "articles" LAnd start
  = Throw TypeError start.
Proof.
  exact (proj2 (@entry_without_value_throws Sample.schema Sample.host 0
                  Sample.relations false "articles" LAnd "title" [] VNull [] start
                  eq_refl eq_refl (or_introl eq_refl))).
Defined.

Lemma oneSegment_path (key : string) (v : value) :
  oneSegment v = true -> getFilterPath key v = ROk [key].
Proof.
  intros H. destruct v; try discriminate H.
  - reflexivity.
  - reflexivity.
  - apply getFilterPath_bare; [reflexivity|discriminate|discriminate].
  - apply getFilterPath_bare; [reflexivity|discriminate|discriminate].
  - destruct entries as [|[k x] es]; [discriminate H|].
    simpl in H. simpl. rewrite H. reflexivity.
Qed.

(** X4.  A filter whose entries all have a path of one segment (an
    operator object or a bare value under a key that is not [_and] or
    [_or]) passes the join pass without a join, an alias or a change of
    the alias map. *)
Theorem one_segment_filter_adds_no_join :
  forall schema host fuel relations subQuery collection es s,
    forallb (fun e : string * value =>
               negb (isLogicalKey (fst e)) && oneSegment (snd e)) es = true ->
    addJoins schema host (S fuel) relations subQuery (VObj es) collection s = Ok tt s.
Proof.
  intros schema host fuel relations subQuery collection es s Hes.
  rewrite addJoins_unfold. cbn -[getFilterPath addJoin forEach]. unfold bind at 1.
  cbn -[getFilterPath addJoin forEach].
  induction es as [|[k x] es IH]; [reflexivity|].
  simpl in Hes. apply andb_prop in Hes. destruct Hes as [Hhead Hes].
  apply andb_prop in Hhead. destruct Hhead as [Hlog Hone].
  apply negb_true_iff in Hlog.
  cbn -[getFilterPath addJoin]. unfold bind at 1.
  rewrite Hlog. unfold bind at 1. rewrite (@oneSegment_path k x Hone).
  cbn -[getFilterPath addJoin]. apply IH. exact Hes.
Qed.

Lemma one_segment_filter_adds_no_join_witness :
  addJoins Sample.schema Sample.host 1 Sample.relations false
    (VObj [("title", VObj [("_eq", VStr "x")]); ("views", VNum (Num 3))]) "articles"
    start
  = Ok tt start.
Proof.
  exact (@one_segment_filter_adds_no_join Sample.schema Sample.host 0 Sample.relations
           false "articles"
           [("title", VObj [("_eq", VStr "x")]); ("views", VNum (Num 3))] start eq_refl).
Defined.

(** ** What each pass of the filter compiler adds *)

(** X5.  The join pass of the filter compiler adds nothing but LEFT JOIN
    calls to the builder, on every filter and whether it returns or
    throws. *)
Theorem join_pass_adds_only_joins :
  forall schema host fuel relations subQuery filter' collection s,
  exists joins,
    query (final (addJoins schema host fuel relations subQuery filter' collection s))
    = query s ++ joins
    /\ forallb isJoin joins = true.
Proof.
  intros schema host fuel relations subQuery filter' collection s.
  destruct (@joins_addJoins schema host fuel relations subQuery filter' collection s)
    as [joins [E F]].
  exists joins. split; [exact E|]. apply forallb_forall.
  rewrite Forall_forall in F. exact F.
Qed.

(** X6.  [applyFilter] adds to the builder first LEFT JOIN calls, then
    where-calls, and nothing else: no limit, offset, order, group,
    aggregate or select, on every filter and whether it returns or
    throws. *)
Theorem applyFilter_adds_joins_then_wheres :
  forall schema host fuel rootFilter collection subQuery s,
  exists joins wheres,
    query (final (applyFilter schema host fuel rootFilter collection subQuery s))
    = query s ++ joins ++ wheres
    /\ forallb isJoin joins = true
    /\ forallb isWhereCall wheres = true.
Proof.
  intros schema host fuel rootFilter collection subQuery s.
  apply applyFilter_passes.
Qed.

Lemma appends_forEach_In (P : qop -> Prop) {A : Type} (body : A -> M unit)
    (xs : list A) :
  (forall x, In x xs -> appends P (body x)) -> appends P (forEach body xs).
Proof.
  induction xs as [|x xs IH]; intros H; simpl.
  - apply appends_ret.
  - apply appends_bind; [apply H; left; reflexivity|].
    intros _. apply IH. intros y Hy. apply H. right. exact Hy.
Qed.

Lemma appends_bind_ret (P : qop -> Prop) {A B : Type} (a : A) (k : A -> M B) :
  appends P (k a) -> appends P (bind (ret a) k).
Proof. intros H s. exact (H s). Qed.

Section Carries.

Variable schema : SchemaOverview.
Variable host : Host.
Variable l : logical.

Lemma carries_lowerCased v : appends (fun op => logicalOf op = Some l) (lowerCased host v).
Proof. unfold lowerCased. appends_with reflexivity. Qed.

Lemma carries_lengthIsNot2 v : appends (fun op => logicalOf op = Some l) (lengthIsNot2 v).
Proof. unfold lengthIsNot2. appends_with reflexivity. Qed.

Lemma carries_validateFilterOperator t o sp :
  appends (fun op => logicalOf op = Some l) (validateFilterOperator host t o sp).
Proof. unfold validateFilterOperator. appends_with reflexivity. Qed.

Lemma carries_applyFilterToQuery key operator compareValue original :
  appends (fun op => logicalOf op = Some l)
    (applyFilterToQuery schema host key operator compareValue l original).
Proof.
  unfold applyFilterToQuery.
  appends_with reflexivity; try apply carries_lowerCased;
    try apply carries_lengthIsNot2.
Qed.

Lemma carries_flat fuel relations subQuery filter' collection :
  flatFilter filter' = true ->
  appends (fun op => logicalOf op = Some l)
    (addWhereClauses schema host fuel relations subQuery filter' collection l).
Proof.
  intros Hflat. destruct fuel as [|fuel]; [apply appends_throw|].
  destruct filter' as [| | | | | |es]; try discriminate Hflat.
  simpl in Hflat. rewrite addWhereClauses_unfold.
  change (Js.entries (VObj es)) with (ROk es).
  change (lift (ROk es)) with (@ret (list (string * value)) es).
  apply appends_bind_ret. apply appends_forEach_In. intros [key v] Hin.
  rewrite forallb_forall in Hflat. specialize (Hflat _ Hin). simpl in Hflat.
  destruct (isLogicalKey key); [discriminate Hflat|].
  appends_with reflexivity; try apply carries_validateFilterOperator;
    try apply carries_applyFilterToQuery.
Qed.

Lemma carries_node fuel relations subQuery key children collection l0 :
  l = (if (key =? "_and")%string then LAnd else LOr) ->
  isLogicalKey key = true ->
  forallb flatFilter children = true ->
  appends (fun op => logicalOf op = Some l)
    (addWhereClauses schema host fuel relations subQuery
       (VObj [(key, VArr children)]) collection l0).
Proof.
  intros Hl Hkey Hflat. destruct fuel as [|fuel]; [apply appends_throw|].
  rewrite addWhereClauses_unfold.
  change (Js.entries (VObj [(key, VArr children)])) with (ROk [(key, VArr children)]).
  change (lift (ROk [(key, VArr children)]))
    with (@ret (list (string * value)) [(key, VArr children)]).
  apply appends_bind_ret. simpl forEach. rewrite Hkey.
  apply appends_bind; [|intros; apply appends_ret].
  apply appends_bind; [apply appends_lift|intros skip].
  destruct skip; [apply appends_ret|].
  change (Js.iterate (VArr children)) with (ROk children).
  change (lift (ROk children)) with (@ret (list value) children).
  apply appends_bind_ret. apply appends_forEach_In. intros child Hin.
  rewrite forallb_forall in Hflat. rewrite <- Hl.
  apply carries_flat. apply Hflat. exact Hin.
Qed.

End Carries.

(** X7.  The clauses of a filter object that has no [_and] and no [_or]
    key are all added with the combinator the filter is compiled under:
    every call it adds to the builder is a where-call with that
    combinator, whatever the fields and operators are and whether the
    compilation returns or throws. *)
Theorem flat_filter_clauses_carry_the_combinator :
  forall schema host fuel relations subQuery filter' collection l,
    flatFilter filter' = true ->
    appends (fun op => logicalOf op = Some l)
      (addWhereClauses schema host fuel relations subQuery filter' collection l).
Proof.
  intros schema host fuel relations subQuery filter' collection l Hflat.
  apply carries_flat. exact Hflat.
Qed.

Lemma flat_filter_clauses_carry_the_combinator_witness :
  flatFilter (VObj [("title", VObj [("_eq", VStr "a")]);
                    ("views", VObj [("_gt", VNum (Num 3))])]) = true
  /\ appends (fun op => logicalOf op = Some LOr)
       (addWhereClauses Sample.schema Sample.host 2 Sample.relations false
          (VObj [("title", VObj [("_eq", VStr "a")]);
                 ("views", VObj [("_gt", VNum (Num 3))])])
          "articles" LOr).
Proof.
  split; [reflexivity|].
  apply flat_filter_clauses_carry_the_combinator. reflexivity.
Defined.

(** X8.  Under an [_and] or [_or] key whose children are filter objects
    without logical keys, every clause is added straight to the enclosing
    builder with the key's own combinator (AND for [_and], OR for [_or]);
    the combinator the enclosing filter is compiled under plays no part. *)
Theorem logical_node_clauses_carry_its_combinator :
  forall schema host fuel relations subQuery key children collection l0,
    isLogicalKey key = true ->
    forallb flatFilter children = true ->
    appends (fun op => logicalOf op = Some (if (key =? "_and")%string then LAnd else LOr))
      (addWhereClauses schema host fuel relations subQuery
         (VObj [(key, VArr children)]) collection l0).
Proof.
  intros schema host fuel relations subQuery key children collection l0 Hkey Hflat.
  apply carries_node; [reflexivity|exact Hkey|exact Hflat].
Qed.

Lemma logical_node_clauses_carry_its_combinator_witness :
  isLogicalKey "_or" = true
  /\ forallb flatFilter [VObj [("title", VObj [("_eq", VStr "a")])];
                         VObj [("views", VObj [("_gt", VNum (Num 3))])]] = true
  /\ appends (fun op => logicalOf op = Some LOr)
       (addWhereClauses Sample.schema Sample.host 3 Sample.relations false
          (VObj [("_or", VArr [VObj [("title", VObj [("_eq", VStr "a")])];
                               VObj [("views", VObj [("_gt", VNum (Num 3))])]])])
          "articles" LAnd).
Proof.
  split; [reflexivity|]. split; [reflexivity|].
  apply (@logical_node_clauses_carry_its_combinator Sample.schema Sample.host 3
           Sample.relations false "_or"); reflexivity.
Defined.

(** ** Edges of [applyFilterToQuery] *)

Ltac split_operators H :=
  unfold Str.is_in, knownOperators, valueFreeOperators in H; simpl in H;
  repeat (apply orb_false_elim in H; let E := fresh "E" in destruct H as [E H]);
  clear H.

Ltac no_operator :=
  repeat match goal with
         | E : (_ =? _)%string = false |- _ => rewrite E; clear E
         end.

(** X9.  An [undefined] comparison value ends [applyFilterToQuery] right
    after the four operators that need no value: on a key with a column
    part and with any other operator, the call returns without a clause
    and without an exception. *)
Theorem undefined_value_adds_no_clause :
  forall schema host key operator l original column s,
    Str.is_in operator valueFreeOperators = false ->
    Str.nth 1 (Str.split "." key) = Some column ->
    applyFilterToQuery schema host key operator VUndef l original s = Ok tt s.
Proof.
  intros schema host key operator l original column s H Hcolumn.
  split_operators H. unfold applyFilterToQuery. cbv zeta. rewrite Hcolumn. no_operator.
  destruct s; reflexivity.
Qed.

Lemma undefined_value_adds_no_clause_witness :
  Str.is_in "_eq" valueFreeOperators = false
  /\ Str.nth 1 (Str.split "." "articles.title") = Some "title"
  /\ applyFilterToQuery Sample.schema Sample.host "articles.title" "_eq" VUndef LAnd
       None start = Ok tt start.
Proof.
  split; [reflexivity|]. split; [reflexivity|].
  apply (@undefined_value_adds_no_clause Sample.schema Sample.host "articles.title"
           "_eq" LAnd None "title" start); reflexivity.
Defined.

(** X10.  An operator that is none of the thirty-two [applyFilterToQuery]
    tests for is dropped in silence: on a key with a column part the call
    returns with the builder as it was. *)
Theorem unknown_operator_is_dropped :
  forall schema host key operator compareValue l original column s,
    Str.is_in operator knownOperators = false ->
    Str.nth 1 (Str.split "." key) = Some column ->
    applyFilterToQuery schema host key operator compareValue l original s = Ok tt s.
Proof.
  intros schema host key operator compareValue l original column s H Hcolumn.
  split_operators H. unfold applyFilterToQuery. cbv zeta. rewrite Hcolumn.
  no_operator. destruct s. destruct (isUndefined compareValue); reflexivity.
Qed.

Lemma unknown_operator_is_dropped_witness :
  Str.is_in "_regex" knownOperators = false
  /\ Str.nth 1 (Str.split "." "articles.title") = Some "title"
  /\ applyFilterToQuery Sample.schema Sample.host "articles.title" "_regex" (VStr "a")
       LAnd None start = Ok tt start.
Proof.
  split; [reflexivity|]. split; [reflexivity|].
  apply (@unknown_operator_is_dropped Sample.schema Sample.host "articles.title"
           "_regex" (VStr "a") LAnd None "title" start); reflexivity.
Defined.

(** X11.  [_null] and [_nnull] with the value [false] each add both the
    IS NULL and the IS NOT NULL clause, in that order, and nothing else:
    the negated form does not replace the plain one. *)
Theorem null_operator_with_false_adds_both_clauses :
  forall schema host key operator l original column s,
    operator = "_null" \/ operator = "_nnull" ->
    Str.nth 1 (Str.split "." key) = Some column ->
    applyFilterToQuery schema host key operator (VBool false) l original s
    = Ok tt (emitted s
               [WhereNull l (RawCol (getColumn host (hd EmptyString (Str.split "." key))
                                       (Some column)));
                WhereNotNull l (RawCol (getColumn host (hd EmptyString (Str.split "." key))
                                          (Some column)))]).
Proof.
  intros schema host key operator l original column s H Hcolumn.
  unfold applyFilterToQuery. cbv zeta. rewrite Hcolumn.
  destruct H as [-> | ->]; destruct s; unfold emitted; cbn -[Str.split getColumn];
    rewrite <- app_assoc; reflexivity.
Qed.

Lemma null_operator_with_false_adds_both_clauses_witness :
  ("_nnull" = "_null" \/ "_nnull" = "_nnull")
  /\ Str.nth 1 (Str.split "." "articles.title") = Some "title"
  /\ applyFilterToQuery Sample.schema Sample.host "articles.title" "_nnull"
       (VBool false) LAnd None start
     = Ok tt (emitted start
                [WhereNull LAnd
                   (RawCol (getColumn Sample.host
                              (hd EmptyString (Str.split "." "articles.title"))
                              (Some "title")));
                 WhereNotNull LAnd
                   (RawCol (getColumn Sample.host
                              (hd EmptyString (Str.split "." "articles.title"))
                              (Some "title")))]).
Proof.
  split; [right; reflexivity|]. split; [reflexivity|].
  apply (@null_operator_with_false_adds_both_clauses Sample.schema Sample.host
           "articles.title" "_nnull" LAnd None "title" start);
    [right; reflexivity|reflexivity].
Defined.


(** ** Validation of the operator *)

(** X12.  Validation looks the operator up without its leading
    underscore, so an operator written with or without the underscore is
    accepted or rejected alike. *)
Theorem validation_ignores_the_underscore :
  forall host type' operator special',
    Str.startsWith "_" operator = false ->
    validateFilterOperator host type' ("_" ++ operator) special'
    = validateFilterOperator host type' operator special'.
Proof.
  intros host type' operator special' H. unfold validateFilterOperator.
  assert (E : Str.startsWith "_" ("_" ++ operator) = true)
    by (unfold Str.startsWith; simpl; destruct operator; reflexivity).
  rewrite H, E. reflexivity.
Qed.

Lemma validation_ignores_the_underscore_witness :
  Str.startsWith "_" "eq" = false
  /\ validateFilterOperator Sample.host "string" ("_" ++ "eq") []
     = validateFilterOperator Sample.host "string" "eq" [].
Proof.
  split; [reflexivity|].
  apply validation_ignores_the_underscore. reflexivity.
Defined.

(** ** Hops of the join resolver *)

(** X13.  A one-to-many hop at the root of a path, outside a subquery,
    draws an alias and records it in the alias map but adds no join, and
    the rest of the path is not followed. *)
Theorem o2m_root_hop_adds_no_join :
  forall schema host relations segment rest parentCollection relation s,
    getRelationInfo host relations parentCollection
      (hd EmptyString (Str.split ":" segment)) = (Some relation, Some o2m) ->
    followRelation schema host relations false (segment :: rest) parentCollection
      None s
    = Ok tt (afterHop host s (segment :: rest) []).
Proof.
  intros schema host relations segment rest parentCollection relation s Hinfo.
  simpl. rewrite Hinfo. unfold afterHop. destruct s as [q am n]. simpl.
  rewrite app_nil_r. reflexivity.
Qed.

Lemma o2m_root_hop_adds_no_join_witness :
  followRelation Sample.schema Sample.host Sample.relations false ["articles"; "title"]
    "authors" None start
  = Ok tt {| query := []; aliasMap := [("articles", AObj [("title", AStr "aaaaa")])];
             drawn := 1 |}.
Proof.
  apply (@o2m_root_hop_adds_no_join Sample.schema Sample.host Sample.relations
           "articles" ["title"] "authors" Sample.articles_author start).
  reflexivity.
Defined.

(** X14.  A one-to-many hop inside a subquery joins the many side on the
    parent's primary key and goes on from the many side under the new
    alias. *)
Theorem o2m_hop_in_subquery_joins :
  forall schema host relations segment rest parentCollection parentAlias relation
         info s,
    getRelationInfo host relations parentCollection
      (hd EmptyString (Str.split ":" segment)) = (Some relation, Some o2m) ->
    collectionInfoOf schema (related_collection relation) = Some info ->
    followRelation schema host relations true (segment :: rest) parentCollection
      parentAlias s
    = match rest with
      | [] => ret tt
      | _ :: _ =>
          followRelation schema host relations true rest (relation_collection relation)
            (Some (generateAlias host (drawn s)))
      end
        (afterHop host s (aliasKey parentAlias (segment :: rest))
           [LeftJoin (generateAlias host (drawn s)) (relation_collection relation)
              (dotted (orElse parentAlias parentCollection) (primary info))
              (dotted (generateAlias host (drawn s)) (relation_field relation))]).
Proof.
  intros schema host relations segment rest parentCollection parentAlias relation
    info s Hinfo Hcol.
  simpl. rewrite Hinfo, Hcol. unfold afterHop, aliasKey.
  destruct s as [q am n]; simpl. unfold bind; simpl.
  destruct rest; reflexivity.
Qed.

Lemma o2m_hop_in_subquery_joins_witness :
  followRelation Sample.schema Sample.host Sample.relations true ["articles"; "title"]
    "authors" None start
  = Ok tt {| query := [LeftJoin "aaaaa" "articles" "authors.id" "aaaaa.author"];
             aliasMap := [("articles", AObj [("title", AStr "aaaaa")])];
             drawn := 1 |}.
Proof.
  exact (@o2m_hop_in_subquery_joins Sample.schema Sample.host Sample.relations
           "articles" ["title"] "authors" None Sample.articles_author
           {| primary := "id" |} start eq_refl eq_refl).
Defined.

(** X15.  A one-to-any hop outside a subquery adds its join, on the
    discriminator column and the cast primary key of the parent, and the
    path is not followed further. *)
Theorem o2a_hop_joins_and_stops :
  forall schema host relations segment rest parentCollection parentAlias relation
         m info s,
    getRelationInfo host relations parentCollection
      (hd EmptyString (Str.split ":" segment)) = (Some relation, Some o2a) ->
    meta relation = Some m ->
    getCollection schema parentCollection = Some info ->
    followRelation schema host relations false (segment :: rest) parentCollection
      parentAlias s
    = Ok tt
        (afterHop host s (aliasKey parentAlias (segment :: rest))
           [LeftJoinOn (generateAlias host (drawn s)) (relation_collection relation)
              (one_collection_field m) parentCollection
              (dotted (generateAlias host (drawn s)) (relation_field relation))
              (KnexRaw castChar
                 [dotted (orElse parentAlias parentCollection) (primary info)])]).
Proof.
  intros schema host relations segment rest parentCollection parentAlias relation
    m info s Hinfo Hmeta Hcol.
  simpl. rewrite Hinfo, Hmeta, Hcol. unfold afterHop, aliasKey.
  destruct s as [q am n]; simpl. reflexivity.
Qed.

Lemma o2a_hop_joins_and_stops_witness :
  followRelation Sample.schema Site.host Sample.relations false ["blocks"; "id"]
    "articles" None start
  = Ok tt {| query := [LeftJoinOn "aaaaa" "blocks" (Some "collection") "articles"
                         "aaaaa.item" (KnexRaw castChar ["articles.id"])];
             aliasMap := [("blocks", AObj [("id", AStr "aaaaa")])];
             drawn := 1 |}.
Proof.
  exact (@o2a_hop_joins_and_stops Sample.schema Site.host Sample.relations
           "blocks" ["id"] "articles" None Sample.blocks_item
           {| one_collection_field := Some "collection" |} {| primary := "id" |} start
           eq_refl eq_refl eq_refl).
Defined.

(** ** Sorting *)

Lemma split_without_separator (c : ascii) (s : string) :
  Str.includes_char c s = false -> Str.split c s = [s].
Proof.
  induction s as [|a r IH]; simpl; intros H; [reflexivity|].
  apply orb_false_elim in H. destruct H as [Ha Hr].
  rewrite Ha, (IH Hr). reflexivity.
Qed.

Lemma mapM_pure {A B : Type} (f : A -> M B) (g : A -> B) (xs : list A) :
  (forall x s, In x xs -> f x s = Ok (g x) s) ->
  forall s, mapM f xs s = Ok (map g xs) s.
Proof.
  induction xs as [|x xs IH]; intros H s; simpl; [reflexivity|].
  unfold bind. rewrite (H x s (or_introl eq_refl)).
  rewrite IH by (intros y s0 Hy; apply H; right; exact Hy). reflexivity.
Qed.

Lemma mapM_results {A B : Type} (f : A -> M B) (R : A -> B -> Prop) (xs : list A) :
  (forall x s r s', f x s = Ok r s' -> R x r) ->
  forall s rs s', mapM f xs s = Ok rs s' -> Forall2 R xs rs.
Proof.
  intros H. induction xs as [|x xs IH]; intros s rs s'; simpl.
  - intros E. injection E as <- _. constructor.
  - unfold bind. destruct (f x s) as [r s1|e s1] eqn:Ef; [|discriminate].
    destruct (mapM f xs s1) as [rs1 s2|e s2] eqn:Em; [|discriminate].
    intros E. injection E as <- _. constructor; [exact (H _ _ _ _ Ef)|].
    exact (IH _ _ _ Em).
Qed.

Lemma own_columns_not_relational (rootSort : list string) :
  forallb (fun sortField => negb (Str.includes_char "." sortField)) rootSort = true ->
  List.filter relational rootSort = [].
Proof.
  induction rootSort as [|sortField rest IH]; simpl; [reflexivity|].
  intros H. apply andb_prop in H. destruct H as [Hfield Hrest].
  apply negb_true_iff in Hfield. unfold relational at 1.
  rewrite (split_without_separator _ _ Hfield). simpl. exact (IH Hrest).
Qed.

(** X16.  Sorting on columns of the collection itself (no dot in any sort
    field) adds exactly one ORDER BY call and no join: one column per sort
    field, in the order given, descending for a field with a leading
    minus, which is taken off the column name; the alias map of the sort
    stays empty. *)
Theorem sort_on_own_columns :
  forall schema host rootSort collection subQuery s,
    forallb (fun sortField => negb (Str.includes_char "." sortField)) rootSort = true ->
    applySort schema host rootSort collection subQuery s
    = Ok tt {| query := query s
                 ++ [OrderBy (map (fun sortField =>
                                     (direction sortField,
                                      getColumn host collection
                                        (Some (unsigned sortField)))) rootSort)];
               aliasMap := [];
               drawn := drawn s |}.
Proof.
  intros schema host rootSort collection subQuery s H.
  unfold applySort. cbv zeta. rewrite (own_columns_not_relational _ H).
  change (when (1 <? length (@nil string))%nat (throw Interleaved)) with (ret tt).
  unfold bind at 1. unfold putAliasMap at 1. unfold bind at 1. unfold ret at 1.
  unfold bind at 1.
  rewrite (@mapM_pure _ _ _
             (fun sortField =>
                (direction sortField,
                 getColumn host collection (Some (unsigned sortField)))) rootSort).
  - reflexivity.
  - intros sortField s0 Hin. rewrite forallb_forall in H. specialize (H _ Hin).
    apply negb_true_iff in H. rewrite (split_without_separator _ _ H).
    unfold direction, unsigned. simpl.
    destruct (Str.startsWith "-" sortField); reflexivity.
Qed.

Lemma sort_on_own_columns_witness :
  forallb (fun sortField => negb (Str.includes_char "." sortField))
    ["-views"; "title"] = true
  /\ applySort Sample.schema Sample.host ["-views"; "title"] "articles" false start
     = Ok tt {| query := query start
                  ++ [OrderBy (map (fun sortField =>
                                      (direction sortField,
                                       getColumn Sample.host "articles"
                                         (Some (unsigned sortField))))
                                 ["-views"; "title"])];
                aliasMap := [];
                drawn := drawn start |}.
Proof.
  split; [reflexivity|].
  apply sort_on_own_columns. reflexivity.
Defined.

Section Determined.

Variable schema : SchemaOverview.
Variable host : Host.

Lemma determined_ret {A : Type} (a : A) : determined (ret a).
Proof. intros s s'; discriminate. Qed.

Lemma determined_throw {A : Type} (e : exn) : e <> Interleaved -> determined (@throw A e).
Proof. intros H s s' E. injection E as E _. contradiction. Qed.

Lemma determined_bind {A B : Type} (m : M A) (f : A -> M B) :
  determined m -> (forall a, determined (f a)) -> determined (bind m f).
Proof.
  intros Hm Hf s s'. unfold bind. destruct (m s) as [a s1|e s1] eqn:E.
  - apply Hf.
  - intros E'. injection E' as -> ->. exact (Hm s s' E).
Qed.

Lemma determined_emit (op : qop) : determined (emit op).
Proof. intros s s'; discriminate. Qed.

Lemma determined_lift {A : Type} (r : result A) : determined (lift r).
Proof. destruct r; [apply determined_ret | apply determined_throw; discriminate]. Qed.

Lemma determined_deref {A : Type} (o : option A) : determined (deref o).
Proof. destruct o; [apply determined_ret | apply determined_throw; discriminate]. Qed.

Lemma determined_when (b : bool) (m : M unit) : determined m -> determined (when b m).
Proof. intros H. destruct b; [exact H | apply determined_ret]. Qed.

Lemma determined_getAliasMap : determined getAliasMap.
Proof. intros s s'; discriminate. Qed.

Lemma determined_putAliasMap (am : AliasMap) : determined (putAliasMap am).
Proof. intros s s'; discriminate. Qed.

Lemma determined_newAlias : determined (newAlias host).
Proof. intros s s'; discriminate. Qed.

Lemma determined_mapM {A B : Type} (f : A -> M B) (xs : list A) :
  (forall x, determined (f x)) -> determined (mapM f xs).
Proof.
  intros H; induction xs as [|x xs IH]; simpl.
  - apply determined_ret.
  - apply determined_bind; [apply H|]. intros y.
    apply determined_bind; [exact IH|]. intros ys. apply determined_ret.
Qed.

Ltac determined_step :=
  match goal with
  | |- determined (bind _ _) => apply determined_bind; [|intros]
  | |- determined (ret _) => apply determined_ret
  | |- determined (throw _) => apply determined_throw; discriminate
  | |- determined (emit _) => apply determined_emit
  | |- determined (when _ _) => apply determined_when
  | |- determined (lift _) => apply determined_lift
  | |- determined (deref _) => apply determined_deref
  | |- determined getAliasMap => apply determined_getAliasMap
  | |- determined (putAliasMap _) => apply determined_putAliasMap
  | |- determined (newAlias _) => apply determined_newAlias
  | |- determined (mapM _ _) => apply determined_mapM; intros
  | |- determined (if ?b then _ else _) => destruct b
  | |- determined (match ?x with _ => _ end) => destruct x
  | |- determined _ => progress cbv beta zeta
  end.

Lemma determined_pathScope (segment : string) : determined (pathScope segment).
Proof. unfold pathScope. repeat determined_step. Qed.

Lemma determined_followRelation relations subQuery pathParts :
  forall parentCollection parentAlias,
    determined (followRelation schema host relations subQuery pathParts
                  parentCollection parentAlias).
Proof.
  induction pathParts as [|segment rest IH]; intros parentCollection parentAlias;
    simpl.
  - apply determined_throw; discriminate.
  - repeat determined_step; try apply determined_pathScope; apply IH.
Qed.

(** The fields of a sort, visited in order. *)
Lemma determined_sortFields relations rootSort collection subQuery :
  determined
    (mapM (fun sortField : string =>
       let column := Str.split "." sortField in
       if (1 <? length column)%nat then
         let order := if Str.startsWith "-" sortField then desc else asc in
         let column :=
           match column with
           | c0 :: cs => (if Str.startsWith "-" c0 then Str.drop1 c0 else c0) :: cs
           | [] => []
           end in
         addJoin schema host relations subQuery column collection ;;
         am <- getAliasMap ;;
         let columnPath := fst (getColumnPath host column collection am relations) in
         let parts := Str.split "." columnPath in
         ret (order, getColumn host (hd EmptyString parts) (Str.nth 1 parts))
       else
         let c0 := hd EmptyString column in
         if Str.startsWith "-" sortField
         then ret (desc, getColumn host collection (Some (Str.drop1 c0)))
         else ret (asc, getColumn host collection (Some c0)))
       rootSort).
Proof.
  apply determined_mapM. intros sortField.
  repeat determined_step. unfold addJoin. apply determined_followRelation.
Qed.

End Determined.

(** X17.  With at most one relational sort field, where the outcome does
    not hang on the order in which the fields are resumed, [applySort]
    adds LEFT JOIN calls and then, if it returns, one ORDER BY call that
    ends its calls, with one column per sort field whose direction is the
    one of the field's sign; if it throws, it throws an exception of the
    program and has added joins only. *)
Theorem sort_adds_joins_then_one_order :
  forall schema host rootSort collection subQuery s,
    length (List.filter relational rootSort) <= 1 ->
    exists joins,
      forallb isJoin joins = true
      /\ match applySort schema host rootSort collection subQuery s with
         | Ok _ s' =>
             exists mapped,
               query s' = query s ++ joins ++ [OrderBy mapped]
               /\ map fst mapped = map direction rootSort
         | Throw e s' => e <> Interleaved /\ query s' = query s ++ joins
         end.
Proof.
  intros schema host rootSort collection subQuery s Hone.
  apply Nat.ltb_ge in Hone.
  unfold applySort. cbv zeta. rewrite Hone.
  change (when false (throw Interleaved)) with (ret tt).
  unfold bind at 1. unfold putAliasMap at 1. unfold bind at 1. unfold ret at 1.
  unfold bind at 1.
  pose proof (@determined_sortFields schema host (getRelations schema) rootSort
                collection subQuery) as Hdet.
  match goal with
  | |- context [mapM ?f rootSort ?s0] =>
      assert (Hjoins : appends (fun op => isJoin op = true) (mapM f rootSort));
      [|assert (Hres : forall s1 rs s', mapM f rootSort s1 = Ok rs s' ->
                                        Forall2 (fun x (r : order * rawexp) =>
                                                   fst r = direction x) rootSort rs);
        [|destruct (Hjoins s0) as [joins [E F]];
          pose proof (Hdet s0) as Hdet0;
          destruct (mapM f rootSort s0) as [mapped s1|e s1] eqn:Erun]]
  end.
  - apply appends_mapM. intros sortField.
    appends_with reflexivity. unfold addJoin. apply joins_followRelation.
  - apply mapM_results. intros sortField s1 r s'. unfold direction.
    destruct (1 <? length (Str.split "." sortField))%nat.
    + unfold bind. destruct (addJoin _ _ _ _ _ _ _) as [[] s2|e s2]; [|discriminate].
      simpl. intros Er. injection Er as <- _. reflexivity.
    + destruct (Str.startsWith "-" sortField); intros Er; injection Er as <- _;
        reflexivity.
  - exists joins. split; [apply forallb_forall; rewrite Forall_forall in F; exact F|].
    simpl. exists mapped. simpl in E. rewrite E, <- app_assoc. split; [reflexivity|].
    specialize (Hres _ _ _ Erun). clear -Hres.
    induction Hres as [|x r xs rs Hx _ IH]; simpl; [reflexivity|].
    rewrite Hx, IH. reflexivity.
  - exists joins. split; [apply forallb_forall; rewrite Forall_forall in F; exact F|].
    simpl. simpl in E. split; [|exact E].
    intros ->. exact (Hdet0 s1 eq_refl).
Qed.

Lemma sort_adds_joins_then_one_order_witness :
  length (List.filter relational ["-author.name"; "title"]) <= 1
  /\ applySort Sample.schema Sample.host ["-author.name"; "title"] "articles" false start
     = Ok tt {| query := [LeftJoin "aaaaa" "authors" "articles.author" "aaaaa.id";
                          OrderBy [(desc, KnexRaw "??" ["aaaaa.name"]);
                                   (asc, KnexRaw "??" ["articles.title"])]];
                aliasMap := [("author", AObj [("name", AStr "aaaaa")])];
                drawn := 1 |}
  /\ exists joins,
       forallb isJoin joins = true
       /\ match applySort Sample.schema Sample.host ["-author.name"; "title"] "articles"
                  false start with
          | Ok _ s' =>
              exists mapped,
                query s' = query start ++ joins ++ [OrderBy mapped]
                /\ map fst mapped = map direction ["-author.name"; "title"]
          | Throw e s' => e <> Interleaved /\ query s' = query start ++ joins
          end.
Proof.
  split; [simpl; lia|]. split; [reflexivity|].
  apply sort_adds_joins_then_one_order. simpl. lia.
Defined.

(** ** Aggregates *)

Lemma aggregateField_unknown collection operation field s :
  Str.is_in operation aggregateOperations = false ->
  aggregateField collection operation field s = Ok tt s.
Proof.
  intros H. unfold Str.is_in, aggregateOperations in H. simpl in H.
  repeat (apply orb_false_elim in H; let E := fresh "E" in destruct H as [E H]).
  clear H. unfold aggregateField. cbv zeta. no_operator. destruct s; reflexivity.
Qed.

Lemma forEach_skipped {A : Type} (body : A -> M unit) (xs : list A) :
  (forall x s, body x s = Ok tt s) -> forall s, forEach body xs s = Ok tt s.
Proof.
  intros H. induction xs as [|x xs IH]; intros s; simpl; [reflexivity|].
  unfold bind. rewrite H. apply IH.
Qed.

Lemma knownAggregates_cons operation fields spec :
  knownAggregates ((operation, fields) :: spec)
  = if Str.is_in operation aggregateOperations
    then (operation, fields) :: knownAggregates spec
    else knownAggregates spec.
Proof. reflexivity. Qed.

Lemma projections_cons collection operation fields spec :
  projections collection ((operation, Some fields) :: spec)
  = flat_map (fun field => [projection collection operation field]) fields
    ++ projections collection spec.
Proof.
  unfold projections; simpl. f_equal.
Qed.

(** X18.  On a specification of the declared type [applyAggregate] never
    throws: an operation that is none of the nine it knows adds nothing,
    and the others add their projections, in the order of the
    specification. *)
Theorem aggregate_ignores_unknown_operations :
  forall spec collection s,
    applyAggregate spec collection s
    = Ok tt (emitted s (projections collection (knownAggregates spec))).
Proof.
  intros spec collection. unfold applyAggregate.
  induction spec as [|[operation fields] spec IH]; intros s.
  - simpl. unfold emitted. rewrite app_nil_r. destruct s; reflexivity.
  - change (forEach ?f ((operation, fields) :: spec))
      with (bind (f (operation, fields)) (fun _ => forEach f spec)).
    unfold bind. rewrite knownAggregates_cons.
    destruct (Str.is_in operation aggregateOperations) eqn:Hknown.
    + destruct fields as [fields|].
      * rewrite (forEach_emitted (aggregateField collection operation)
                   (fun field => [projection collection operation field]))
          by (intros field s1 _; apply aggregateField_projection, is_in_In, Hknown).
        cbv beta iota. rewrite IH, projections_cons. unfold emitted; simpl.
        rewrite <- app_assoc. reflexivity.
      * cbv beta iota. unfold ret. rewrite IH. reflexivity.
    + destruct fields as [fields|].
      * rewrite forEach_skipped
          by (intros field s1; apply aggregateField_unknown, Hknown).
        apply IH.
      * cbv beta iota. unfold ret. apply IH.
Qed.

(** ** The limit and the offset a builder ends with *)

Lemma effectiveLimit_app (xs ys : list qop) :
  effectiveLimit (xs ++ ys)
  = match effectiveLimit ys with
    | Some n => Some n
    | None => effectiveLimit xs
    end.
Proof.
  induction xs as [|x xs IH]; simpl.
  - destruct (effectiveLimit ys); reflexivity.
  - rewrite IH. destruct (effectiveLimit ys); reflexivity.
Qed.

Lemma effectiveLimit_none (ops : list qop) :
  Forall (fun op => isPaging op = false) ops -> effectiveLimit ops = None.
Proof.
  induction 1 as [|op ops Hop _ IH]; simpl; [reflexivity|].
  rewrite IH. destruct op; try reflexivity; discriminate Hop.
Qed.

Lemma effectiveLimit_pagingCalls (host : Host) (q : Query) :
  effectiveLimit (pagingCalls host q) = explicitLimit q.
Proof.
  unfold pagingCalls, explicitLimit.
  destruct (limit q) as [n|], (offset q) as [o|], (page q) as [p|]; simpl;
    try destruct (JsNum.eqb n (Num (-1))); try destruct (JsNum.truthy o);
    try destruct (JsNum.truthy p); try destruct (JsNum.truthy n); reflexivity.
Qed.

Lemma effectiveOffset_pagingCalls (host : Host) (q : Query) :
  effectiveOffset (pagingCalls host q)
  = match derivedOffset host q with
    | Some o => Some o
    | None => explicitOffset q
    end.
Proof.
  unfold pagingCalls, derivedOffset, explicitOffset.
  destruct (limit q) as [n|], (offset q) as [o|], (page q) as [p|]; simpl;
    try destruct (JsNum.eqb n (Num (-1))); try destruct (JsNum.truthy o);
    try destruct (JsNum.truthy p); try destruct (JsNum.truthy n); reflexivity.
Qed.





(** ** To-many keys inside a subquery *)

Lemma bind_ret_l {A B : Type} (a : A) (k : A -> M B) : bind (ret a) k = k a.
Proof. reflexivity. Qed.

(** X21.  Inside a subquery, a key over a one-to-many or one-to-any
    relation whose path has one segment (a bare value, or an object whose
    first key is an operator such as [_some]) is passed over: no clause
    is added and no exception is thrown. *)
Theorem to_many_key_in_subquery_is_passed_over :
  forall schema host fuel relations key v collection l relation' t operation s,
    isLogicalKey key = false ->
    oneSegment v = true ->
    getOperation key v = ROk operation ->
    getRelationInfo host relations collection (hd EmptyString (Str.split ":" key))
    = (relation', Some t) ->
    t = o2m \/ t = o2a ->
    addWhereClauses schema host (S fuel) relations true (VObj [(key, v)]) collection l s
    = Ok tt s.
Proof.
  intros schema host fuel relations key v collection l relation' t operation s
    Hkey Hone Hop Hinfo Ht.
  rewrite addWhereClauses_unfold.
  change (Js.entries (VObj [(key, v)])) with (ROk [(key, v)]).
  cbn -[getFilterPath getOperation Str.split addWhereClauses applyQuery Nat.ltb].
  rewrite Hkey, (@oneSegment_path key v Hone).
  cbn -[getOperation Str.split addWhereClauses applyQuery hd].
  change (hd EmptyString [key]) with key.
  rewrite bind_ret_l. change (hd EmptyString [key]) with key.
  rewrite Hinfo, Hop. change (lift (ROk operation)) with (ret operation).
  rewrite bind_ret_l. destruct operation as [filterOperator filterValue].
  destruct Ht as [-> | ->]; reflexivity.
Qed.

Lemma to_many_key_in_subquery_is_passed_over_witness :
  addWhereClauses Sample.schema Sample.host 1 Sample.relations true
    (VObj [("articles", VObj [("_some", VObj [("title", VObj [("_eq", VStr "x")])])])])
    "authors" LAnd start
  = Ok tt start.
Proof.
  apply (@to_many_key_in_subquery_is_passed_over Sample.schema Sample.host 0
           Sample.relations "articles"
           (VObj [("_some", VObj [("title", VObj [("_eq", VStr "x")])])])
           "authors" LAnd (Some Sample.articles_author) o2m
           ("_some", VObj [("title", VObj [("_eq", VStr "x")])]) start);
    try reflexivity.
  left; reflexivity.
Defined.

(** ** The aliases of the joins *)

Section Draws.

Variable schema : SchemaOverview.
Variable host : Host.

Lemma drawsFrom_quiet (lo hi : nat) {A : Type} (m : M A) :
  (forall s, query (final (m s)) = query s /\ drawn (final (m s)) = drawn s) ->
  drawsFrom host lo hi m.
Proof.
  intros H s _. exists []. destruct (H s) as [E1 E2].
  rewrite E1, E2, app_nil_r. auto.
Qed.

Lemma drawsFrom_ret (lo hi : nat) {A : Type} (a : A) : drawsFrom host lo hi (ret a).
Proof. apply drawsFrom_quiet. intros s. split; reflexivity. Qed.

Lemma drawsFrom_throw (lo hi : nat) {A : Type} (e : exn) :
  drawsFrom host lo hi (@throw A e).
Proof. apply drawsFrom_quiet. intros s. split; reflexivity. Qed.

Lemma drawsFrom_lift (lo hi : nat) {A : Type} (r : result A) :
  drawsFrom host lo hi (lift r).
Proof. destruct r; [apply drawsFrom_ret | apply drawsFrom_throw]. Qed.

Lemma drawsFrom_deref (lo hi : nat) {A : Type} (o : option A) :
  drawsFrom host lo hi (deref o).
Proof. destruct o; [apply drawsFrom_ret | apply drawsFrom_throw]. Qed.

Lemma drawsFrom_getAliasMap (lo hi : nat) : drawsFrom host lo hi getAliasMap.
Proof. apply drawsFrom_quiet. intros s. split; reflexivity. Qed.

Lemma drawsFrom_putAliasMap (lo hi : nat) am : drawsFrom host lo hi (putAliasMap am).
Proof. apply drawsFrom_quiet. intros s. split; reflexivity. Qed.

Lemma drawsFrom_pathScope (lo hi : nat) segment :
  drawsFrom host lo hi (pathScope segment).
Proof.
  unfold pathScope. destruct (Str.nth 1 (Str.split ":" segment)) as [scope|];
    [destruct (Str.truthy scope)|]; try apply drawsFrom_ret; apply drawsFrom_throw.
Qed.

Lemma drawsFrom_bind (lo hi : nat) {A B : Type} (m : M A) (k : A -> M B) :
  drawsFrom host lo hi m -> (forall a, drawsFrom host lo hi (k a)) ->
  drawsFrom host lo hi (bind m k).
Proof.
  intros Hm Hk s Hs. destruct (Hm s Hs) as [ops1 [E1 [D1 F1]]]. unfold bind.
  destruct (m s) as [a s1|e s1]; simpl in E1, D1, F1.
  - destruct (Hk a s1 ltac:(lia)) as [ops2 [E2 [D2 F2]]].
    exists (ops1 ++ ops2). rewrite E2, E1, app_assoc.
    split; [reflexivity|]. split; [lia|].
    apply Forall_app. split; [|exact F2].
    eapply Forall_impl; [|exact F1]. intros op [n [Hn Ha]].
    exists n. split; [lia|exact Ha].
  - exists ops1. simpl. auto.
Qed.

Lemma drawsFrom_newAlias (lo hi : nat) {B : Type} (k : string -> M B) :
  (forall n, hi <= n -> drawsFrom host lo (S n) (k (generateAlias host n))) ->
  drawsFrom host lo hi (bind (newAlias host) k).
Proof.
  intros Hk s Hs. unfold bind, newAlias.
  destruct (Hk (drawn s) Hs
              {| query := query s; aliasMap := aliasMap s; drawn := S (drawn s) |}
              (le_n _)) as [ops [E [D F]]].
  simpl in E, D. exists ops. split; [exact E|]. split; [lia|exact F].
Qed.

Lemma drawsFrom_join (lo hi n : nat) (op : qop) :
  lo <= n -> n < hi -> joinAlias op = Some (generateAlias host n) ->
  drawsFrom host lo hi (emit op).
Proof.
  intros Hlo Hhi Ha s Hs. exists [op]. simpl. split; [reflexivity|].
  split; [lia|]. constructor; [|constructor]. exists n. split; [lia|exact Ha].
Qed.

Lemma drawsFrom_when (lo hi : nat) (b : bool) (m : M unit) :
  drawsFrom host lo hi m -> drawsFrom host lo hi (when b m).
Proof. intros H. destruct b; [exact H | apply drawsFrom_ret]. Qed.

Lemma drawsFrom_forEach (lo hi : nat) {A : Type} (body : A -> M unit) (xs : list A) :
  (forall x, drawsFrom host lo hi (body x)) -> drawsFrom host lo hi (forEach body xs).
Proof.
  intros H. induction xs as [|x xs IH]; simpl.
  - apply drawsFrom_ret.
  - apply drawsFrom_bind; [apply H|intros _; exact IH].
Qed.

Lemma drawsFrom_weaken (lo hi hi' : nat) {A : Type} (m : M A) :
  hi <= hi' -> drawsFrom host lo hi m -> drawsFrom host lo hi' m.
Proof. intros Hle H s Hs. apply H. lia. Qed.

Ltac draws_step :=
  match goal with
  | |- drawsFrom _ _ _ (bind _ _) => apply drawsFrom_bind; [|intros]
  | |- drawsFrom _ _ _ (ret _) => apply drawsFrom_ret
  | |- drawsFrom _ _ _ (throw _) => apply drawsFrom_throw
  | |- drawsFrom _ _ _ (when _ _) => apply drawsFrom_when
  | |- drawsFrom _ _ _ (lift _) => apply drawsFrom_lift
  | |- drawsFrom _ _ _ (deref _) => apply drawsFrom_deref
  | |- drawsFrom _ _ _ getAliasMap => apply drawsFrom_getAliasMap
  | |- drawsFrom _ _ _ (putAliasMap _) => apply drawsFrom_putAliasMap
  | |- drawsFrom _ _ _ (pathScope _) => apply drawsFrom_pathScope
  | |- drawsFrom _ _ _ (forEach _ _) => apply drawsFrom_forEach; intros
  | |- drawsFrom _ ?lo (S ?n) (emit _) =>
      apply (@drawsFrom_join lo (S n) n); [lia|lia|reflexivity]
  | |- drawsFrom _ _ _ (if ?b then _ else _) => destruct b
  | |- drawsFrom _ _ _ (match ?x with _ => _ end) => destruct x
  | |- drawsFrom _ _ _ _ => progress cbv beta zeta
  end.

Lemma drawsFrom_followRelation relations subQuery pathParts :
  forall parentCollection parentAlias lo hi,
    lo <= hi ->
    drawsFrom host lo hi
      (followRelation schema host relations subQuery pathParts parentCollection
         parentAlias).
Proof.
  induction pathParts as [|segment rest IH];
    intros parentCollection parentAlias lo hi Hle; simpl.
  - apply drawsFrom_throw.
  - destruct (getRelationInfo host relations parentCollection
                (hd EmptyString (Str.split ":" segment))) as [[relation|] relationType];
      [|apply drawsFrom_ret].
    apply drawsFrom_newAlias. intros n Hn.
    repeat draws_step; apply IH; lia.
Qed.

Lemma drawsFrom_addJoins fuel relations subQuery :
  forall filter' collection lo hi,
    lo <= hi ->
    drawsFrom host lo hi (addJoins schema host fuel relations subQuery filter' collection).
Proof.
  induction fuel as [|fuel IH]; intros filter' collection lo hi Hle.
  - apply drawsFrom_throw.
  - rewrite addJoins_unfold.
    repeat draws_step; try (apply IH; exact Hle).
    unfold addJoin. apply drawsFrom_followRelation. exact Hle.
Qed.

End Draws.

(** X22.  Provided the generator has given no alias twice by the end of
    the pass, every call the join pass adds is a join under an alias that
    was drawn during the pass and that is none of the aliases handed out
    before the pass began; the pass takes no alias back. *)
Theorem joins_use_aliases_drawn_in_the_pass :
  forall schema host fuel relations subQuery filter' collection s,
    (forall a b,
        a < drawn (final (addJoins schema host fuel relations subQuery filter'
                            collection s)) ->
        b < drawn (final (addJoins schema host fuel relations subQuery filter'
                            collection s)) ->
        generateAlias host a = generateAlias host b -> a = b) ->
    exists joins,
      query (final (addJoins schema host fuel relations subQuery filter' collection s))
      = query s ++ joins
      /\ drawn s
         <= drawn (final (addJoins schema host fuel relations subQuery filter'
                            collection s))
      /\ Forall (fun op => exists n,
                   drawn s <= n
                   < drawn (final (addJoins schema host fuel relations subQuery filter'
                                     collection s))
                   /\ joinAlias op = Some (generateAlias host n)
                   /\ forall m, m < drawn s ->
                                joinAlias op <> Some (generateAlias host m)) joins.
Proof.
  intros schema host fuel relations subQuery filter' collection s Hdistinct.
  destruct (@drawsFrom_addJoins schema host fuel relations subQuery filter' collection
              (drawn s) (drawn s) (le_n _) s (le_n _)) as [joins [E [D F]]].
  exists joins. split; [exact E|]. split; [exact D|].
  eapply Forall_impl; [|exact F]. intros op [n [Hn Ha]].
  exists n. split; [exact Hn|]. split; [exact Ha|].
  intros m Hm Hsame. rewrite Ha in Hsame. injection Hsame as Hsame.
  apply Hdistinct in Hsame; lia.
Qed.

Lemma joins_use_aliases_drawn_in_the_pass_witness :
  exists joins,
    query (final (addJoins Sample.schema Sample.host 3 Sample.relations false
                    (VObj [("author", VObj [("name", VObj [("_eq", VStr "x")])])])
                    "articles" {| query := []; aliasMap := []; drawn := 1 |}))
    = [] ++ joins
    /\ 1 <= drawn (final (addJoins Sample.schema Sample.host 3 Sample.relations false
                            (VObj [("author", VObj [("name", VObj [("_eq", VStr "x")])])])
                            "articles" {| query := []; aliasMap := []; drawn := 1 |}))
    /\ Forall (fun op => exists n,
                 1 <= n
                 < drawn (final (addJoins Sample.schema Sample.host 3 Sample.relations
                                   false
                                   (VObj [("author",
                                           VObj [("name", VObj [("_eq", VStr "x")])])])
                                   "articles"
                                   {| query := []; aliasMap := []; drawn := 1 |}))
                 /\ joinAlias op = Some (generateAlias Sample.host n)
                 /\ forall m, m < 1 ->
                              joinAlias op <> Some (generateAlias Sample.host m)) joins.
Proof.
  apply (@joins_use_aliases_drawn_in_the_pass Sample.schema Sample.host 3
           Sample.relations false
           (VObj [("author", VObj [("name", VObj [("_eq", VStr "x")])])])
           "articles" {| query := []; aliasMap := []; drawn := 1 |}).
  intros a b Ha Hb. vm_compute in Ha, Hb.
  destruct a as [|[|a]]; destruct b as [|[|b]]; try lia; try reflexivity;
    intros E; vm_compute in E; discriminate E.
Defined.

(** * Properties of the subscription registry *)

Section Registry.

Import Subscribe.

Lemma same_refl (x : Subscription) : same x x = true.
Proof. unfold same. destruct (Subscription_eq_dec x x); [reflexivity|contradiction]. Qed.

Lemma same_eq (x y : Subscription) : same x y = true -> x = y.
Proof. unfold same. destruct (Subscription_eq_dec x y); [auto|discriminate]. Qed.

Lemma own_keys (key : string) (es : Registry) :
  own key es = None <-> ~ In key (map fst es).
Proof.
  induction es as [|[k set] es IH]; simpl.
  - split; [intros _ []|reflexivity].
  - destruct (String.eqb_spec k key) as [->|Hne].
    + split; [discriminate|intros H; exfalso; apply H; left; reflexivity].
    + rewrite IH. split.
      * intros H [E|Hin]; [contradiction|exact (H Hin)].
      * intros H Hin. apply H. right. exact Hin.
Qed.

Lemma keys_replace (key : string) (set : list Subscription) (es : Registry) :
  map fst (replace key set es) = map fst es.
Proof.
  induction es as [|[k set'] es IH]; simpl; [reflexivity|].
  destruct (k =? key)%string; simpl; [reflexivity|]. rewrite IH. reflexivity.
Qed.

Lemma own_replace (key : string) (set set' : list Subscription) (es : Registry) :
  own key es = Some set' -> own key (replace key set es) = Some set.
Proof.
  induction es as [|[k s] es IH]; simpl; [discriminate|].
  destruct (k =? key)%string eqn:E; simpl; rewrite E; [reflexivity|exact IH].
Qed.

Lemma replace_replace (key : string) (set set' : list Subscription) (es : Registry) :
  replace key set (replace key set' es) = replace key set es.
Proof.
  induction es as [|[k s] es IH]; simpl; [reflexivity|].
  destruct (k =? key)%string eqn:E; simpl; rewrite E; [reflexivity|].
  rewrite IH. reflexivity.
Qed.

Lemma replace_own (key : string) (set : list Subscription) (es : Registry) :
  own key es = Some set -> replace key set es = es.
Proof.
  induction es as [|[k s] es IH]; simpl; [reflexivity|].
  destruct (String.eqb_spec k key) as [->|Hne].
  - intros E. injection E as ->. reflexivity.
  - intros E. rewrite (IH E). reflexivity.
Qed.

Lemma own_define (key : string) (set : list Subscription) (es : Registry) :
  own key es = None -> own key (define key set es) = Some set.
Proof.
  induction es as [|[k s] es IH]; simpl.
  - rewrite String.eqb_refl. reflexivity.
  - destruct (k =? key)%string eqn:E; [discriminate|]. intros Hown.
    destruct (arrayIndex key) as [n|], (arrayIndex k) as [n'|]; simpl;
      try destruct (n <? n')%N; simpl; rewrite ?String.eqb_refl, ?E; try reflexivity;
      exact (IH Hown).
Qed.

Lemma replace_define (key : string) (set set' : list Subscription) (es : Registry) :
  own key es = None -> replace key set (define key set' es) = define key set es.
Proof.
  induction es as [|[k s] es IH]; simpl.
  - rewrite String.eqb_refl. reflexivity.
  - destruct (k =? key)%string eqn:E; [discriminate|]. intros Hown.
    destruct (arrayIndex key) as [n|], (arrayIndex k) as [n'|]; simpl;
      try destruct (n <? n')%N; simpl; rewrite ?String.eqb_refl, ?E; try reflexivity;
      rewrite (IH Hown); reflexivity.
Qed.

Lemma keys_define (key : string) (set : list Subscription) (es : Registry) :
  exists before after,
    map fst es = before ++ after
    /\ map fst (define key set es) = before ++ key :: after.
Proof.
  induction es as [|[k s] es IH]; simpl.
  - exists [], []. split; reflexivity.
  - destruct IH as [before [after [E1 E2]]].
    destruct (arrayIndex key) as [n|], (arrayIndex k) as [n'|];
      try destruct (n <? n')%N; simpl;
      try (exists [], (k :: map fst es); split; reflexivity);
      exists (k :: before), after; simpl; rewrite E1, E2; split; reflexivity.
Qed.

Lemma add_add (set : list Subscription) (x : Subscription) :
  add (add set x) x = add set x.
Proof.
  unfold add at 2 3. destruct (existsb (same x) set) eqn:E.
  - unfold add. rewrite E. reflexivity.
  - unfold add. rewrite existsb_app, E. simpl. rewrite same_refl. reflexivity.
Qed.

(** X23.  Subscribing the same object twice is subscribing it once: the
    second call leaves the handler as the first left it. *)
Theorem subscribe_twice_is_once :
  forall subscription h h1,
    subscribe subscription h = ROk h1 ->
    subscribe subscription h1 = ROk h1.
Proof.
  intros subscription h h1. unfold subscribe, get.
  destruct (own (collection subscription) (subscriptions h)) as [set|] eqn:Hown.
  - intros E. injection E as <-. simpl.
    rewrite (@own_replace _ _ _ _ Hown), replace_replace, add_add. reflexivity.
  - destruct (Str.is_in (collection subscription) prototypeKeys); [discriminate|].
    intros E. injection E as <-. simpl.
    rewrite (@own_define _ _ _ Hown), (@replace_define _ _ _ _ Hown), add_add. reflexivity.
Qed.

Lemma subscribe_twice_is_once_witness :
  exists h1,
    subscribe (plain 3 2 "articles" (Some "c")) desk = ROk h1
    /\ subscribe (plain 3 2 "articles" (Some "c")) h1 = ROk h1.
Proof.
  eexists. split; [reflexivity|].
  apply (@subscribe_twice_is_once (plain 3 2 "articles" (Some "c")) desk).
  reflexivity.
Defined.

Lemma NoDup_insert {A : Type} (k : A) (before after : list A) :
  NoDup (before ++ after) -> ~ In k (before ++ after) -> NoDup (before ++ k :: after).
Proof.
  induction before as [|b before IH]; simpl; intros Hnd Hin.
  - constructor; assumption.
  - inversion Hnd as [|? ? Hb Hrest]; subst. constructor.
    + intros H. apply in_app_or in H. destruct H as [H|[H|H]].
      * apply Hb, in_or_app. left. exact H.
      * apply Hin. left. symmetry. exact H.
      * apply Hb, in_or_app. right. exact H.
    + apply IH; [exact Hrest|]. intros H. apply Hin. right. exact H.
Qed.

(** X24.  [subscribe] keeps the keys of the registry distinct: a
    collection has one set, whatever the order the keys come in. *)
Theorem subscribe_keeps_keys_distinct :
  forall subscription h h',
    NoDup (map fst (subscriptions h)) ->
    subscribe subscription h = ROk h' ->
    NoDup (map fst (subscriptions h')).
Proof.
  intros subscription h h' Hnd. unfold subscribe, get.
  destruct (own (collection subscription) (subscriptions h)) as [set|] eqn:Hown.
  - intros E. injection E as <-. simpl. rewrite keys_replace. exact Hnd.
  - destruct (Str.is_in (collection subscription) prototypeKeys); [discriminate|].
    intros E. injection E as <-. simpl.
    destruct (keys_define (collection subscription) (add [] subscription)
                (subscriptions h)) as [before [after [E1 E2]]].
    rewrite E2. apply NoDup_insert; rewrite <- E1; [exact Hnd|].
    apply own_keys. exact Hown.
Qed.

Lemma desk_keys_distinct : NoDup (map fst (subscriptions desk)).
Proof. repeat constructor; simpl; intuition discriminate. Defined.

Lemma subscribe_keeps_keys_distinct_witness :
  exists h1,
    subscribe (plain 3 2 "7" (Some "c")) desk = ROk h1
    /\ map fst (subscriptions h1) = ["7"; "9"; "10"; "articles"]
    /\ NoDup (map fst (subscriptions h1)).
Proof.
  eexists. split; [reflexivity|]. split; [reflexivity|].
  apply (@subscribe_keeps_keys_distinct (plain 3 2 "7" (Some "c")) desk);
    [exact desk_keys_distinct|reflexivity].
Defined.

Lemma deleteAt_keys key subscription h h' :
  deleteAt key subscription h = ROk h' ->
  map fst (subscriptions h') = map fst (subscriptions h).
Proof.
  unfold deleteAt. destruct (get (subscriptions h) key); intros E;
    try discriminate E; injection E as <-; simpl; [apply keys_replace|reflexivity].
Qed.

Lemma release_keys client' key reversed :
  forall h h',
    release client' key reversed h = ROk h' ->
    map fst (subscriptions h') = map fst (subscriptions h).
Proof.
  induction reversed as [|x rest IH]; intros h h'; simpl.
  - intros E. injection E as <-. reflexivity.
  - destruct (client x =? client')%nat; [|apply IH].
    destruct (deleteAt key x h) as [h1|] eqn:E1; [|discriminate].
    intros E. rewrite (IH _ _ E). simpl. exact (deleteAt_keys _ _ _ E1).
Qed.

Lemma releaseAll_keys client' keys :
  forall h h',
    releaseAll client' keys h = ROk h' ->
    map fst (subscriptions h') = map fst (subscriptions h).
Proof.
  induction keys as [|key rest IH]; intros h h'; simpl.
  - intros E. injection E as <-. reflexivity.
  - match goal with
    | |- context [release ?c ?k ?xs h] => destruct (release c k xs h) as [h1|] eqn:E1
    end; [|discriminate].
    intros E. rewrite (IH _ _ E). exact (release_keys _ _ _ _ E1).
Qed.

(** X25.  [unsubscribe] never takes a key out of the registry: a
    collection that had a set keeps it, empty if need be, in the same
    place. *)
Theorem unsubscribe_keeps_the_keys :
  forall client' uid' h h',
    unsubscribe client' uid' h = ROk h' ->
    map fst (subscriptions h') = map fst (subscriptions h).
Proof.
  intros client' [u|] h h'; unfold unsubscribe.
  - destruct (getSubscription u (subscriptions h)) as [subscription|].
    + destruct (client subscription =? client')%nat.
      * destruct (deleteAt (collection subscription) subscription h) as [h1|] eqn:E1;
          [|discriminate].
        intros E. injection E as <-. simpl. exact (deleteAt_keys _ _ _ E1).
      * intros E. injection E as <-. reflexivity.
    + intros E. injection E as <-. reflexivity.
  - apply releaseAll_keys.
Qed.

Lemma unsubscribe_keeps_the_keys_witness :
  exists h1,
    unsubscribe 2 (Some "a") desk = ROk h1
    /\ own "10" (subscriptions h1) = Some []
    /\ map fst (subscriptions h1) = map fst (subscriptions desk).
Proof.
  eexists. split; [reflexivity|]. split; [reflexivity|].
  apply (@unsubscribe_keeps_the_keys 2 (Some "a") desk). reflexivity.
Defined.

Lemma own_app (key : string) (a b : Registry) :
  own key (a ++ b) = match own key a with
                     | Some set => Some set
                     | None => own key b
                     end.
Proof.
  induction a as [|[k s] a IH]; simpl; [reflexivity|].
  destruct (k =? key)%string; [reflexivity|exact IH].
Qed.

Lemma replace_app (key : string) (set : list Subscription) (a b : Registry) :
  own key a = None -> replace key set (a ++ b) = a ++ replace key set b.
Proof.
  induction a as [|[k s] a IH]; simpl; [reflexivity|].
  destruct (k =? key)%string; [discriminate|]. intros H. rewrite (IH H). reflexivity.
Qed.

Lemma keys_without (client' : nat) (es : Registry) :
  map fst (without client' es) = map fst es.
Proof. unfold without. rewrite map_map. reflexivity. Qed.

Lemma filter_all {A : Type} (xs : list A) : List.filter (fun _ => true) xs = xs.
Proof. induction xs as [|x xs IH]; simpl; [reflexivity|]. rewrite IH. reflexivity. Qed.

Lemma filter_twice {A : Type} (p q : A -> bool) (xs : list A) :
  List.filter p (List.filter q xs) = List.filter (fun x => q x && p x) xs.
Proof.
  induction xs as [|x xs IH]; simpl; [reflexivity|].
  destruct (q x); simpl; [destruct (p x)|]; rewrite IH; reflexivity.
Qed.

(** The inner loop, on a key the registry owns: the members of the set
    that are among the client's in the copy are deleted, one focus call
    each. *)
Lemma release_own client' key reversed :
  forall h set,
    own key (subscriptions h) = Some set ->
    release client' key reversed h
    = ROk {| subscriptions :=
               replace key
                 (List.filter
                    (fun y =>
                       negb (existsb (fun d => same d y)
                               (List.filter (fun d => (client d =? client')%nat)
                                  reversed))) set)
                 (subscriptions h);
             events :=
               events h
               ++ map (fun d => Dispatch (collection d) "focus")
                    (List.filter (fun d => (client d =? client')%nat) reversed);
             allocated := allocated h |}.
Proof.
  induction reversed as [|x rest IH]; intros h set Hown; simpl.
  - rewrite filter_all, (@replace_own _ _ _ Hown), app_nil_r. destruct h; reflexivity.
  - destruct (client x =? client')%nat eqn:Hc; [|apply IH; exact Hown].
    unfold deleteAt, get. rewrite Hown.
    rewrite (IH _ (delete set x))
      by (simpl; apply (@own_replace _ _ _ _ Hown)).
    simpl. rewrite replace_replace, <- app_assoc. unfold delete.
    rewrite filter_twice. do 3 f_equal.
    apply filter_ext. intros y. rewrite negb_orb. reflexivity.
Qed.

Lemma released_set (client' : nat) (set : list Subscription) :
  List.filter
    (fun y => negb (existsb (fun d => same d y)
                      (List.filter (fun d => (client d =? client')%nat) (rev set)))) set
  = List.filter (fun y => negb (client y =? client')%nat) set.
Proof.
  apply filter_ext_in. intros y Hy. f_equal.
  destruct (client y =? client')%nat eqn:Hc.
  - apply existsb_exists. exists y. split; [|apply same_refl].
    apply filter_In. split; [apply in_rev; rewrite rev_involutive; exact Hy|exact Hc].
  - destruct (existsb _ _) eqn:E; [|reflexivity].
    apply existsb_exists in E. destruct E as [d [Hd Hs]].
    apply filter_In in Hd. destruct Hd as [_ Hd].
    apply same_eq in Hs. subst d. rewrite Hd in Hc. discriminate Hc.
Qed.

Lemma releaseAll_from client' (post : Registry) :
  forall (pre : Registry) h,
    subscriptions h = without client' pre ++ post ->
    NoDup (map fst (pre ++ post)) ->
    releaseAll client' (map fst post) h
    = ROk {| subscriptions := without client' (pre ++ post);
             events := events h ++ focusCalls client' post;
             allocated := allocated h |}.
Proof.
  induction post as [|[key set] post IH]; intros pre h Hsubs Hnd; simpl.
  - rewrite !app_nil_r in *. rewrite <- Hsubs. destruct h; reflexivity.
  - assert (Hpre : own key (without client' pre) = None).
    { apply own_keys. rewrite keys_without. intros Hin.
      rewrite map_app in Hnd. simpl in Hnd. apply NoDup_remove_2 in Hnd.
      apply Hnd, in_or_app. left. exact Hin. }
    assert (Hown : own key (subscriptions h) = Some set).
    { rewrite Hsubs, own_app, Hpre. simpl. rewrite String.eqb_refl. reflexivity. }
    unfold get. rewrite Hown, (@release_own client' key (rev set) h set Hown).
    rewrite released_set.
    rewrite (IH (pre ++ [(key, set)])).
    + simpl. rewrite <- !app_assoc, filter_rev. reflexivity.
    + simpl. rewrite Hsubs, (@replace_app _ _ _ _ Hpre). simpl.
      rewrite String.eqb_refl. unfold without. rewrite map_app, <- app_assoc.
      reflexivity.
    + rewrite <- app_assoc. exact Hnd.
Qed.

(** X26.  [unsubscribe(client)] without a uid takes every subscription
    of the client out of every set and nothing else, and calls
    [dispatch] with a focus once for each, key by key and within a key
    from the client's last subscription to its first. *)
Theorem unsubscribe_client_releases_all :
  forall client' h,
    NoDup (map fst (subscriptions h)) ->
    unsubscribe client' None h
    = ROk {| subscriptions := without client' (subscriptions h);
             events := events h ++ focusCalls client' (subscriptions h);
             allocated := allocated h |}.
Proof.
  intros client' h Hnd. unfold unsubscribe.
  apply (@releaseAll_from client' (subscriptions h) [] h); [reflexivity|exact Hnd].
Qed.

Lemma unsubscribe_client_releases_all_witness :
  unsubscribe 1 None desk
  = ROk {| subscriptions := without 1 (subscriptions desk);
           events := events desk ++ focusCalls 1 (subscriptions desk);
           allocated := allocated desk |}
  /\ without 1 (subscriptions desk)
     = [("9", []); ("10", [plain 1 2 "10" (Some "a")]); ("articles", [])]
  /\ focusCalls 1 (subscriptions desk)
     = [Dispatch "9" "focus"; Dispatch "articles" "focus"].
Proof.
  split; [|split; reflexivity].
  apply unsubscribe_client_releases_all. exact desk_keys_distinct.
Defined.

Lemma find_last {A : Type} (p : A -> bool) (xs : list A) (x : A) :
  find p xs = None -> find p (xs ++ [x]) = find p [x].
Proof.
  induction xs as [|y xs IH]; simpl; [reflexivity|].
  destruct (p y); [discriminate|exact IH].
Qed.

Lemma add_fresh (u : string) (set : list Subscription) (x : Subscription) :
  find (hasUid u) set = None -> hasUid u x = true -> add set x = set ++ [x].
Proof.
  intros Hfind Hx. unfold add. destruct (existsb (same x) set) eqn:E; [|reflexivity].
  apply existsb_exists in E. destruct E as [y [Hy Hs]]. apply same_eq in Hs. subst y.
  rewrite (find_none _ _ Hfind x Hy) in Hx. discriminate Hx.
Qed.

Lemma delete_last (u : string) (set : list Subscription) (x : Subscription) :
  find (hasUid u) set = None -> hasUid u x = true -> delete (set ++ [x]) x = set.
Proof.
  intros Hfind Hx. unfold delete. rewrite filter_app. simpl. rewrite same_refl. simpl.
  rewrite app_nil_r. rewrite <- (filter_all set) at 2. apply filter_ext_in.
  intros y Hy. destruct (same x y) eqn:E; [|reflexivity].
  apply same_eq in E. subst y. rewrite (find_none _ _ Hfind x Hy) in Hx.
  discriminate Hx.
Qed.

Lemma getSubscription_own (u key : string) (es : Registry) (set : list Subscription) :
  getSubscription u es = None -> own key es = Some set -> find (hasUid u) set = None.
Proof.
  induction es as [|[k s] es IH]; simpl; [discriminate|].
  destruct (find (hasUid u) s) eqn:Hs; [discriminate|].
  destruct (k =? key)%string.
  - intros _ E. injection E as <-. exact Hs.
  - exact IH.
Qed.

Lemma getSubscription_replace (u key : string) (es : Registry)
    (set : list Subscription) (x : Subscription) :
  getSubscription u es = None -> own key es = Some set -> hasUid u x = true ->
  getSubscription u (replace key (set ++ [x]) es) = Some x.
Proof.
  intros Hnone Hown Hx. induction es as [|[k s] es IH]; simpl in *; [discriminate|].
  destruct (find (hasUid u) s) eqn:Hs; [discriminate|].
  destruct (k =? key)%string; simpl.
  - injection Hown as <-. rewrite (find_last _ _ x Hs). simpl. rewrite Hx. reflexivity.
  - rewrite Hs. exact (IH Hnone Hown).
Qed.

Lemma getSubscription_define (u key : string) (es : Registry) (x : Subscription) :
  getSubscription u es = None -> hasUid u x = true ->
  getSubscription u (define key [x] es) = Some x.
Proof.
  intros Hnone Hx. induction es as [|[k s] es IH]; simpl in *.
  - rewrite Hx. reflexivity.
  - destruct (find (hasUid u) s) eqn:Hs; [discriminate|].
    destruct (arrayIndex key) as [n|], (arrayIndex k) as [n'|];
      try destruct (n <? n')%N; simpl; rewrite ?Hx, ?Hs; try reflexivity;
      exact (IH Hnone).
Qed.

Lemma hasUid_of (u : string) (x : Subscription) : uid x = Some u -> hasUid u x = true.
Proof. intros H. unfold hasUid. rewrite H. apply String.eqb_refl. Qed.

Lemma getSubscription_subscribed (u : string) (x : Subscription) (h h' : Handler) :
  getSubscription u (subscriptions h) = None ->
  uid x = Some u ->
  subscribe x h = ROk h' ->
  getSubscription u (subscriptions h') = Some x.
Proof.
  intros Hnone Hu. apply hasUid_of in Hu. unfold subscribe, get.
  destruct (own (collection x) (subscriptions h)) as [set|] eqn:Hown.
  - intros E. injection E as <-. simpl.
    rewrite (@add_fresh u set x (@getSubscription_own _ _ _ _ Hnone Hown) Hu).
    apply getSubscription_replace; assumption.
  - destruct (Str.is_in (collection x) prototypeKeys); [discriminate|].
    intros E. injection E as <-. simpl. apply getSubscription_define; assumption.
Qed.

(** X27.  A subscription registered under a uid no registered
    subscription has is the one [getSubscription] finds for that uid,
    wherever its collection comes in the order of the keys. *)
Theorem subscribed_uid_is_found :
  forall u subscription h h',
    getSubscription u (subscriptions h) = None ->
    uid subscription = Some u ->
    subscribe subscription h = ROk h' ->
    getSubscription u (subscriptions h') = Some subscription.
Proof.
  intros u subscription h h'. apply getSubscription_subscribed.
Qed.

Lemma subscribed_uid_is_found_witness :
  exists h1,
    getSubscription "c" (subscriptions desk) = None
    /\ subscribe (plain 3 2 "7" (Some "c")) desk = ROk h1
    /\ getSubscription "c" (subscriptions h1) = Some (plain 3 2 "7" (Some "c")).
Proof.
  eexists. split; [reflexivity|]. split; [reflexivity|].
  apply (@subscribed_uid_is_found "c" (plain 3 2 "7" (Some "c")) desk); reflexivity.
Defined.

(** X28.  Subscribing under a new uid and unsubscribing that uid as the
    same client gives the registry back as it was, but for the key: a
    collection that had no set keeps an empty one; one focus call is
    made. *)
Theorem subscribe_then_unsubscribe :
  forall u subscription h h',
    getSubscription u (subscriptions h) = None ->
    uid subscription = Some u ->
    subscribe subscription h = ROk h' ->
    unsubscribe (client subscription) (Some u) h'
    = ROk {| subscriptions :=
               match own (collection subscription) (subscriptions h) with
               | Some _ => subscriptions h
               | None => define (collection subscription) [] (subscriptions h)
               end;
             events := events h ++ [Dispatch (collection subscription) "focus"];
             allocated := allocated h |}.
Proof.
  intros u x h h' Hnone Hu Hsub. unfold unsubscribe.
  rewrite (@getSubscription_subscribed u x h h' Hnone Hu Hsub), Nat.eqb_refl.
  apply hasUid_of in Hu. revert Hsub. unfold subscribe, deleteAt, get.
  destruct (own (collection x) (subscriptions h)) as [set|] eqn:Hown.
  - intros E. injection E as <-. simpl.
    pose proof (@getSubscription_own _ _ _ _ Hnone Hown) as Hset.
    rewrite (@add_fresh u set x Hset Hu), (@own_replace _ _ _ _ Hown).
    rewrite (@delete_last u set x Hset Hu), replace_replace, (@replace_own _ _ _ Hown).
    reflexivity.
  - destruct (Str.is_in (collection x) prototypeKeys); [discriminate|].
    intros E. injection E as <-. simpl.
    rewrite (@own_define _ _ _ Hown), (@replace_define _ _ _ _ Hown).
    unfold add, delete. simpl. rewrite same_refl. reflexivity.
Qed.

Lemma subscribe_then_unsubscribe_witness :
  exists h1,
    subscribe (plain 3 2 "7" (Some "c")) desk = ROk h1
    /\ unsubscribe 2 (Some "c") h1
       = ROk {| subscriptions := ("7", []) :: subscriptions desk;
                events := [Dispatch "7" "focus"];
                allocated := 3 |}.
Proof.
  eexists. split; [reflexivity|].
  apply (@subscribe_then_unsubscribe "c" (plain 3 2 "7" (Some "c")) desk);
    reflexivity.
Defined.

Lemma members_replace (key : string) (set set' : list Subscription) (es : Registry)
    (y : Subscription) :
  In y (members (replace key set es)) -> In y (members es) \/ In y set.
Proof.
  unfold members. induction es as [|[k s] es IH]; simpl; [intros []|].
  destruct (k =? key)%string; simpl; intros H; apply in_app_or in H.
  - destruct H as [H|H]; [right; exact H|left; apply in_or_app; right; exact H].
  - destruct H as [H|H]; [left; apply in_or_app; left; exact H|].
    destruct (IH H) as [H'|H']; [left; apply in_or_app; right; exact H'|right; exact H'].
Qed.

Lemma members_define (key : string) (set : list Subscription) (es : Registry)
    (y : Subscription) :
  In y (members (define key set es)) -> In y (members es) \/ In y set.
Proof.
  unfold members. induction es as [|[k s] es IH]; simpl.
  - rewrite app_nil_r. intros H. right. exact H.
  - destruct (arrayIndex key) as [n|], (arrayIndex k) as [n'|];
      try destruct (n <? n')%N; simpl; intros H; apply in_app_or in H;
      try (destruct H as [H|H]; [right; exact H|left; exact H]);
      (destruct H as [H|H]; [left; apply in_or_app; left; exact H|];
       destruct (IH H) as [H'|H']; [left; apply in_or_app; right; exact H'|right; exact H']).
Qed.

Lemma members_add (set : list Subscription) (x y : Subscription) :
  In y (add set x) -> In y set \/ y = x.
Proof.
  unfold add. destruct (existsb (same x) set); [left; assumption|].
  intros H. apply in_app_or in H. destruct H as [H|[H|[]]]; [left; exact H|right; auto].
Qed.

Lemma members_subscribe (x y : Subscription) (h h' : Handler) :
  subscribe x h = ROk h' ->
  In y (members (subscriptions h')) -> In y (members (subscriptions h)) \/ y = x.
Proof.
  unfold subscribe, get.
  destruct (own (collection x) (subscriptions h)) as [set|] eqn:Hown.
  - intros E. injection E as <-. simpl. intros H.
    apply (@members_replace _ _ set) in H. destruct H as [H|H]; [left; exact H|].
    apply members_add in H. destruct H as [H|H]; [|right; exact H].
    left. unfold members. clear -Hown H.
    induction (subscriptions h) as [|[k s] es IH]; simpl in *; [discriminate|].
    apply in_or_app. destruct (k =? collection x)%string.
    + injection Hown as <-. left. exact H.
    + right. exact (IH Hown).
  - destruct (Str.is_in (collection x) prototypeKeys); [discriminate|].
    intros E. injection E as <-. simpl. intros H.
    apply members_define in H. destruct H as [H|H]; [left; exact H|].
    apply members_add in H. destruct H as [[]|H]. right. exact H.
Qed.

Lemma members_without (client' : nat) (es : Registry) (y : Subscription) :
  In y (members (without client' es)) -> client y <> client'.
Proof.
  unfold members, without. induction es as [|[k s] es IH]; simpl; [intros []|].
  intros H. apply in_app_or in H. destruct H as [H|H]; [|exact (IH H)].
  apply filter_In in H. destruct H as [_ H]. apply negb_true_iff in H.
  apply Nat.eqb_neq. exact H.
Qed.

(** X29.  A [SUBSCRIBE] message without a uid that passes the checks on
    schema, collection and query leaves the client with no subscription
    but the one the message asks for: the call that is to remove the
    subscription of the same uid removes all the client's subscriptions,
    and they stay removed when the new one cannot be registered. *)
Theorem subscribe_without_uid_drops_the_rest :
  forall w client' message h,
    NoDup (map fst (subscriptions h)) ->
    mtype message = "SUBSCRIBE" ->
    muid message = None ->
    getSchema w client' = true ->
    admin w client' || hasCollection w client' (mcollection message) = true ->
    (forall q, mquery message = Some q -> sanitizeQuery w q client' <> None) ->
    exists h',
      onMessage w client' message h = ROk h'
      /\ forall subscription,
           In subscription (members (subscriptions h')) ->
           client subscription = client' ->
           ref subscription = allocated h.
Proof.
  intros w client' message h Hnd Htype Huid Hschema Hallowed Hquery.
  unfold onMessage. rewrite Htype. simpl String.eqb. cbv iota.
  unfold trySubscribe. rewrite Hschema. simpl negb. cbv iota.
  assert (Hcheck : negb (admin w client')
                   && negb (hasCollection w client' (mcollection message)) = false).
  { rewrite <- negb_orb, Hallowed. reflexivity. }
  rewrite Hcheck.
  assert (Hq : exists query',
             match mquery message with
             | Some q =>
                 match sanitizeQuery w q client' with
                 | Some q' => Some (Some q')
                 | None => None
                 end
             | None => Some None
             end = Some query').
  { destruct (mquery message) as [q|]; [|exists None; reflexivity].
    specialize (Hquery q eq_refl). destruct (sanitizeQuery w q client') as [q'|];
      [exists (Some q'); reflexivity|contradiction]. }
  destruct Hq as [query' ->]. cbv zeta.
  change (uid (subscriptionOf client' message query' h)) with (muid message).
  rewrite Huid. unfold unsubscribe.
  rewrite (@releaseAll_from client' (subscriptions (allocate h)) [] (allocate h)
             eq_refl Hnd).
  simpl app.
  match goal with
  | |- context [negb ?b] => destruct b
  end; simpl negb; cbv iota.
  - match goal with
    | |- context [subscribe ?x ?h1] => destruct (subscribe x h1) as [h2|] eqn:Hsub
    end.
    + assert (Hin : forall y, In y (members (subscriptions h2)) -> client y = client' ->
                              ref y = allocated h).
      { intros y Hy Hc. apply (@members_subscribe _ _ _ _ Hsub) in Hy.
        destruct Hy as [Hy | ->]; [|reflexivity].
        apply members_without in Hy. contradiction. }
      match goal with
      | |- context [if ?b then _ else _] => destruct b
      end; eexists; (split; [reflexivity|exact Hin]).
    + eexists. split; [reflexivity|]. intros y Hy Hc.
      apply members_without in Hy. contradiction.
  - eexists. split; [reflexivity|]. intros y Hy Hc.
    apply members_without in Hy. contradiction.
Qed.

Lemma subscribe_without_uid_drops_the_rest_witness :
  exists h1,
    onMessage open 1
      {| mtype := "SUBSCRIBE"; mcollection := "authors"; mquery := None; mitem := None;
         muid := None |} desk = ROk h1
    /\ forall subscription,
         In subscription (members (subscriptions h1)) ->
         client subscription = 1 ->
         ref subscription = 3.
Proof.
  apply (@subscribe_without_uid_drops_the_rest open 1
           {| mtype := "SUBSCRIBE"; mcollection := "authors"; mquery := None;
              mitem := None; muid := None |} desk);
    try reflexivity; [exact desk_keys_distinct|discriminate].
Defined.

End Registry.
